(** * remake: a shallow embedding of [remake.cpp]

    The development follows the source file top to bottom: the escaping and
    reading of words, the dependency database, the rule file, the rule
    matcher, the status cache, the job table and the client scheduler, the
    server loop, and the client mode.  Every definition is a translation of
    the C++ function of the same name. *)

From Stdlib Require Import ZArith Ascii String List Bool Lia.
From stdpp Require Import gmap strings list fin_maps sorting.

Local Open Scope string_scope.
Local Open Scope Z_scope.

(** ** Characters and C strings *)

(** The characters the source names by an escape sequence. *)
Definition NUL : ascii := "000"%char.
Definition TAB : ascii := "009"%char.
Definition LF : ascii := "010"%char.
Definition CR : ascii := "013"%char.
Definition DQUOTE : ascii := "034"%char.
Definition BACKSLASH : ascii := "092"%char.
Definition PERCENT : ascii := "037"%char.
Definition COLON : ascii := ":"%char.
Definition SPACE : ascii := " "%char.

(** [(char) EOF]: what [istream::get] yields, once narrowed to [char], when
    nothing could be read. *)
Definition EOF_char : ascii := "255"%char.

Definition ascii_eqb (a b : ascii) : bool := bool_decide (a = b).

Fixpoint string_mem (c : ascii) (s : string) : bool :=
  match s with
  | EmptyString => false
  | String a s' => ascii_eqb c a || string_mem c s'
  end.

(** [strchr(set, c) != NULL].  The terminating NUL of [set] counts as one of
    its characters, so [strchr] finds [c = 0] in every string. *)
Definition strchr (set : string) (c : ascii) : bool :=
  ascii_eqb c NUL || string_mem c set.

(** [std::string::c_str()] seen as a C string: the characters before the
    first NUL. *)
Fixpoint c_str (s : string) : string :=
  match s with
  | EmptyString => EmptyString
  | String a s' => if ascii_eqb a NUL then EmptyString else String a (c_str s')
  end.

(** The set of characters [escape_string] looks for: double quote, space,
    backslash, dollar, exclamation mark. *)
Definition special_chars : string :=
  String DQUOTE (String SPACE (String BACKSLASH "$!")).

(** The set of characters that end a bare word in [read_word]: space, tab,
    carriage return, line feed, colon. *)
Definition word_delims : string :=
  String SPACE (String TAB (String CR (String LF ":"))).

(** The set of characters [skip_eol] skips: carriage return, line feed. *)
Definition eol_chars : string := String CR (String LF "").

Definition string_snoc (s : string) (c : ascii) : string :=
  s +:+ String c "".

(** ** escape_string *)

(** The first loop: [nb] starts at [len] and grows by one per special
    character. *)
Fixpoint count_special (s : string) : nat :=
  match s with
  | EmptyString => 0%nat
  | String a s' =>
      ((if strchr special_chars a then 1 else 0) + count_special s')%nat
  end.

(** The second loop writes [s[i]] at [t[j]]; [t] was filled with
    backslashes, and [j] skips one position before each special character,
    which leaves a backslash there. *)
Fixpoint escape_chars (s : string) : string :=
  match s with
  | EmptyString => EmptyString
  | String a s' =>
      if strchr special_chars a
      then String BACKSLASH (String a (escape_chars s'))
      else String a (escape_chars s')
  end.

Definition escape_string (s : string) : string :=
  let len := String.length s in
  let nb := (len + count_special s)%nat in
  if (nb =? len)%nat then s
  else String DQUOTE (escape_chars s +:+ String DQUOTE "").

(** ** Input streams *)

(** A [std::istream] over a file: the characters not read yet and the two
    state bits the source tests ([good()] is "no bit set", [eof()] is
    [eofbit]). *)
Record istream := mk_istream {
  buffer : string;
  eofbit : bool;
  failbit : bool
}.

Definition open_stream (content : string) : istream :=
  mk_istream content false false.

Definition good (i : istream) : bool := negb (eofbit i) && negb (failbit i).

Definition at_eof : istream := mk_istream "" true true.

Definition set_failbit (i : istream) : istream :=
  mk_istream (buffer i) (eofbit i) true.

(** [in.get()]: [None] stands for the value [EOF]. *)
Definition get (i : istream) : option ascii * istream :=
  if good i then
    match buffer i with
    | EmptyString => (None, at_eof)
    | String c rest => (Some c, mk_istream rest false false)
    end
  else (None, set_failbit i).

(** [in.putback(c)]; the source only calls it on a stream that is good or
    one whose [failbit] alone is set, where it does nothing. *)
Definition putback (c : ascii) (i : istream) : istream :=
  if good i then mk_istream (String c (buffer i)) false false
  else set_failbit i.

(** The narrowing of [in.get()]'s [int] to a [char]. *)
Definition to_char (c : option ascii) : ascii :=
  match c with Some a => a | None => EOF_char end.

(** The loop [while ((c = in.get()) == ' ') {}] over a good stream, then
    [if (in.good()) in.putback(c)]. *)
Fixpoint skip_while (p : ascii -> bool) (buf : string) : istream :=
  match buf with
  | EmptyString => at_eof
  | String c rest =>
      if p c then skip_while p rest else mk_istream (String c rest) false false
  end.

Definition skip_spaces (i : istream) : istream :=
  if good i then skip_while (fun c => ascii_eqb c SPACE) (buffer i)
  else set_failbit i.

Definition skip_eol (i : istream) : istream :=
  if good i then skip_while (strchr eol_chars) (buffer i)
  else set_failbit i.

(** ** read_word *)

(** The [while (true)] loop of [read_word], entered with a good stream whose
    unread characters are [buf]. *)
Fixpoint read_word_loop (quoted : bool) (res : string) (buf : string)
  : string * istream :=
  match buf with
  | EmptyString => (res, at_eof)
  | String c rest =>
      if quoted then
        if ascii_eqb c BACKSLASH then
          match rest with
          | EmptyString => (string_snoc res EOF_char, at_eof)
          | String c2 rest2 => read_word_loop quoted (string_snoc res c2) rest2
          end
        else if ascii_eqb c DQUOTE then (res, mk_istream rest false false)
        else read_word_loop quoted (string_snoc res c) rest
      else
        if strchr word_delims c then (res, mk_istream (String c rest) false false)
        else read_word_loop quoted (string_snoc res c) rest
  end.

Definition read_word (i : istream) : string * istream :=
  match get i with
  | (None, i1) => ("", i1)
  | (Some c, i1) =>
      if strchr word_delims c then ("", putback c i1)
      else
        let quoted := ascii_eqb c DQUOTE in
        read_word_loop quoted (if quoted then "" else String c "") (buffer i1)
  end.

(** Reading a word back from a text that holds nothing else. *)
Definition unescape (text : string) : string :=
  fst (read_word (open_stream text)).

(** ** The dependency database *)

(** [std::set<std::string>] and [std::map<std::string, _>] are walked in
    increasing key order, bytes compared as unsigned. *)
Definition set_elements (s : gset string) : list string :=
  merge_sort String.le (elements s).

Definition key_le {V : Type} (a b : string * V) : Prop := String.le a.1 b.1.

Definition map_items {V : Type} (m : gmap string V) : list (string * V) :=
  merge_sort key_le (map_to_list m).

(** [deps[target]]: the set at [target], empty when there is none yet. *)
Definition deps_of (deps : gmap string (gset string)) (target : string)
  : gset string :=
  default ∅ (deps !! target).

(** [deps[target].insert(dep)] *)
Definition insert_dep (target dep : string) (deps : gmap string (gset string))
  : gmap string (gset string) :=
  <[target := {[dep]} ∪ deps_of deps target]> deps.

(** How a function of the source ends: it returns, the process exits, an
    [assert] fails, or the recursion bound of the model is reached.  [Fatal]
    is the idiom [std::cerr << msg; exit(1)] (or [perror(msg); exit(1)]). *)
Inductive result (A : Type) : Type :=
| Ret (a : A)
| Exit (code : Z)
| Fatal (msg : string)
| Abort
| OutOfFuel.
Arguments Ret {A} a.
Arguments Exit {A} code.
Arguments Fatal {A} msg.
Arguments Abort {A}.
Arguments OutOfFuel {A}.


(** The inner loop of [load_dependencies]:
    [while (!(dep = read_word(in)).empty())]. *)
Fixpoint read_deps (fuel : nat) (target : string) (i : istream)
    (deps : gmap string (gset string))
  : option (gmap string (gset string) * istream) :=
  match fuel with
  | O => None
  | S n =>
      let '(dep, i1) := read_word i in
      if decide (dep = "") then Some (deps, i1)
      else read_deps n target (skip_spaces i1) (insert_dep target dep deps)
  end.

(** The outer loop of [load_dependencies]: [while (!in.eof())]. *)
Fixpoint load_dependencies_loop (fuel : nat) (i : istream)
    (deps : gmap string (gset string))
  : result (gmap string (gset string)) :=
  match fuel with
  | O => OutOfFuel
  | S n =>
      if eofbit i then Ret deps
      else
        let '(target, i1) := read_word i in
        if decide (target = "") then Ret deps
        else
          let '(c, i2) := get i1 in
          if decide (c = Some COLON) then
            match read_deps n target (skip_spaces i2) deps with
            | None => OutOfFuel
            | Some (deps', i3) => load_dependencies_loop n (skip_eol i3) deps'
            end
          else Fatal "Failed to load database"
  end.

(** [load_dependencies], given what [std::ifstream in(".remake")] finds:
    [None] when the file cannot be opened. *)
Definition load_dependencies (db : option string)
    (deps : gmap string (gset string))
  : result (gmap string (gset string)) :=
  match db with
  | None => Ret deps
  | Some content =>
      load_dependencies_loop (S (String.length content)) (open_stream content) deps
  end.

(** One record of the database, as the body of the outer loop of
    [save_dependencies] writes it. *)
Definition save_record (target : string) (ds : gset string) : string :=
  escape_string target +:+ ": " +:+
  foldr (fun d out => escape_string d +:+ " " +:+ out) "" (set_elements ds) +:+
  String LF "".

(** [save_dependencies]: the text written to [.remake]. *)
Definition save_dependencies (deps : gmap string (gset string)) : string :=
  foldr (fun '(target, ds) out =>
           if decide (ds = ∅) then out else save_record target ds +:+ out)
        "" (map_items deps).

(** ** Rules *)

(** [struct rule_t]; [rule_t()] is [empty_rule]. *)
Record rule_t := mk_rule {
  generic : bool;
  targets : list string;
  deps : list string;
  script : string
}.

Definition empty_rule : rule_t := mk_rule false [] [] "".

Inductive load_state_e := Bof | Tgt | Dep | Script.

Global Instance load_state_e_eq_dec : EqDecision load_state_e.
Proof. solve_decision. Defined.

(** [s.find(c)]: [None] is [std::string::npos]. *)
Fixpoint string_find (c : ascii) (s : string) : option nat :=
  match s with
  | EmptyString => None
  | String a s' => if ascii_eqb a c then Some 0%nat else S <$> string_find c s'
  end.

(** [in.get] into the buffer of [buf]: the characters before the next line feed go to
    [buf]; [eofbit] when the end of the file is reached, [failbit] when no
    character was moved. *)
Fixpoint take_line (buf : string) : string * string :=
  match buf with
  | EmptyString => (EmptyString, EmptyString)
  | String c rest =>
      if ascii_eqb c LF then (EmptyString, buf)
      else let '(line, rest') := take_line rest in (String c line, rest')
  end.

Definition get_streambuf (i : istream) : string * istream :=
  if good i then
    let '(line, rest) := take_line (buffer i) in
    (line, mk_istream rest (bool_decide (rest = "")) (bool_decide (line = "")))
  else ("", set_failbit i).

(** The local variables of [load_rules] and the two globals it writes. *)
Record loader := mk_loader {
  ld_in : istream;
  ld_current : rule_t;
  ld_buf : string;
  ld_state : load_state_e;
  ld_line : Z;
  ld_rules : list rule_t;
  ld_deps : gmap string (gset string)
}.

Definition syntax_error : string := "Failed to load rules: syntax error".

(** [rules.push_back(current)] with [current.script = buf.str()]. *)
Definition push_current (l : loader) : list rule_t :=
  ld_rules l ++
  [mk_rule (generic (ld_current l)) (targets (ld_current l))
           (deps (ld_current l)) (ld_buf l)].

(** The last branch of the loop of [load_rules]: a word is read. *)
Definition load_rules_word (c : option ascii) (i1 : istream) (l : loader)
  : result loader :=
  let state := ld_state l in
  let rules1 := if decide (state = Script) then push_current l else ld_rules l in
  let buf1 := if decide (state = Script) then "" else ld_buf l in
  let current1 := if decide (state = Script) then empty_rule else ld_current l in
  let '(file, i2) := read_word (putback (to_char c) i1) in
  let i3 := skip_spaces i2 in
  if decide (file = "") then Fatal syntax_error
  else
    let has_percent := bool_decide (is_Some (string_find PERCENT file)) in
    if has_percent
       && bool_decide (state = Tgt \/ state = Dep) && negb (generic current1)
    then Fatal syntax_error
    else if negb has_percent && bool_decide (state = Tgt) && generic current1
    then Fatal syntax_error
    else
      let gen := if has_percent then true else generic current1 in
      if decide (state = Dep) then
        let current2 :=
          mk_rule gen (targets current1) (deps current1 ++ [file]) (script current1) in
        let deps2 :=
          if gen then ld_deps l
          else foldl (fun d t => insert_dep t file d) (ld_deps l) (targets current1) in
        Ret (mk_loader i3 current2 buf1 state (ld_line l) rules1 deps2)
      else
        let current2 :=
          mk_rule gen (targets current1 ++ [file]) (deps current1) (script current1) in
        Ret (mk_loader i3 current2 buf1 Tgt (ld_line l) rules1 (ld_deps l)).

(** The loop [while (!in.eof())] of [load_rules]. *)
Fixpoint load_rules_loop (fuel : nat) (l : loader) : result loader :=
  match fuel with
  | O => OutOfFuel
  | S n =>
      if eofbit (ld_in l) then Ret l
      else
        let '(c, i1) := get (ld_in l) in
        if eofbit i1 then
          Ret (mk_loader i1 (ld_current l) (ld_buf l) (ld_state l) (ld_line l)
                         (ld_rules l) (ld_deps l))
        else
          let state := ld_state l in
          if bool_decide (state = Script) && bool_decide (c = Some TAB) then
            let '(text, i2) := get_streambuf i1 in
            load_rules_loop n
              (mk_loader i2 (ld_current l) (ld_buf l +:+ text) state (ld_line l)
                         (ld_rules l) (ld_deps l))
          else if bool_decide (state = Script)
                  && (bool_decide (c = Some CR) || bool_decide (c = Some LF)) then
            load_rules_loop n
              (mk_loader i1 (ld_current l) (string_snoc (ld_buf l) (to_char c)) state
                         (if bool_decide (c = Some LF) then ld_line l + 1 else ld_line l)
                         (ld_rules l) (ld_deps l))
          else if bool_decide (state = Dep) && bool_decide (c = Some LF) then
            load_rules_loop n
              (mk_loader i1 (ld_current l) (ld_buf l) Script (ld_line l + 1)
                         (ld_rules l) (ld_deps l))
          else if bool_decide (state = Tgt) && bool_decide (c = Some COLON) then
            load_rules_loop n
              (mk_loader (skip_spaces i1) (ld_current l) (ld_buf l) Dep (ld_line l)
                         (ld_rules l) (ld_deps l))
          else
            match load_rules_word c i1 l with
            | Ret l' => load_rules_loop n l'
            | r => r
            end
  end.

(** [load_rules], given what [std::ifstream in("Remakefile")] finds; it
    appends to the global [rules] and inserts into the global [deps]. *)
Definition load_rules (remakefile : option string) (rules : list rule_t)
    (deps : gmap string (gset string))
  : result (list rule_t * gmap string (gset string)) :=
  match remakefile with
  | None => Fatal "Failed to load rules: no Remakefile found"
  | Some content =>
      match load_rules_loop (S (String.length content))
              (mk_loader (open_stream content) empty_rule "" Bof 1 rules deps) with
      | Ret l =>
          Ret (if decide (ld_state l = Bof) then ld_rules l else push_current l,
               ld_deps l)
      | Exit code => Exit code
      | Fatal msg => Fatal msg
      | Abort => Abort
      | OutOfFuel => OutOfFuel
      end
  end.

(** ** The rule matcher *)

Fixpoint string_drop (n : nat) (s : string) : string :=
  match n, s with
  | O, _ => s
  | S n', EmptyString => EmptyString
  | S n', String _ s' => string_drop n' s'
  end.

Fixpoint string_take (n : nat) (s : string) : string :=
  match n, s with
  | O, _ => EmptyString
  | S n', EmptyString => EmptyString
  | S n', String a s' => String a (string_take n' s')
  end.

(** [s.length()], a [size_t]. *)
Definition slen (s : string) : Z := Z.of_nat (String.length s).

(** Subtraction of two [size_t]: it wraps around. *)
Definition size_t_sub (a b : Z) : Z := (a - b) mod 2 ^ 64.

(** [s.substr(pos, n)] for [pos <= s.length()]: at most [n] characters from
    position [pos]. *)
Definition substr (s : string) (pos n : Z) : string :=
  string_take (Z.to_nat n) (string_drop (Z.to_nat pos) s).

(** [s.substr(pos)]: all the characters from position [pos]. *)
Definition substr_from (s : string) (pos : Z) : string :=
  string_drop (Z.to_nat pos) s.

(** [a.compare(pos1, n1, b, pos2, n2) == 0] *)
Definition compare_eq (a : string) (pos1 n1 : Z) (b : string) (pos2 n2 : Z)
  : bool :=
  bool_decide (substr a pos1 n1 = substr b pos2 n2).

(** The body of the loop of [substitute_pattern]. *)
Definition substitute1 (pat : string) (s : string) : string :=
  match string_find PERCENT s with
  | None => s
  | Some pos =>
      substr s 0 (Z.of_nat pos) +:+ pat +:+ substr_from s (Z.of_nat pos + 1)
  end.

Definition substitute_pattern (pat : string) (src dst : list string)
  : list string :=
  dst ++ map (substitute1 pat) src.

(** How the inner loop of [find_rule] is left: by [return *i], by [break]
    with a new [plen] and [rule], or at the end of the targets. *)
Inductive scan : Type :=
| Return_rule (r : rule_t)
| Break (plen : Z) (r : rule_t)
| Next.

(** The inner loop of [find_rule], over the targets [js] of the rule [i]. *)
Fixpoint scan_targets (target : string) (i : rule_t) (plen : Z)
    (js : list string) : scan :=
  match js with
  | [] => Next
  | j :: js' =>
      if negb (generic i) then
        if decide (j = target) then Return_rule i
        else scan_targets target i plen js'
      else
        let tlen := slen target in
        let len := slen j in
        if tlen <? len then scan_targets target i plen js'
        else if plen <=? size_t_sub tlen (size_t_sub len 1)
        then scan_targets target i plen js'
        else
          match string_find PERCENT j with
          | None => scan_targets target i plen js'
          | Some p =>
              let pos := Z.of_nat p in
              let len2 := size_t_sub len (pos + 1) in
              if negb (compare_eq j 0 pos target 0 pos)
                 || negb (compare_eq j (pos + 1) len2 target
                            (size_t_sub tlen len2) len2)
              then scan_targets target i plen js'
              else
                let plen' := size_t_sub tlen (size_t_sub len 1) in
                let pat := substr target pos plen' in
                Break plen'
                  (mk_rule false
                     (substitute_pattern pat (targets i) [])
                     (substitute_pattern pat (deps i) [])
                     (script i))
          end
  end.

(** The outer loop of [find_rule], over the rules. *)
Fixpoint find_rule_loop (target : string) (plen : Z) (rule : rule_t)
    (rules : list rule_t) : rule_t :=
  match rules with
  | [] => rule
  | i :: rules' =>
      match scan_targets target i plen (targets i) with
      | Return_rule r => r
      | Break plen' rule' => find_rule_loop target plen' rule' rules'
      | Next => find_rule_loop target plen rule rules'
      end
  end.

Definition find_rule (rules : list rule_t) (target : string) : rule_t :=
  find_rule_loop target 10000 empty_rule rules.

(** ** The state of the server *)

Inductive status_e := Uptodate | Todo | Running | Remade | Failed.

Global Instance status_e_eq_dec : EqDecision status_e.
Proof. solve_decision. Defined.

(** [struct status_t]; [status_t()] is [mk_status Uptodate 0]. *)
Record status_t := mk_status {
  status : status_e;
  last : Z
}.

(** [struct client_t]; [fd] and [job_id] are negative when there is none,
    [delayed] is [None] for a null pointer. *)
Record client_t := mk_client {
  fd : Z;
  job_id : Z;
  pending : list string;
  running : gset string;
  delayed : option rule_t
}.

Definition new_client : client_t := mk_client (-1) (-1) [] ∅ None.

(** A file of the working directory: what [stat] reports as [st_mtime] and
    what reading it yields. *)
Record file := mk_file {
  mtime : Z;
  content : string
}.

(** Modelled from the spec: the macros [WIFEXITED] and [WEXITSTATUS] of
    [sys/wait.h] are not part of the source; the status [waitpid] stores is
    either a normal exit with its exit status or a death by a signal. *)
Inductive wait_status :=
| Exited (code : Z)
| Signaled (sig : Z).

Definition WIFEXITED (ws : wait_status) : bool :=
  match ws with Exited _ => true | Signaled _ => false end.

Definition WEXITSTATUS (ws : wait_status) : Z :=
  match ws with Exited code => code | Signaled _ => 0 end.

(** A connection to the socket: the descriptor [accept4] returns (negative
    when it fails), the job id if [recv] delivered its four bytes, and what
    the following calls to [recv] deliver, one string per call (none left:
    [recv] returns 0 or less). *)
Record connection := mk_connection {
  conn_fd : Z;
  conn_job_id : option Z;
  conn_chunks : list string
}.

(** What one [pselect] of [server_loop] wakes up to: the files as the
    scripts left them, a connection when [pselect] returns a positive value,
    whether [SIGCHLD] was delivered, and the children [waitpid] then
    reports. *)
Record loop_event := mk_event {
  ev_files : gmap string file;
  ev_connection : option connection;
  ev_sigchld : bool;
  ev_children : list (positive * wait_status)
}.

(** The globals of the source, then the world around the process, then a
    ghost record of the values the two job counters go through. *)
Record state := mk_state {
  st_deps : gmap string (gset string);
  st_status : gmap string status_t;
  st_rules : list rule_t;
  st_job_targets : gmap Z (list string);
  st_job_pids : gmap positive Z;
  st_clients : list client_t;
  st_max_active_jobs : Z;
  st_running_jobs : Z;
  st_waiting_jobs : Z;
  st_job_counter : Z;
  st_build_failure : bool;
  st_files : gmap string file;
  st_forks : list (option positive);
  st_events : list loop_event;
  st_can_listen : bool;
  st_sent : list (Z * bool);
  st_saved : option string;
  st_trace : list (Z * Z)
}.

Definition set_deps (v : gmap string (gset string)) (st : state) : state :=
  mk_state v (st_status st) (st_rules st) (st_job_targets st) (st_job_pids st)
    (st_clients st) (st_max_active_jobs st) (st_running_jobs st)
    (st_waiting_jobs st) (st_job_counter st) (st_build_failure st)
    (st_files st) (st_forks st) (st_events st) (st_can_listen st) (st_sent st)
    (st_saved st) (st_trace st).

Definition set_status (v : gmap string status_t) (st : state) : state :=
  mk_state (st_deps st) v (st_rules st) (st_job_targets st) (st_job_pids st)
    (st_clients st) (st_max_active_jobs st) (st_running_jobs st)
    (st_waiting_jobs st) (st_job_counter st) (st_build_failure st)
    (st_files st) (st_forks st) (st_events st) (st_can_listen st) (st_sent st)
    (st_saved st) (st_trace st).

Definition set_rules (v : list rule_t) (st : state) : state :=
  mk_state (st_deps st) (st_status st) v (st_job_targets st) (st_job_pids st)
    (st_clients st) (st_max_active_jobs st) (st_running_jobs st)
    (st_waiting_jobs st) (st_job_counter st) (st_build_failure st)
    (st_files st) (st_forks st) (st_events st) (st_can_listen st) (st_sent st)
    (st_saved st) (st_trace st).

Definition set_job_targets (v : gmap Z (list string)) (st : state) : state :=
  mk_state (st_deps st) (st_status st) (st_rules st) v (st_job_pids st)
    (st_clients st) (st_max_active_jobs st) (st_running_jobs st)
    (st_waiting_jobs st) (st_job_counter st) (st_build_failure st)
    (st_files st) (st_forks st) (st_events st) (st_can_listen st) (st_sent st)
    (st_saved st) (st_trace st).

Definition set_job_pids (v : gmap positive Z) (st : state) : state :=
  mk_state (st_deps st) (st_status st) (st_rules st) (st_job_targets st) v
    (st_clients st) (st_max_active_jobs st) (st_running_jobs st)
    (st_waiting_jobs st) (st_job_counter st) (st_build_failure st)
    (st_files st) (st_forks st) (st_events st) (st_can_listen st) (st_sent st)
    (st_saved st) (st_trace st).

Definition set_clients (v : list client_t) (st : state) : state :=
  mk_state (st_deps st) (st_status st) (st_rules st) (st_job_targets st)
    (st_job_pids st) v (st_max_active_jobs st) (st_running_jobs st)
    (st_waiting_jobs st) (st_job_counter st) (st_build_failure st)
    (st_files st) (st_forks st) (st_events st) (st_can_listen st) (st_sent st)
    (st_saved st) (st_trace st).

(** Every write to [running_jobs] or [waiting_jobs] goes through one of the
    next two functions, which also note the new pair of values. *)
Definition set_running_jobs (v : Z) (st : state) : state :=
  mk_state (st_deps st) (st_status st) (st_rules st) (st_job_targets st)
    (st_job_pids st) (st_clients st) (st_max_active_jobs st) v
    (st_waiting_jobs st) (st_job_counter st) (st_build_failure st)
    (st_files st) (st_forks st) (st_events st) (st_can_listen st) (st_sent st)
    (st_saved st) ((v, st_waiting_jobs st) :: st_trace st).

Definition set_waiting_jobs (v : Z) (st : state) : state :=
  mk_state (st_deps st) (st_status st) (st_rules st) (st_job_targets st)
    (st_job_pids st) (st_clients st) (st_max_active_jobs st)
    (st_running_jobs st) v (st_job_counter st) (st_build_failure st)
    (st_files st) (st_forks st) (st_events st) (st_can_listen st) (st_sent st)
    (st_saved st) ((st_running_jobs st, v) :: st_trace st).

Definition set_job_counter (v : Z) (st : state) : state :=
  mk_state (st_deps st) (st_status st) (st_rules st) (st_job_targets st)
    (st_job_pids st) (st_clients st) (st_max_active_jobs st)
    (st_running_jobs st) (st_waiting_jobs st) v (st_build_failure st)
    (st_files st) (st_forks st) (st_events st) (st_can_listen st) (st_sent st)
    (st_saved st) (st_trace st).

Definition set_build_failure (v : bool) (st : state) : state :=
  mk_state (st_deps st) (st_status st) (st_rules st) (st_job_targets st)
    (st_job_pids st) (st_clients st) (st_max_active_jobs st)
    (st_running_jobs st) (st_waiting_jobs st) (st_job_counter st) v
    (st_files st) (st_forks st) (st_events st) (st_can_listen st) (st_sent st)
    (st_saved st) (st_trace st).

Definition set_files (v : gmap string file) (st : state) : state :=
  mk_state (st_deps st) (st_status st) (st_rules st) (st_job_targets st)
    (st_job_pids st) (st_clients st) (st_max_active_jobs st)
    (st_running_jobs st) (st_waiting_jobs st) (st_job_counter st)
    (st_build_failure st) v (st_forks st) (st_events st) (st_can_listen st)
    (st_sent st) (st_saved st) (st_trace st).

Definition set_forks (v : list (option positive)) (st : state) : state :=
  mk_state (st_deps st) (st_status st) (st_rules st) (st_job_targets st)
    (st_job_pids st) (st_clients st) (st_max_active_jobs st)
    (st_running_jobs st) (st_waiting_jobs st) (st_job_counter st)
    (st_build_failure st) (st_files st) v (st_events st) (st_can_listen st)
    (st_sent st) (st_saved st) (st_trace st).

Definition set_events (v : list loop_event) (st : state) : state :=
  mk_state (st_deps st) (st_status st) (st_rules st) (st_job_targets st)
    (st_job_pids st) (st_clients st) (st_max_active_jobs st)
    (st_running_jobs st) (st_waiting_jobs st) (st_job_counter st)
    (st_build_failure st) (st_files st) (st_forks st) v (st_can_listen st)
    (st_sent st) (st_saved st) (st_trace st).

Definition set_sent (v : list (Z * bool)) (st : state) : state :=
  mk_state (st_deps st) (st_status st) (st_rules st) (st_job_targets st)
    (st_job_pids st) (st_clients st) (st_max_active_jobs st)
    (st_running_jobs st) (st_waiting_jobs st) (st_job_counter st)
    (st_build_failure st) (st_files st) (st_forks st) (st_events st)
    (st_can_listen st) v (st_saved st) (st_trace st).

Definition set_saved (v : option string) (st : state) : state :=
  mk_state (st_deps st) (st_status st) (st_rules st) (st_job_targets st)
    (st_job_pids st) (st_clients st) (st_max_active_jobs st)
    (st_running_jobs st) (st_waiting_jobs st) (st_job_counter st)
    (st_build_failure st) (st_files st) (st_forks st) (st_events st)
    (st_can_listen st) (st_sent st) v (st_trace st).

(** The process as [main] finds it: every global zero-initialised,
    [max_active_jobs] 1, and a world to run in. *)
Definition initial_state (files : gmap string file)
    (forks : list (option positive)) (events : list loop_event)
    (can_listen : bool) : state :=
  mk_state ∅ ∅ [] ∅ ∅ [] 1 0 0 0 false files forks events can_listen [] None [].

(** ** The status cache *)

(** [stat(target.c_str(), &s)]: the file if the call returns 0. *)
Definition stat (st : state) (target : string) : option file :=
  st_files st !! c_str target.

(** [status[t].status = s]: the entry is created by [operator[]] when there
    is none, and keeps its [last]. *)
Definition mark (t : string) (s : status_e) (m : gmap string status_t)
  : gmap string status_t :=
  <[t := mk_status s (default 0 (last <$> m !! t))]> m.

(** [deps[target]] on the non-const map: an empty set is inserted when
    there is none. *)
Definition touch_deps (target : string) (deps : gmap string (gset string))
  : gmap string (gset string) :=
  match deps !! target with
  | Some _ => deps
  | None => <[target := ∅]> deps
  end.

(** The loop of [get_status] over the dependencies [ks], with the recursive
    call as argument: [true] when the loop runs to its end, [false] when it
    is left by [goto obsolete]. *)
Fixpoint check_deps (rec : string -> state -> option (status_t * state))
    (st_mtime : Z) (ks : list string) (st : state) : option (bool * state) :=
  match ks with
  | [] => Some (true, st)
  | k :: ks' =>
      match rec k st with
      | None => None
      | Some (ts, st') =>
          if negb (bool_decide (status ts = Uptodate)) || (st_mtime <? last ts)
          then Some (false, st')
          else check_deps rec st_mtime ks' st'
      end
  end.

(** The label [obsolete] of [get_status]. *)
Definition obsolete (target : string) (st : state) : status_t * state :=
  let m := mark target Todo (st_status st) in
  (default (mk_status Todo 0) (m !! target), set_status m st).

(** [get_status]; [None] when the recursion bound [fuel] is reached. *)
Fixpoint get_status_fuel (fuel : nat) (target : string) (st : state)
  : option (status_t * state) :=
  match fuel with
  | O => None
  | S n =>
      match st_status st !! target with
      | Some ts => Some (ts, st)
      | None =>
          let st1 := set_status (<[target := mk_status Uptodate 0]> (st_status st)) st in
          match stat st1 target with
          | None => Some (obsolete target st1)
          | Some s =>
              let st2 := set_deps (touch_deps target (st_deps st1)) st1 in
              let dep := deps_of (st_deps st2) target in
              match check_deps (get_status_fuel n) (mtime s) (set_elements dep) st2 with
              | None => None
              | Some (false, st3) => Some (obsolete target st3)
              | Some (true, st3) =>
                  let ts := mk_status Uptodate (mtime s) in
                  Some (ts, set_status (<[target := ts]> (st_status st3)) st3)
              end
          end
      end
  end.

(** Every name the dependency map mentions. *)
Definition dep_names (deps : gmap string (gset string)) : gset string :=
  dom deps ∪ ⋃ ((map_to_list deps).*2).

(** A recursion bound that [get_status] never reaches: each nested call is
    for a name of the dependency map that was not in the cache. *)
Definition get_status_bound (st : state) : nat :=
  S (S (size (dep_names (st_deps st) ∖ dom (st_status st)))).

Definition get_status (target : string) (st : state)
  : option (status_t * state) :=
  get_status_fuel (get_status_bound st) target st.

(** ** Running the server: a state and error monad *)

Definition M (A : Type) : Type := state -> result A * state.

Definition ret {A : Type} (a : A) : M A := fun st => (Ret a, st).

Definition bind {A B : Type} (m : M A) (k : A -> M B) : M B :=
  fun st =>
    match m st with
    | (Ret a, st') => k a st'
    | (Exit code, st') => (Exit code, st')
    | (Fatal msg, st') => (Fatal msg, st')
    | (Abort, st') => (Abort, st')
    | (OutOfFuel, st') => (OutOfFuel, st')
    end.

Notation "'let!' x := m 'in' k" := (bind m (fun x => k))
  (at level 10, x name, m at level 100, k at level 200).
Notation "'do!' m 'in' k" := (bind m (fun _ => k))
  (at level 10, m at level 100, k at level 200).

Definition get_state : M state := fun st => (Ret st, st).
Definition modify (f : state -> state) : M unit := fun st => (Ret tt, f st).
Definition stop {A : Type} (r : result A) : M A := fun st => (r, st).

(** [assert(b)] *)
Definition assert (b : bool) : M unit := if b then ret tt else stop Abort.

(** [get_status] in the monad. *)
Definition get_status_m (target : string) : M status_t :=
  fun st =>
    match get_status target st with
    | Some (ts, st') => (Ret ts, st')
    | None => (OutOfFuel, st)
    end.

(** ** Jobs *)

(** [remove(path)] *)
Definition remove_file (path : string) (st : state) : state :=
  set_files (delete path (st_files st)) st.

(** One round of the loop of [complete_job] in the failure branch. *)
Definition fail_target (st : state) (t : string) : state :=
  remove_file (c_str t) (set_status (mark t Failed (st_status st)) st).

Definition complete_job (job_id : Z) (success : bool) : M unit :=
  let! st := get_state in
  match st_job_targets st !! job_id with
  | None => stop Abort
  | Some targets =>
      do! modify (fun st =>
        if success then
          set_status (foldl (fun m t => mark t Remade m) (st_status st) targets) st
        else foldl fail_target st targets) in
      modify (fun st => set_job_targets (delete job_id (st_job_targets st)) st)
  end.

(** [run_script] in the parent process; the child, where [fork] returns 0,
    becomes the shell and is not this process any more. *)
Definition run_script (job_id : Z) (rule : rule_t) : M unit :=
  let! st := get_state in
  match st_forks st with
  | Some pid :: forks =>
      modify (fun st =>
        set_job_pids (<[pid := job_id]> (st_job_pids st))
          (set_running_jobs (st_running_jobs st + 1) (set_forks forks st)))
  | None :: forks =>
      do! modify (set_forks forks) in complete_job job_id false
  | [] => complete_job job_id false
  end.

(** [clients.insert(current, c)] with [current] at index [i]. *)
Definition insert_at {A : Type} (i : nat) (x : A) (l : list A) : list A :=
  take i l ++ x :: drop i l.

(** [start(target, current)] with [current] at index [i] of [clients].  It
    returns its result and whether a dependency client was inserted: then
    [current] points to it, still at index [i], and the client it pointed
    to is at index [i + 1]. *)
Definition start (target : string) (i : nat) : M (bool * bool) :=
  let! st := get_state in
  let rule := find_rule (st_rules st) target in
  match targets rule with
  | [] =>
      do! modify (fun st => set_status (mark target Failed (st_status st)) st) in
      ret (false, false)
  | _ :: _ =>
      do! modify (fun st =>
        foldl (fun st t =>
                 set_deps (<[t := list_to_set (deps rule)]> (st_deps st))
                   (set_status (mark t Running (st_status st)) st))
              st (targets rule)) in
      let! inserted :=
        match deps rule with
        | _ :: _ =>
            do! modify (fun st =>
              set_clients
                (insert_at i
                   (mk_client (-1) (st_job_counter st) (deps rule) ∅
                      (Some (mk_rule (generic rule) (targets rule) [] (script rule))))
                   (st_clients st)) st) in
            ret true
        | [] =>
            do! run_script (st_job_counter st) rule in ret false
        end in
      do! modify (fun st =>
        set_job_counter (st_job_counter st + 1)
          (set_job_targets
             (<[st_job_counter st := targets rule]> (st_job_targets st)) st)) in
      ret (true, inserted)
  end.

Definition complete_request (client : client_t) (success : bool) : M unit :=
  do!
    match delayed client with
    | Some rule =>
        do! assert (fd client <? 0) in
        if success then run_script (job_id client) rule
        else complete_job (job_id client) false
    | None =>
        if 0 <=? fd client then
          modify (fun st =>
            set_waiting_jobs (st_waiting_jobs st - 1)
              (set_sent (st_sent st ++ [(fd client, success)]) st))
        else ret tt
    end in
  if (job_id client <? 0) && negb success
  then modify (set_build_failure true)
  else ret tt.

Definition has_free_slots (st : state) : bool :=
  if st_max_active_jobs st <=? 0 then true
  else st_running_jobs st - st_waiting_jobs st <? st_max_active_jobs st.

(** ** update_clients *)

(** How the first inner loop of [update_clients] is left. *)
Inductive harvested : Type :=
| Harvested (running : gset string)
| Harvest_failed
| Harvest_abort.

(** The first inner loop, over the names [js] of the running set. *)
Fixpoint harvest (m : gmap string status_t) (js : list string)
    (running : gset string) : harvested :=
  match js with
  | [] => Harvested running
  | j :: js' =>
      match m !! j with
      | None => Harvest_abort
      | Some ts =>
          match status ts with
          | Uptodate | Remade => harvest m js' (running ∖ {[j]})
          | Running => harvest m js' running
          | Todo => Harvest_abort
          | Failed => Harvest_failed
          end
      end
  end.

(** [*i] for the iterator at index [i]. *)
Definition client_at (i : nat) : M client_t :=
  let! st := get_state in
  match st_clients st !! i with
  | Some c => ret c
  | None => stop Abort
  end.

Definition update_client (i : nat) (f : client_t -> client_t) : M unit :=
  modify (fun st => set_clients (alter f i (st_clients st)) st).

Definition add_running (target : string) (c : client_t) : client_t :=
  mk_client (fd c) (job_id c) (pending c) ({[target]} ∪ running c) (delayed c).

Definition set_running (r : gset string) (c : client_t) : client_t :=
  mk_client (fd c) (job_id c) (pending c) r (delayed c).

Definition set_pending (p : list string) (c : client_t) : client_t :=
  mk_client (fd c) (job_id c) p (running c) (delayed c).

(** How the second inner loop is left: at its end, by [goto failed], or by
    [return]. *)
Inductive drained : Type :=
| Drained
| Drain_failed
| Drain_return.

(** The second inner loop, [while (!i->pending.empty())], with [i] at index
    [i]. *)
Fixpoint drain (fuel : nat) (i : nat) : M drained :=
  match fuel with
  | O => stop OutOfFuel
  | S n =>
      let! c := client_at i in
      match pending c with
      | [] => ret Drained
      | target :: rest =>
          do! update_client i (set_pending rest) in
          let! ts := get_status_m target in
          match status ts with
          | Failed => ret Drain_failed
          | Running => do! update_client i (add_running target) in drain n i
          | Uptodate | Remade => drain n i
          | Todo =>
              let! r := start target i in
              let '(ok, inserted) := r in
              if negb ok then ret Drain_failed
              else
                do! update_client (if inserted then S i else i) (add_running target) in
                let! st := get_state in
                if negb (has_free_slots st) then ret Drain_return
                else drain n i
          end
      end
  end.

(** [clients.erase(i)] *)
Definition erase_client (i : nat) : M unit :=
  modify (fun st => set_clients (delete i (st_clients st)) st).

(** The label [failed]. *)
Definition fail_client (i : nat) : M unit :=
  let! c := client_at i in
  do! complete_request c false in
  erase_client i.

(** The body of the loop of [update_clients] for the client at index [i]:
    the index the loop goes on with, or [None] for [return]. *)
Definition handle_client (fuel : nat) (i : nat) : M (option nat) :=
  let! c := client_at i in
  let! st := get_state in
  match harvest (st_status st) (set_elements (running c)) (running c) with
  | Harvest_abort => stop Abort
  | Harvest_failed => do! fail_client i in ret (Some i)
  | Harvested r =>
      do! update_client i (set_running r) in
      let! d := drain fuel i in
      match d with
      | Drain_return => ret None
      | Drain_failed => do! fail_client i in ret (Some i)
      | Drained =>
          let! c' := client_at i in
          if decide (running c' = ∅) then
            do! complete_request c' true in do! erase_client i in ret (Some i)
          else ret (Some (S i))
      end
  end.

Fixpoint update_clients_loop (fuel : nat) (i : nat) : M unit :=
  match fuel with
  | O => stop OutOfFuel
  | S n =>
      let! st := get_state in
      if (i <? length (st_clients st))%nat && has_free_slots st then
        let! next := handle_client n i in
        match next with
        | Some i' => update_clients_loop n i'
        | None => ret tt
        end
      else ret tt
  end.

Definition update_clients (fuel : nat) : M unit := update_clients_loop fuel 0.

(** ** The request endpoint *)

(** Whether the text received so far ends the request: its last character
    and the one before are NUL. *)
Definition ends_request (tbuf : string) : bool :=
  match String.rev tbuf with
  | String a (String b _) => ascii_eqb a NUL && ascii_eqb b NUL
  | _ => false
  end.

(** The loop that receives the targets, one string per call to [recv]. *)
Fixpoint recv_targets (chunks : list string) (tbuf : string) : option string :=
  match chunks with
  | [] => None
  | buf :: chunks' =>
      if decide (buf = "") then None
      else
        let tbuf' := tbuf +:+ buf in
        if ends_request tbuf' then Some tbuf' else recv_targets chunks' tbuf'
  end.

(** The loop that cuts the received text at each NUL: [cur] holds the
    characters of the name at [p] read so far, [acc] the names already
    handled.  The loop is left with [true] at an empty name and with
    [false] when [p] reaches [p_end]. *)
Fixpoint parse_targets (cur : string) (buf : string) (acc : list string)
  : list string * bool :=
  match buf with
  | EmptyString =>
      if decide (cur = "") then (acc, true) else ((acc ++ [cur])%list, false)
  | String c rest =>
      if ascii_eqb c NUL then
        if decide (cur = "") then (acc, true)
        else parse_targets "" rest (acc ++ [cur])%list
      else parse_targets (string_snoc cur c) rest acc
  end.

(** [deps[*i].insert(target)] for every target [i] of the job. *)
Definition add_dynamic_dep (job : list string) (deps : gmap string (gset string))
    (target : string) : gmap string (gset string) :=
  foldl (fun d i => insert_dep i target d) deps job.

(** [accept_client] on the connection [accept4] returns.  On each path to
    the label [error] the client pushed at the front is erased again. *)
Definition accept_client (conn : connection) : M unit :=
  if conn_fd conn <? 0 then ret tt
  else
    match conn_job_id conn with
    | None => ret tt
    | Some job_id =>
        let! st := get_state in
        match st_job_targets st !! job_id with
        | None => ret tt
        | Some job =>
            match recv_targets (conn_chunks conn) "" with
            | None => ret tt
            | Some tbuf =>
                let '(names, ok) := parse_targets "" tbuf [] in
                do! modify (fun st =>
                      set_deps (foldl (add_dynamic_dep job) (st_deps st) names) st) in
                if ok then
                  modify (fun st =>
                    set_clients
                      (mk_client (conn_fd conn) job_id names ∅ None :: st_clients st)
                      (set_waiting_jobs (st_waiting_jobs st + 1) st))
                else ret tt
            end
        end
    end.

(** ** The server loop *)

(** [bool res = WIFEXITED(status) && WEXITSTATUS(status) == 0] *)
Definition child_success (ws : wait_status) : bool :=
  WIFEXITED ws && (WEXITSTATUS ws =? 0).

(** The loop [while ((pid = waitpid(-1, &status, WNOHANG)) > 0)]. *)
Fixpoint reap (children : list (positive * wait_status)) : M unit :=
  match children with
  | [] => ret tt
  | (pid, ws) :: children' =>
      let res := child_success ws in
      let! st := get_state in
      match st_job_pids st !! pid with
      | None => stop Abort
      | Some job_id =>
          do! modify (fun st =>
                set_running_jobs (st_running_jobs st - 1)
                  (set_job_pids (delete pid (st_job_pids st)) st)) in
          do! complete_job job_id res in
          reap children'
      end
  end.

(** [server_loop]; [OutOfFuel] also when no event is left for [pselect] to
    return with. *)
Fixpoint server_loop (fuel : nat) : M unit :=
  match fuel with
  | O => stop OutOfFuel
  | S n =>
      do! update_clients n in
      let! st := get_state in
      if st_running_jobs st =? 0 then
        assert (bool_decide (st_clients st = []))
      else
        match st_events st with
        | [] => stop OutOfFuel
        | ev :: events =>
            do! modify (fun st => set_files (ev_files ev) (set_events events st)) in
            do! match ev_connection ev with
                | Some conn => accept_client conn
                | None => ret tt
                end in
            do! (if ev_sigchld ev then reap (ev_children ev) else ret tt) in
            server_loop n
        end
  end.

(** ** server_mode *)

Definition file_content (st : state) (name : string) : option string :=
  content <$> (st_files st !! name).

Definition load_dependencies_m : M unit :=
  let! st := get_state in
  let! d := stop (load_dependencies (file_content st ".remake") (st_deps st)) in
  modify (set_deps d).

Definition load_rules_m : M unit :=
  let! st := get_state in
  let! rd := stop (load_rules (file_content st "Remakefile") (st_rules st) (st_deps st)) in
  modify (fun st => set_deps rd.2 (set_rules rd.1 st)).

(** [create_server]: every failure on the way to a listening socket ends
    the process. *)
Definition create_server : M unit :=
  let! st := get_state in
  if st_can_listen st then ret tt else stop (Fatal "Failed to create server").

(** [clients.push_back(client_t()); clients.back().pending = p] *)
Definition push_seed_client (p : list string) : M unit :=
  modify (fun st =>
    set_clients (st_clients st ++ [set_pending p new_client]) st).

(** From the label [early_exit] on. *)
Definition early_exit : M unit :=
  do! modify (fun st => set_saved (Some (save_dependencies (st_deps st))) st) in
  let! st := get_state in
  stop (Exit (if st_build_failure st then 1 else 0)).

(** What [server_mode] does once the database and the rules are loaded and
    the socket listens. *)
Definition serve (fuel : nat) (targets : list string) : M unit :=
  let! ts := get_status_m "Remakefile" in
  let! failed_early :=
    if decide (status ts = Todo) then
      do! push_seed_client ["Remakefile"] in
      do! server_loop fuel in
      let! st := get_state in
      if st_build_failure st then ret true
      else
        do! modify (set_rules []) in
        do! load_rules_m in
        ret false
    else ret false in
  do! (if failed_early : bool then ret tt
       else do! push_seed_client targets in server_loop fuel) in
  early_exit.

Definition server_mode (fuel : nat) (targets : list string) : M unit :=
  do! load_dependencies_m in
  do! load_rules_m in
  do! create_server in
  serve fuel targets.

(** ** client_mode and main *)

(** What the client asks of the system, in order. *)
Inductive syscall : Type :=
| Sys_socket
| Sys_connect (name : string)
| Sys_send_int (n : Z)
| Sys_send (bytes : string)
| Sys_recv.

(** How the system answers the client: the descriptor [socket] returns,
    whether [connect] succeeds, how many calls to [send] transfer all their
    bytes before one does not, and the byte [recv] delivers if it delivers
    one. *)
Record client_world := mk_client_world {
  cw_socket : Z;
  cw_connect : bool;
  cw_sends : nat;
  cw_reply : option ascii
}.

(** The calls to [send] of [client_mode], one after the other: exit status
    1 at the first that fails, else the wait for the reply. *)
Fixpoint send_all (budget : nat) (msgs : list syscall) (reply : option ascii)
    (done : list syscall) : Z * list syscall :=
  match msgs with
  | [] =>
      match reply with
      | Some result =>
          (if ascii_eqb result NUL then 1 else 0, (done ++ [Sys_recv])%list)
      | None => (1, (done ++ [Sys_recv])%list)
      end
  | m :: msgs' =>
      match budget with
      | O => (1, (done ++ [m])%list)
      | S budget' => send_all budget' msgs' reply (done ++ [m])%list
      end
  end.

Section Main.

(** [atoi] of the C library and [sizeof(socket_addr.sun_path)] are not part
    of the source. *)
Variable atoi : string -> Z.
Variable sun_path_size : Z.

(** [client_mode]: the exit status and the calls made. *)
Definition client_mode (env_job_id : option string) (w : client_world)
    (socket_name : string) (targets : list string) : Z * list syscall :=
  match targets with
  | [] => (0, [])
  | _ :: _ =>
      if sun_path_size - 1 <=? slen socket_name then (1, [])
      else if cw_socket w <? 0 then (1, [Sys_socket])
      else if negb (cw_connect w) then (1, [Sys_socket; Sys_connect socket_name])
      else
        let job_id := match env_job_id with Some id => atoi id | None => -1 end in
        send_all (cw_sends w)
          (Sys_send_int job_id
             :: map (fun t => Sys_send (string_snoc t NUL)) targets
             ++ [Sys_send (String NUL "")])
          (cw_reply w) [Sys_socket; Sys_connect socket_name]
  end.

(** How the process ends. *)
Inductive run : Type :=
| Usage (exit_status : Z)
| Client (exit_status : Z) (calls : list syscall)
| Server (r : result unit) (st : state).

(** The loop of [main] over the arguments: [inl] when [usage] ends the
    process, else the job limit and the targets. *)
Fixpoint parse_args (args : list string) (max_active_jobs : Z)
    (targets : list string) : Z + Z * list string :=
  match args with
  | [] => inr (max_active_jobs, targets)
  | arg :: args' =>
      if decide (arg = "") then inl 1
      else if bool_decide (arg = "-h") || bool_decide (arg = "--help") then inl 0
      else if bool_decide (arg = "-d") then parse_args args' max_active_jobs targets
      else if compare_eq arg 0 2 "-j" 0 2 then
        parse_args args' (atoi (substr_from arg 2)) targets
      else if compare_eq arg 0 7 "--jobs=" 0 7 then
        parse_args args' (atoi (substr_from arg 7)) targets
      else if match arg with String c _ => ascii_eqb c "-" | _ => false end
      then inl 1
      else parse_args args' max_active_jobs (targets ++ [arg])
  end.

(** [main]: [args] are [argv[1]] and the following, [env_socket] and
    [env_job_id] what [getenv] returns for [REMAKE_SOCKET] and
    [REMAKE_JOB_ID]. *)
Definition main (fuel : nat) (args : list string)
    (env_socket env_job_id : option string) (w : client_world)
    (files : gmap string file) (forks : list (option positive))
    (events : list loop_event) (can_listen : bool) : run :=
  match parse_args args 1 [] with
  | inl exit_status => Usage exit_status
  | inr (max_active_jobs, targets) =>
      match env_socket with
      | Some sn =>
          let '(exit_status, calls) := client_mode env_job_id w sn targets in
          Client exit_status calls
      | None =>
          let st := initial_state files forks events can_listen in
          let st := mk_state (st_deps st) (st_status st) (st_rules st)
                      (st_job_targets st) (st_job_pids st) (st_clients st)
                      max_active_jobs (st_running_jobs st) (st_waiting_jobs st)
                      (st_job_counter st) (st_build_failure st) (st_files st)
                      (st_forks st) (st_events st) (st_can_listen st)
                      (st_sent st) (st_saved st) (st_trace st) in
          let '(r, st') := server_mode fuel targets st in
          Server r st'
      end
  end.

End Main.

(** ** The debugging log *)

Definition INT_MAX : Z := 2147483647.
Definition INT_MIN : Z := - 2147483648.

(** [struct log]; [depth] is an [int]. *)
Record log : Type := mk_log {
  active : bool;
  open : bool;
  depth : Z
}.

(** [log::log()] *)
Definition new_log : log := mk_log false false 0.

(** What a call on the log gives: the log and what [std::cerr] has
    received, a failed [assert], or an overflow of the [int] arithmetic on
    [depth], which C++ leaves undefined. *)
Inductive logged : Type :=
| Logged (l : log) (cerr : string)
| Log_abort
| Log_overflow.

Definition endl : string := String LF "".

(** [std::string(n, ' ')] *)
Fixpoint spaces (n : nat) : string :=
  match n with
  | O => ""
  | S n' => String SPACE (spaces n')
  end.

(** [std::string(depth * 2, ' ')], which the code reaches past
    [assert(depth >= 0)]; the product is taken on [int]. *)
Definition indent (depth : Z) : option string :=
  if INT_MAX <? depth * 2 then None
  else Some (spaces (Z.to_nat (depth * 2))).

(** [log::operator()()] *)
Definition log_plain (l : log) (cerr : string) : logged :=
  let cerr := if open l then cerr +:+ endl else cerr in
  if depth l <? 0 then Log_abort
  else
    match indent (depth l) with
    | None => Log_overflow
    | Some s => Logged (mk_log (active l) false (depth l)) (cerr +:+ s)
    end.

(** [log::operator()(bool o)] *)
Definition log_nest (o : bool) (l : log) (cerr : string) : logged :=
  let cerr := if o && open l then cerr +:+ endl else cerr in
  if negb o && (depth l =? INT_MIN) then Log_overflow
  else
    let d := if o then depth l else depth l - 1 in
    if d <? 0 then Log_abort
    else
      match (if o || negb (open l) then indent d else Some "") with
      | None => Log_overflow
      | Some s =>
          if o && (d =? INT_MAX) then Log_overflow
          else Logged (mk_log (active l) o (if o then d + 1 else d)) (cerr +:+ s)
      end.

(** [... << text] on the stream that a call on the log returns. *)
Definition write (text : string) (r : logged) : logged :=
  match r with
  | Logged l cerr => Logged l (cerr +:+ text)
  | _ => r
  end.

(** [DEBUG << text] *)
Definition DEBUG (text : string) (debug : log) (cerr : string) : logged :=
  if active debug then write text (log_plain debug cerr) else Logged debug cerr.

(** [DEBUG_open << text], which also declares [auto_close] with
    [still_open] set. *)
Definition DEBUG_open (text : string) (debug : log) (cerr : string) : logged :=
  if active debug then write text (log_nest true debug cerr)
  else Logged debug cerr.

(** [DEBUG_close << text], which also clears [auto_close.still_open]. *)
Definition DEBUG_close (text : string) (debug : log) (cerr : string) : logged :=
  if active debug then write text (log_nest false debug cerr)
  else Logged debug cerr.

(** [log_auto_close::~log_auto_close()] *)
Definition log_auto_close_end (still_open : bool) (debug : log)
    (cerr : string) : logged :=
  if active debug && still_open
  then write ("done" +:+ endl) (log_nest false debug cerr)
  else Logged debug cerr.

(** What a function does with the log, in the order of execution.
    [Ev_open] enters a block that starts with [DEBUG_open], [Ev_leave]
    leaves the innermost such block, by its end or by [return], [continue]
    or [goto]. *)
Inductive debug_event : Type :=
| Ev_debug (text : string)
| Ev_open (text : string)
| Ev_close (text : string)
| Ev_leave.

(** How a sequence of events ends: with the log, [std::cerr] and the
    [still_open] of the [auto_close] objects alive, the innermost first; by
    a failed [assert]; by an overflow; or [Ran_unscoped] for [DEBUG_close]
    or the end of a block where no [auto_close] is alive, which no program
    does. *)
Inductive ran : Type :=
| Ran (debug : log) (cerr : string) (autos : list bool)
| Ran_abort
| Ran_overflow
| Ran_unscoped.

Definition ran_of (autos : list bool) (r : logged) : ran :=
  match r with
  | Logged l cerr => Ran l cerr autos
  | Log_abort => Ran_abort
  | Log_overflow => Ran_overflow
  end.

Definition debug_step (ev : debug_event) (autos : list bool) (debug : log)
    (cerr : string) : ran :=
  match ev with
  | Ev_debug text => ran_of autos (DEBUG text debug cerr)
  | Ev_open text => ran_of (true :: autos) (DEBUG_open text debug cerr)
  | Ev_close text =>
      match autos with
      | _ :: autos' => ran_of (false :: autos') (DEBUG_close text debug cerr)
      | [] => Ran_unscoped
      end
  | Ev_leave =>
      match autos with
      | still_open :: autos' =>
          ran_of autos' (log_auto_close_end still_open debug cerr)
      | [] => Ran_unscoped
      end
  end.

Fixpoint debug_run (evs : list debug_event) (autos : list bool) (debug : log)
    (cerr : string) : ran :=
  match evs with
  | [] => Ran debug cerr autos
  | ev :: evs' =>
      match debug_step ev autos debug cerr with
      | Ran debug' cerr' autos' => debug_run evs' autos' debug' cerr'
      | r => r
      end
  end.

(** * Specifications *)

(** ** Words that survive the database *)

(** No character of [s] satisfies [p]. *)
Fixpoint string_forall (p : ascii -> bool) (s : string) : bool :=
  match s with
  | EmptyString => true
  | String a s' => p a && string_forall p s'
  end.

(** A name [escape_string] leaves bare and [read_word] reads whole: it is
    not empty and holds no delimiter of [read_word]. *)
Definition bare_word (s : string) : bool :=
  negb (bool_decide (s = "")) && string_forall (fun c => negb (strchr word_delims c)) s.

(** A name the database keeps: one that [escape_string] quotes, or a bare
    word. *)
Definition storable (s : string) : bool :=
  negb (count_special s =? 0)%nat || bare_word s.

(** ** What the rule matcher is to find *)

(** The pattern [j] reads [prefix % suffix], with the first [%] of [j], and
    [target] is [prefix], then the non-empty [stem], then [suffix]. *)
Definition pattern_matches (target j stem : string) : Prop :=
  exists prefix suffix,
    j = prefix +:+ String PERCENT suffix /\
    string_find PERCENT prefix = None /\
    target = prefix +:+ stem +:+ suffix /\
    stem <> "".

(** A generic rule one of whose target patterns matches with [stem]. *)
Definition rule_matches (target : string) (r : rule_t) (stem : string) : Prop :=
  generic r = true /\ exists j, j ∈ targets r /\ pattern_matches target j stem.

(** A non-generic rule that lists the target verbatim. *)
Definition rule_lists (target : string) (r : rule_t) : Prop :=
  generic r = false /\ target ∈ targets r.

(** The rule [r] with [stem] substituted into every target and every
    dependency. *)
Definition instantiate (r : rule_t) (stem : string) : rule_t :=
  mk_rule false (map (substitute1 stem) (targets r))
    (map (substitute1 stem) (deps r)) (script r).


(** A string of [n] times the character [c]. *)
Fixpoint string_repeat (c : ascii) (n : nat) : string :=
  match n with
  | O => EmptyString
  | S n' => String c (string_repeat c n')
  end.

(** The stem with which [j] matches [target], computed. *)
Definition pattern_stem (target j : string) : option string :=
  match string_find PERCENT j with
  | None => None
  | Some p =>
      let suffix := string_drop (S p) j in
      let T := String.length target in
      let S' := String.length suffix in
      if (p + 1 + S' <=? T)%nat
         && bool_decide (string_take p target = string_take p j)
         && bool_decide (string_drop (T - S') target = suffix)
      then Some (string_take (T - S' - p) (string_drop p target))
      else None
  end.

(** Rules for the examples: the two generic rules of the fifth scenario of
    the specification, a rule with two patterns that both match
    [foo.bar.o], and a rule whose pattern lies between them. *)
Definition rule_o : rule_t := mk_rule true ["%.o"] ["%.c"] "cc".
Definition rule_foo_o : rule_t := mk_rule true ["foo.%.o"] ["foo.%.c"] "cc foo".
Definition rule_ab : rule_t := mk_rule true ["a%b"] [] "touch".

(** ** What the status cache says of a dependency *)

(** The cache holds [d] as not up to date, or as younger than
    [st_mtime]. *)
Definition dep_obsolete (st : state) (st_mtime : Z) (d : string) : Prop :=
  exists td, st_status st !! d = Some td /\
    (status td <> Uptodate \/ st_mtime < last td).

(** The cache holds [d] as up to date and no younger than [st_mtime]. *)
Definition dep_fresh (st : state) (st_mtime : Z) (d : string) : Prop :=
  exists td, st_status st !! d = Some td /\
    status td = Uptodate /\ last td <= st_mtime.

(** [st'] is [st] but for the two maps [get_status] writes. *)
Definition only_cache (st st' : state) : Prop :=
  st' = set_deps (st_deps st') (set_status (st_status st') st).

(** The cache only gains entries. *)
Definition cache_grows (st st' : state) : Prop :=
  forall x v, st_status st !! x = Some v -> st_status st' !! x = Some v.

(** The dependency map only gains empty sets, at names the cache holds. *)
Definition deps_grow (st st' : state) : Prop :=
  forall x, st_deps st' !! x = st_deps st !! x \/
    (st_deps st !! x = None /\ st_deps st' !! x = Some ∅ /\
     is_Some (st_status st' !! x)).

Definition extends (st st' : state) : Prop :=
  only_cache st st' /\ cache_grows st st' /\ deps_grow st st'.

(** The names of the dependency map that the cache does not hold. *)
Definition uncached (st : state) : gset string :=
  dep_names (st_deps st) ∖ dom (st_status st).

(** ** What the rule loader leaves in the dependency map *)

(** The dependency map holds every static dependency of the non-generic
    rule [r] at every target of [r]. *)
Definition covered (dm : gmap string (gset string)) (r : rule_t) : Prop :=
  generic r = false ->
  forall t d, t ∈ targets r -> d ∈ deps r -> d ∈ deps_of dm t.


(** Every cached [Uptodate] is that of a file [stat] finds. *)
Definition cache_sound (st : state) : Prop :=
  forall x v, st_status st !! x = Some v -> status v = Uptodate ->
    is_Some (stat st x).

(** ** Reasoning on the monad *)

(** From a state where [P] holds, [m] returns [a] in a state where [Q a]
    holds, or stops in a state where [E] holds. *)
Definition hoare {A : Type} (P : state -> Prop) (m : M A)
    (Q : A -> state -> Prop) (E : state -> Prop) : Prop :=
  forall st, P st ->
    match m st with
    | (Ret a, st') => Q a st'
    | (_, st') => E st'
    end.

(** [m] keeps [I], however it ends. *)
Definition preserves {A : Type} (I : state -> Prop) (m : M A) : Prop :=
  hoare I m (fun _ => I) I.

(** ** The job slots *)

(** What [has_free_slots] reads, and the record of it. *)
Definition counters (st : state) : Z * Z * Z * list (Z * Z) :=
  (st_max_active_jobs st, st_running_jobs st, st_waiting_jobs st, st_trace st).

(** With a positive limit, the jobs that run and do not wait are no more
    than the limit. *)
Definition slots_ok (limit : Z) (p : Z * Z) : Prop :=
  0 < limit -> p.1 - p.2 <= limit.

(** The limit of the run is [limit]; it is kept now and was kept at every
    earlier value of the two counters. *)
Definition slots_inv (limit : Z) (st : state) : Prop :=
  st_max_active_jobs st = limit /\
  Forall (slots_ok limit)
    ((st_running_jobs st, st_waiting_jobs st) :: st_trace st).

Definition free_slots (st : state) : Prop := has_free_slots st = true.

(** ** Seed clients and the failure flag *)


(** ** Auxiliary predicates *)

(** What the argument of [check_deps] has to guarantee. *)
Definition rec_ok (rec : string -> state -> option (status_t * state)) : Prop :=
  forall k s ts s', rec k s = Some (ts, s') ->
    extends s s' /\ st_status s' !! k = Some ts.

Definition keeps_counters {A : Type} (m : M A) : Prop :=
  forall st, counters (m st).2 = counters st.

Definition on_counters (P : state -> Prop) : Prop :=
  forall st st', counters st' = counters st -> P st -> P st'.

(** ** A run for the examples *)

(** A rule file with two rules: the script of [a] asks the server for [b]. *)
Definition example_remakefile : string :=
  "a:" +:+ String LF (String TAB "remake b") +:+ String LF
    ("b:" +:+ String LF (String TAB "touch b") +:+ String LF "").

Definition example_files : gmap string file :=
  {[ "Remakefile" := mk_file 1 example_remakefile ]}.

(** The request of the script of [a], job 0, for [b]. *)
Definition example_request : connection :=
  mk_connection 5 (Some 0) [String "b" (String NUL (String NUL ""))].

(** The world of a run where both scripts succeed: the script of [a]
    connects, then the script of [b] ends, then the script of [a]. *)
Definition example_state : state :=
  initial_state example_files [Some 1%positive; Some 2%positive]
    [mk_event example_files (Some example_request) false [];
     mk_event (<["b" := mk_file 2 ""]> example_files) None true
       [(2%positive, Exited 0)];
     mk_event (<["a" := mk_file 3 ""]> (<["b" := mk_file 2 ""]> example_files))
       None true [(1%positive, Exited 0)]]
    true.




(** [m] does not end the process by [exit] with a computed code. *)
Definition no_exit {A : Type} (m : M A) : Prop :=
  forall st code, (m st).1 <> Exit code.


(** A state of the server loop with one job, whose script waits for the
    answer to its request for a target no rule makes. *)
Definition example_state_waiting : state :=
  set_clients [mk_client 5 0 ["zzz"] ∅ None]
    (set_waiting_jobs 1
       (set_running_jobs 1
          (set_job_counter 1
             (set_job_pids {[ 1%positive := 0 ]}
                (set_job_targets {[ 0 := ["a"] ]}
                   (initial_state ∅ [] [] true)))))).

(** ** The database of storable names *)

(** Every set of the map holds a name, and every name of the map is one the
    database keeps. *)
Definition storable_map (m : gmap string (gset string)) : Prop :=
  forall t ds, m !! t = Some ds ->
    ds <> ∅ /\ storable t = true /\ forall d, d ∈ ds -> storable d = true.

(** The dependencies of one record, as [save_dependencies] writes them. *)
Definition deps_text (l : list string) : string :=
  foldr (fun d out => escape_string d +:+ " " +:+ out) "" l.

(** The records of a list of entries, as [save_dependencies] writes them. *)
Definition records_text (l : list (string * gset string)) : string :=
  foldr (fun '(target, ds) out =>
           if decide (ds = ∅) then out else save_record target ds +:+ out)
        "" l.

(** What [load_dependencies] does with one record. *)
Definition load_record (dm : gmap string (gset string))
    (e : string * gset string) : gmap string (gset string) :=
  foldl (fun m d => insert_dep e.1 d m) dm (set_elements e.2).

(** The entries are the ones of a storable map. *)
Definition storable_entry (e : string * gset string) : Prop :=
  e.2 <> ∅ /\ storable e.1 = true /\ forall d, d ∈ e.2 -> storable d = true.

(** ** What the readers leave of a stream *)

(** No character of [s] is a delimiter of [read_word]. *)
Definition no_delim (s : string) : bool :=
  string_forall (fun c => negb (strchr word_delims c)) s.

(** The stream is at its end, or its next character satisfies [p]. *)
Definition next_is (p : ascii -> bool) (i : istream) : Prop :=
  match buffer i with
  | EmptyString => True
  | String c _ => p c = true
  end.

(** The dependency map [m'] holds all that [m] holds. *)
Definition deps_included (m m' : gmap string (gset string)) : Prop :=
  forall t d, d ∈ deps_of m t -> d ∈ deps_of m' t.

(** ** Rules as the rule file gives them *)

Definition has_percent (s : string) : bool :=
  bool_decide (is_Some (string_find PERCENT s)).

(** What holds of the rule being read: its targets all hold a percent sign
    when it is generic and none does when it is not, a rule without target
    is not generic, the dependencies of a rule that is not generic hold no
    percent sign, and no name is empty. *)
Definition rule_shape (r : rule_t) : Prop :=
  (forall t, t ∈ targets r -> has_percent t = generic r /\ t <> "") /\
  (targets r = [] -> generic r = false) /\
  (generic r = false -> forall d, d ∈ deps r -> has_percent d = false) /\
  (forall d, d ∈ deps r -> d <> "").

(** A rule of the rule file: it has a target, and the shape above. *)
Definition wf_rule (r : rule_t) : Prop := targets r <> [] /\ rule_shape r.

(** The invariant of the loop of [load_rules] for the shape of the rules
    and the growth of the dependency map. *)
Definition loader_wf (rules0 : list rule_t) (deps0 : gmap string (gset string))
    (l : loader) : Prop :=
  (exists new, ld_rules l = (rules0 ++ new)%list /\ Forall wf_rule new) /\
  rule_shape (ld_current l) /\
  (ld_state l = Bof <-> targets (ld_current l) = []) /\
  deps_included deps0 (ld_deps l).

(** ** What a function leaves alone *)

(** [m] does not change what [f] reads of the state, however it ends. *)
Definition keeps {A B : Type} (f : state -> B) (m : M A) : Prop :=
  forall st, f (m st).2 = f st.

(** One round of the loop of [start] over the targets of the rule. *)
Definition start_target (ds : list string) (st : state) (t : string) : state :=
  set_deps (<[t := list_to_set ds]> (st_deps st))
    (set_status (mark t Running (st_status st)) st).

(** The dependency client [start] makes for [rule] as job [job]. *)
Definition dependency_client (job : Z) (rule : rule_t) : client_t :=
  mk_client (-1) job (deps rule) ∅
    (Some (mk_rule (generic rule) (targets rule) [] (script rule))).

(** What the server loop does not write: the rules, the job limit, whether
    the socket listens, and the saved database. *)
Definition settings (st : state) : list rule_t * Z * bool * option string :=
  (st_rules st, st_max_active_jobs st, st_can_listen st, st_saved st).

(** Started with no database written, [m] ends with the database written
    from the dependency map it ends with when it ends by [exit] with a
    computed code, and with no database written when it ends otherwise. *)
Definition saves_at_exit {A : Type} (m : M A) : Prop :=
  forall st, st_saved st = None ->
    match m st with
    | (Exit _, st') => st_saved st' = Some (save_dependencies (st_deps st'))
    | (_, st') => st_saved st' = None
    end.

(** ** Requests *)

Definition nul_free (t : string) : bool :=
  string_forall (fun c => negb (ascii_eqb c NUL)) t.

(** A name a client can ask for: it is not empty and holds no NUL. *)
Definition target_name (t : string) : Prop := t <> "" /\ nul_free t = true.

(** The bytes of a request for the targets [ts]: each name and a NUL, and a
    NUL after the last. *)
Fixpoint request_text (ts : list string) : string :=
  match ts with
  | [] => String NUL ""
  | t :: ts' => t +:+ String NUL (request_text ts')
  end.

(** The bytes that the calls to [recv] deliver, one string per call. *)
Definition chunks_text (chunks : list string) : string :=
  foldr String.app "" chunks.

(** The bytes of the calls to [send] that carry text, in order. *)
Fixpoint sent_bytes (calls : list syscall) : string :=
  match calls with
  | [] => ""
  | Sys_send bytes :: calls' => bytes +:+ sent_bytes calls'
  | _ :: calls' => sent_bytes calls'
  end.

(** The argument is an option: it starts with a dash. *)
Definition is_option (arg : string) : bool :=
  match arg with
  | String c _ => ascii_eqb c "-"
  | EmptyString => false
  end.

(** ** Job numbers *)

(** What the job numbers depend on. *)
Definition job_ids (st : state) : gmap Z (list string) * Z :=
  (st_job_targets st, st_job_counter st).

(** The job counter has not gone below [c0], and every job of the job
    table has a number below the job counter. *)
Definition fresh_jobs (c0 : Z) (st : state) : Prop :=
  c0 <= st_job_counter st /\
  forall k, is_Some (st_job_targets st !! k) -> k < st_job_counter st.

(** ** Clients *)

(** The cache holds the target as up to date or remade. *)
Definition target_done (st : state) (p : string) : Prop :=
  exists v, st_status st !! p = Some v /\
            (status v = Uptodate \/ status v = Remade).

(** [g] changes at most the pending targets of a client. *)
Definition only_pending (g : client_t -> client_t) : Prop :=
  forall c, fd (g c) = fd c /\ job_id (g c) = job_id c /\
            running (g c) = running c /\ delayed (g c) = delayed c.

(** ** The debugging log *)

(** Calls on the log. *)
Inductive log_call : Type :=
| Call_plain
| Call_nest (o : bool).

Definition log_step (c : log_call) (l : log) (cerr : string) : logged :=
  match c with
  | Call_plain => log_plain l cerr
  | Call_nest o => log_nest o l cerr
  end.

Fixpoint log_run (cs : list log_call) (l : log) (cerr : string) : logged :=
  match cs with
  | [] => Logged l cerr
  | c :: cs' =>
      match log_step c l cerr with
      | Logged l' cerr' => log_run cs' l' cerr'
      | r => r
      end
  end.

(** What a call adds to the depth. *)
Definition call_depth (c : log_call) : Z :=
  match c with
  | Call_plain => 0
  | Call_nest true => 1
  | Call_nest false => -1
  end.

(** From the depth [d], no call of [cs] closes more than is open. *)
Fixpoint well_nested (d : Z) (cs : list log_call) : bool :=
  match cs with
  | [] => true
  | c :: cs' => (0 <=? d + call_depth c) && well_nested (d + call_depth c) cs'
  end.

Definition balance (cs : list log_call) : Z :=
  foldr (fun c n => call_depth c + n) 0 cs.

(** The events are those of blocks that are all left, none more often
    than it is entered, with [DEBUG_close] only inside a block and at most
    once each time the block is entered; [autos] holds, for the blocks
    entered and not left, whether [DEBUG_close] has not come yet. *)
Fixpoint scoped (autos : list bool) (evs : list debug_event) : bool :=
  match evs with
  | [] => bool_decide (autos = [])
  | Ev_debug _ :: evs' => scoped autos evs'
  | Ev_open _ :: evs' => scoped (true :: autos) evs'
  | Ev_close _ :: evs' =>
      match autos with
      | true :: autos' => scoped (false :: autos') evs'
      | _ => false
      end
  | Ev_leave :: evs' =>
      match autos with
      | _ :: autos' => scoped autos' evs'
      | [] => false
      end
  end.

(** The number of [auto_close] objects with [still_open] set. *)
Definition still_open_count (autos : list bool) : Z :=
  Z.of_nat (length (filter (fun b => b = true) autos)).

(** * Proofs *)

(** ** Strings *)

Lemma app_cons (a : ascii) (s t : string) : String a s +:+ t = String a (s +:+ t).
Proof. reflexivity. Qed.

Lemma app_nil_l (t : string) : "" +:+ t = t.
Proof. reflexivity. Qed.

Lemma app_empty_r (s : string) : s +:+ "" = s.
Proof. induction s as [|a s IH]; [done|]. by rewrite app_cons, IH. Qed.

Lemma app_assoc_s (s t u : string) : (s +:+ t) +:+ u = s +:+ (t +:+ u).
Proof. induction s as [|a s IH]; [done|]. by rewrite !app_cons, IH. Qed.

Lemma snoc_app (s : string) (c : ascii) (t : string) :
  string_snoc s c +:+ t = s +:+ String c t.
Proof. unfold string_snoc. by rewrite app_assoc_s, app_cons, app_nil_l. Qed.

Lemma ascii_eqb_eq (a b : ascii) : ascii_eqb a b = true <-> a = b.
Proof. unfold ascii_eqb. apply bool_decide_eq_true. Qed.

Lemma ascii_eqb_refl (a : ascii) : ascii_eqb a a = true.
Proof. by apply ascii_eqb_eq. Qed.

Lemma ascii_eqb_neq (a b : ascii) : ascii_eqb a b = false <-> a <> b.
Proof. unfold ascii_eqb. apply bool_decide_eq_false. Qed.

Lemma string_length_ind (P : string -> Prop) :
  (forall s, (forall t, (String.length t < String.length s)%nat -> P t) -> P s) ->
  forall s, P s.
Proof.
  intros H s.
  induction s as [s IH] using
    (well_founded_induction (Wf_nat.well_founded_ltof _ String.length)).
  apply H. intros t Ht. apply IH. exact Ht.
Qed.

(** ** escape_string and read_word *)

(** The result of the loop only grows the word read so far. *)
Lemma read_word_loop_acc (quoted : bool) (buf res : string) :
  read_word_loop quoted res buf =
  (res +:+ (read_word_loop quoted "" buf).1, (read_word_loop quoted "" buf).2).
Proof.
  revert res. induction buf as [buf IH] using string_length_ind.
  intros res. destruct buf as [|c rest]; cbn.
  { by rewrite app_empty_r. }
  assert (Hrest : forall r, read_word_loop quoted r rest =
            (r +:+ (read_word_loop quoted "" rest).1,
             (read_word_loop quoted "" rest).2)).
  { intros r. apply IH. cbn. lia. }
  destruct quoted.
  - destruct (ascii_eqb c BACKSLASH).
    + destruct rest as [|c2 rest2]; [done|].
      assert (Hrest2 : forall r, read_word_loop true r rest2 =
                (r +:+ (read_word_loop true "" rest2).1,
                 (read_word_loop true "" rest2).2)).
      { intros r. apply IH. cbn. lia. }
      rewrite (Hrest2 (string_snoc res c2)), (Hrest2 (string_snoc "" c2)).
      cbn. by rewrite snoc_app.
    + destruct (ascii_eqb c DQUOTE); cbn.
      * by rewrite app_empty_r.
      * rewrite (Hrest (string_snoc res c)), (Hrest (string_snoc "" c)).
        cbn. by rewrite snoc_app.
  - destruct (strchr word_delims c); cbn.
    + by rewrite app_empty_r.
    + rewrite (Hrest (string_snoc res c)), (Hrest (string_snoc "" c)).
      cbn. by rewrite snoc_app.
Qed.

Lemma count_special_0 (a : ascii) (s : string) :
  count_special (String a s) = 0%nat <->
  strchr special_chars a = false /\ count_special s = 0%nat.
Proof. cbn. destruct (strchr special_chars a); split; intros; try lia; naive_solver. Qed.

Lemma not_special (c : ascii) :
  strchr special_chars c = false ->
  ascii_eqb c BACKSLASH = false /\ ascii_eqb c DQUOTE = false.
Proof.
  unfold strchr, special_chars. cbn.
  destruct (ascii_eqb c NUL), (ascii_eqb c DQUOTE), (ascii_eqb c SPACE),
    (ascii_eqb c BACKSLASH); cbn; intros; try done.
Qed.

Lemma escape_string_eq (s : string) :
  escape_string s =
  if (count_special s =? 0)%nat then s
  else String DQUOTE (escape_chars s +:+ String DQUOTE "").
Proof.
  unfold escape_string.
  destruct (Nat.eqb_spec (String.length s + count_special s) (String.length s));
    destruct (Nat.eqb_spec (count_special s) 0); try done; lia.
Qed.

(** Inside the quotes every character of [s] comes back, whatever it is,
    and the closing quote ends the word. *)
Lemma read_quoted (s res rest : string) :
  read_word_loop true res (escape_chars s +:+ String DQUOTE rest) =
  (res +:+ s, mk_istream rest false false).
Proof.
  revert res. induction s as [|a s IH]; intros res.
  - cbn. by rewrite app_empty_r.
  - cbn [escape_chars]. destruct (strchr special_chars a) eqn:Ha.
    + rewrite !app_cons. cbn. rewrite IH. by rewrite snoc_app.
    + rewrite app_cons. cbn.
      destruct (not_special a Ha) as [-> ->]. rewrite IH. by rewrite snoc_app.
Qed.

(** Outside quotes the word goes on as long as no delimiter comes. *)
Lemma read_bare (s res rest : string) :
  string_forall (fun c => negb (strchr word_delims c)) s = true ->
  read_word_loop false res (s +:+ rest) = read_word_loop false (res +:+ s) rest.
Proof.
  revert res. induction s as [|a s IH]; intros res Hs.
  - by rewrite app_empty_r.
  - cbn in Hs. apply andb_true_iff in Hs as [Ha Hs].
    apply negb_true_iff in Ha. rewrite app_cons. cbn. rewrite Ha.
    rewrite (IH _ Hs). by rewrite snoc_app.
Qed.

Lemma read_word_escape (s rest : string) :
  storable s = true ->
  rest = "" \/ (exists d r, rest = String d r /\ strchr word_delims d = true) ->
  read_word (open_stream (escape_string s +:+ rest)) =
  (s, if (count_special s =? 0)%nat && bool_decide (rest = "")
      then at_eof else mk_istream rest false false).
Proof.
  intros Hs Hrest. rewrite escape_string_eq. unfold storable in Hs.
  destruct (Nat.eqb_spec (count_special s) 0) as [H0|H0].
  - cbn in Hs. unfold bare_word in Hs. apply andb_true_iff in Hs as [Hne Hall].
    apply negb_true_iff, bool_decide_eq_false in Hne.
    destruct s as [|c s]; [done|].
    apply count_special_0 in H0 as [Hc _].
    destruct (not_special c Hc) as [_ Hq].
    pose proof Hall as Hall'. cbn in Hall'.
    apply andb_true_iff in Hall' as [Hd Hall'].
    apply negb_true_iff in Hd.
    rewrite app_cons. unfold read_word, open_stream. cbn. rewrite Hd, Hq.
    rewrite (read_bare _ _ _ Hall'). cbn.
    destruct Hrest as [->|(d & r & -> & Hdel)]; cbn; [done|].
    by rewrite Hdel.
  - rewrite !app_cons, app_assoc_s, app_cons, app_nil_l.
    unfold read_word, open_stream. cbn.
    rewrite read_quoted. cbn. done.
Qed.

Lemma unescape_escape_storable (s : string) :
  storable s = true -> unescape (escape_string s) = s.
Proof.
  intros Hs. unfold unescape.
  rewrite <- (app_empty_r (escape_string s)).
  rewrite (read_word_escape s "" Hs); [done|by left].
Qed.

Lemma escape_string_unchanged (s : string) :
  string_forall (fun c => negb (strchr special_chars c)) s = true ->
  escape_string s = s.
Proof.
  intros Hs. rewrite escape_string_eq.
  assert (count_special s = 0%nat) as ->; [|done].
  induction s as [|a s IH]; [done|].
  cbn in Hs. apply andb_true_iff in Hs as [Ha Hs]. apply negb_true_iff in Ha.
  apply count_special_0. split; [done|by apply IH].
Qed.

(** C8, at the input that fails.  The name [a:b] holds none of the
    characters [escape_string] looks for, so it is written bare, and
    [read_word] stops at the colon: what is read back is [a].  A name that
    is one NUL character holds none of the five characters either, and yet
    it is quoted, because [strchr] finds NUL in every set. *)
Theorem escape_string_colon_read_back :
  escape_string "a:b" = "a:b" /\
  unescape (escape_string "a:b") = "a" /\
  unescape (escape_string "a:b") <> "a:b" /\
  escape_string (String NUL "") =
    String DQUOTE (String BACKSLASH (String NUL (String DQUOTE ""))).
Proof. repeat split; try reflexivity. intros H. discriminate H. Qed.

(** C7, at the input that fails.  The database of a rule file whose only
    rule has the quoted target [a:b] and the dependency [c] is saved as the
    line [a:b: c ], which loads as the target [a] with the dependency [b].
    An entry with an empty set is left out of the file. *)
Theorem save_load_colon :
  save_dependencies {["a:b" := {["c"]}]} = "a:b: c " +:+ String LF "" /\
  load_dependencies (Some (save_dependencies {["a:b" := {["c"]}]})) ∅ =
    Ret {["a" := {["b"]}]} /\
  ({["a" := {["b"]}]} : gmap string (gset string)) <> {["a:b" := {["c"]}]} /\
  save_dependencies {["a" := ∅]} = "".
Proof.
  split; [by vm_compute|]. split; [by vm_compute|]. split; [|by vm_compute].
  intros H. apply (f_equal (fun m => m !! "a")) in H.
  rewrite lookup_singleton_eq, lookup_singleton_ne in H; done.
Qed.

(** ** More on strings: lengths, prefixes and suffixes *)

Lemma length_app (s t : string) :
  String.length (s +:+ t) = (String.length s + String.length t)%nat.
Proof. induction s as [|a s IH]; [done|]. rewrite app_cons. cbn. by rewrite IH. Qed.

Lemma take_app_length (s t : string) : string_take (String.length s) (s +:+ t) = s.
Proof. induction s as [|a s IH]; [done|]. rewrite app_cons. cbn. by rewrite IH. Qed.

Lemma drop_app_length (s t : string) : string_drop (String.length s) (s +:+ t) = t.
Proof. induction s as [|a s IH]; [done|]. rewrite app_cons. cbn. by rewrite IH. Qed.

Lemma take_drop_s (n : nat) (s : string) : string_take n s +:+ string_drop n s = s.
Proof.
  revert s. induction n as [|n IH]; intros [|a s]; try done.
  cbn. by rewrite app_cons, IH.
Qed.

Lemma length_take (n : nat) (s : string) :
  String.length (string_take n s) = Nat.min n (String.length s).
Proof. revert s. induction n as [|n IH]; intros [|a s]; try done. cbn. by rewrite IH. Qed.

Lemma length_drop (n : nat) (s : string) :
  String.length (string_drop n s) = (String.length s - n)%nat.
Proof. revert s. induction n as [|n IH]; intros [|a s]; try done. cbn. by rewrite IH. Qed.

Lemma take_all (n : nat) (s : string) :
  (String.length s <= n)%nat -> string_take n s = s.
Proof.
  revert s. induction n as [|n IH]; intros [|a s] H; try done; cbn in *; [lia|].
  rewrite IH; [done|lia].
Qed.

Lemma drop_drop (n m : nat) (s : string) :
  string_drop n (string_drop m s) = string_drop (m + n) s.
Proof.
  revert s. induction m as [|m IH]; intros s; [done|].
  destruct s as [|a s]; cbn; [by destruct n|]. apply IH.
Qed.

Lemma app_eq_length (a b c d : string) :
  a +:+ b = c +:+ d -> String.length a = String.length c -> a = c /\ b = d.
Proof.
  revert c. induction a as [|x a IH]; intros [|y c] H Hl; try done.
  rewrite !app_cons in H. injection H as -> H. cbn in Hl.
  destruct (IH c H) as [-> ->]; [lia|done].
Qed.

Lemma length_0_empty (s : string) : String.length s = 0%nat -> s = "".
Proof. by destruct s. Qed.

(** [find] returns the position of the first occurrence. *)
Lemma string_find_Some (c : ascii) (s : string) (p : nat) :
  string_find c s = Some p ->
  s = string_take p s +:+ String c (string_drop (S p) s) /\
  string_find c (string_take p s) = None /\
  String.length (string_take p s) = p.
Proof.
  revert p. induction s as [|a s IH]; intros p H; [done|].
  cbn in H. destruct (ascii_eqb a c) eqn:Hac.
  - injection H as <-. apply ascii_eqb_eq in Hac as ->. done.
  - destruct (string_find c s) as [q|] eqn:Hq; [|done].
    injection H as <-. destruct (IH q eq_refl) as (H1 & H2 & H3).
    cbn [string_take string_drop string_find String.length].
    rewrite Hac, H2, H3, app_cons. cbn. split; [|done].
    f_equal. exact H1.
Qed.

Lemma string_find_app (c : ascii) (prefix suffix : string) :
  string_find c prefix = None ->
  string_find c (prefix +:+ String c suffix) = Some (String.length prefix).
Proof.
  induction prefix as [|a s IH]; intros H.
  - rewrite app_nil_l. cbn [string_find String.length].
    by rewrite ascii_eqb_refl.
  - cbn [string_find] in H. rewrite app_cons. cbn [string_find String.length].
    destruct (ascii_eqb a c); [done|].
    destruct (string_find c s); [done|]. by rewrite IH.
Qed.


(** ** find_rule *)

Lemma size_t_sub_small (a b : Z) : 0 <= a - b < 2 ^ 64 -> size_t_sub a b = a - b.
Proof. intros H. unfold size_t_sub. by apply Z.mod_small. Qed.

Lemma slen_app (s t : string) : slen (s +:+ t) = slen s + slen t.
Proof. unfold slen. rewrite length_app. lia. Qed.

Lemma slen_cons (a : ascii) (s : string) : slen (String a s) = 1 + slen s.
Proof. unfold slen. cbn [String.length]. lia. Qed.

Lemma slen_nonneg (s : string) : 0 <= slen s.
Proof. unfold slen. lia. Qed.

Lemma slen_pos (s : string) : s <> "" -> 1 <= slen s.
Proof. destruct s; [done|]. rewrite slen_cons. pose proof (slen_nonneg s). lia. Qed.

Lemma substr_nat (s : string) (p n : nat) :
  substr s (Z.of_nat p) (Z.of_nat n) = string_take n (string_drop p s).
Proof. unfold substr. by rewrite !Nat2Z.id. Qed.

Lemma substr_slen (s : string) (p n : string) :
  substr s (slen p) (slen n) =
  string_take (String.length n) (string_drop (String.length p) s).
Proof. apply substr_nat. Qed.

Lemma instantiate_eq (i : rule_t) (stem : string) :
  mk_rule false (substitute_pattern stem (targets i) [])
    (substitute_pattern stem (deps i) []) (script i) = instantiate i stem.
Proof. reflexivity. Qed.

(** A pattern that matches with a stem shorter than [plen] is taken. *)
Lemma scan_match (target : string) (i : rule_t) (plen : Z) (j : string)
    (js : list string) (stem : string) :
  generic i = true -> slen target < 2 ^ 64 ->
  pattern_matches target j stem -> slen stem < plen ->
  scan_targets target i plen (j :: js) = Break (slen stem) (instantiate i stem).
Proof.
  intros Hgen Hlen (prefix & suffix & -> & Hfind & -> & Hne) Hplen.
  cbn [scan_targets]. rewrite Hgen. cbn [negb].
  pose proof (slen_nonneg prefix). pose proof (slen_nonneg suffix).
  pose proof (slen_pos stem Hne).
  rewrite !slen_app, slen_cons in *.
  assert (E1 : size_t_sub (slen prefix + (1 + slen suffix)) 1 =
               slen prefix + slen suffix).
  { rewrite size_t_sub_small; lia. }
  assert (E2 : size_t_sub (slen prefix + (slen stem + slen suffix))
                 (slen prefix + slen suffix) = slen stem).
  { rewrite size_t_sub_small; lia. }
  rewrite E1, E2.
  destruct (Z.ltb_spec (slen prefix + (slen stem + slen suffix))
              (slen prefix + (1 + slen suffix))); [lia|].
  destruct (Z.leb_spec plen (slen stem)); [lia|].
  rewrite (string_find_app _ _ _ Hfind).
  change (Z.of_nat (String.length prefix)) with (slen prefix).
  assert (E3 : size_t_sub (slen prefix + (1 + slen suffix)) (slen prefix + 1) =
               slen suffix).
  { rewrite size_t_sub_small; lia. }
  assert (E4 : size_t_sub (slen prefix + (slen stem + slen suffix)) (slen suffix) =
               slen (prefix +:+ stem)).
  { rewrite slen_app, size_t_sub_small; lia. }
  rewrite E3, E4.
  assert (C1 : compare_eq (prefix +:+ String PERCENT suffix) 0 (slen prefix)
                 (prefix +:+ stem +:+ suffix) 0 (slen prefix) = true).
  { unfold compare_eq. apply bool_decide_eq_true.
    change 0 with (slen ""). rewrite !substr_slen. cbn [String.length string_drop].
    by rewrite !take_app_length. }
  assert (C2 : compare_eq (prefix +:+ String PERCENT suffix) (slen prefix + 1)
                 (slen suffix) (prefix +:+ stem +:+ suffix)
                 (slen (prefix +:+ stem)) (slen suffix) = true).
  { unfold compare_eq. apply bool_decide_eq_true.
    replace (slen prefix + 1) with (slen (prefix +:+ String PERCENT ""))
      by (rewrite slen_app, slen_cons; unfold slen; cbn; lia).
    rewrite !substr_slen.
    rewrite <- (app_assoc_s prefix stem suffix), drop_app_length.
    replace (prefix +:+ String PERCENT suffix)
      with ((prefix +:+ String PERCENT "") +:+ suffix)
      by (by rewrite app_assoc_s, app_cons, app_nil_l).
    rewrite drop_app_length. done. }
  rewrite C1, C2. cbn [negb orb].
  rewrite substr_slen, drop_app_length, take_app_length.
  by rewrite instantiate_eq.
Qed.

(** A pattern that does not match with a stem shorter than [plen] is
    passed over. *)
Lemma scan_skip (target : string) (i : rule_t) (plen : Z) (j : string)
    (js : list string) :
  generic i = true -> slen target < 2 ^ 64 ->
  (forall stem, pattern_matches target j stem -> plen <= slen stem) ->
  scan_targets target i plen (j :: js) = scan_targets target i plen js.
Proof.
  intros Hgen Hlen Hno. cbn [scan_targets]. rewrite Hgen. cbn [negb].
  destruct (Z.ltb_spec (slen target) (slen j)) as [|Hle]; [done|].
  destruct (Z.leb_spec plen (size_t_sub (slen target) (size_t_sub (slen j) 1)))
    as [|Hplen]; [done|].
  destruct (string_find PERCENT j) as [p|] eqn:Hf; [|done].
  destruct (compare_eq j 0 (Z.of_nat p) target 0 (Z.of_nat p)) eqn:C1; [|done].
  destruct (compare_eq j (Z.of_nat p + 1) _ target _ _) eqn:C2; [|done].
  exfalso.
  destruct (string_find_Some _ _ _ Hf) as (Hj & Hpre & Hlenp).
  set (prefix := string_take p j) in *.
  set (suffix := string_drop (S p) j) in *.
  assert (HL : String.length j = (p + 1 + String.length suffix)%nat).
  { rewrite Hj at 1. rewrite length_app, Hlenp. cbn [String.length]. lia. }
  unfold slen in *.
  set (T := String.length target) in *.
  assert (E1 : size_t_sub (Z.of_nat (String.length j)) 1 =
               Z.of_nat (p + String.length suffix)).
  { rewrite size_t_sub_small; lia. }
  assert (E2 : size_t_sub (Z.of_nat T) (Z.of_nat (p + String.length suffix)) =
               Z.of_nat (T - String.length suffix - p)).
  { rewrite size_t_sub_small; lia. }
  assert (E3 : size_t_sub (Z.of_nat (String.length j)) (Z.of_nat p + 1) =
               Z.of_nat (String.length suffix)).
  { rewrite size_t_sub_small; lia. }
  assert (E4 : size_t_sub (Z.of_nat T) (Z.of_nat (String.length suffix)) =
               Z.of_nat (T - String.length suffix)).
  { rewrite size_t_sub_small; lia. }
  rewrite E1, E2 in Hplen. rewrite E3, E4 in C2.
  unfold compare_eq in C1, C2.
  apply bool_decide_eq_true in C1. apply bool_decide_eq_true in C2.
  change 0 with (Z.of_nat 0) in C1. rewrite !substr_nat in C1.
  cbn [string_drop] in C1. fold prefix in C1.
  replace (Z.of_nat p + 1) with (Z.of_nat (S p)) in C2 by lia.
  rewrite !substr_nat in C2. fold suffix in C2.
  rewrite (take_all _ suffix) in C2 by lia.
  rewrite take_all in C2 by (rewrite length_drop; fold T; lia).
  set (stem := string_take (T - String.length suffix - p) (string_drop p target)).
  assert (Hstem : String.length stem = (T - String.length suffix - p)%nat).
  { unfold stem. rewrite length_take, length_drop. fold T. lia. }
  apply (Z.lt_irrefl plen). eapply Z.le_lt_trans; [|exact Hplen].
  rewrite <- Hstem. apply (Hno stem).
  exists prefix, suffix. split; [exact Hj|]. split; [exact Hpre|]. split.
  - rewrite <- (take_drop_s p target) at 1. rewrite <- C1. f_equal.
    rewrite <- (take_drop_s (T - String.length suffix - p) (string_drop p target)) at 1.
    fold stem. f_equal. rewrite drop_drop.
    etrans; [|symmetry; exact C2]. f_equal. lia.
  - intros Hs. rewrite Hs in Hstem. cbn [String.length] in Hstem.
    clearbody T suffix. lia.
Qed.

Lemma pattern_stem_spec (target j stem : string) :
  pattern_stem target j = Some stem <-> pattern_matches target j stem.
Proof.
  unfold pattern_stem. split.
  - destruct (string_find PERCENT j) as [p|] eqn:Hf; [|done].
    destruct (string_find_Some _ _ _ Hf) as (Hj & Hpre & Hlenp).
    remember (string_drop (S p) j) as suffix eqn:Hsuf.
    remember (string_take p j) as prefix eqn:Hpref.
    destruct (Nat.leb_spec (p + 1 + String.length suffix)
                (String.length target)) as [Hle|]; [|done].
    cbn [andb]. case_bool_decide as C1; [|done]. case_bool_decide as C2; [|done].
    cbn [andb]. intros [= <-].
    exists prefix, suffix.
    split; [exact Hj|]. split; [exact Hpre|]. split.
    + rewrite <- (take_drop_s p target) at 1. rewrite <- C1. f_equal.
      rewrite <- (take_drop_s (String.length target - String.length suffix - p)
                    (string_drop p target)) at 1.
      f_equal. rewrite drop_drop. etrans; [|exact C2]. f_equal. lia.
    + intros Hs. apply (f_equal String.length) in Hs.
      rewrite length_take, length_drop in Hs. cbn [String.length] in Hs. lia.
  - intros (prefix & suffix & -> & Hfind & -> & Hne).
    rewrite (string_find_app _ _ _ Hfind).
    replace (prefix +:+ String PERCENT suffix)
      with ((prefix +:+ String PERCENT "") +:+ suffix)
      by (by rewrite app_assoc_s, app_cons, app_nil_l).
    replace (S (String.length prefix))
      with (String.length (prefix +:+ String PERCENT ""))
      by (rewrite length_app; cbn; lia).
    rewrite drop_app_length.
    assert (1 <= String.length stem)%nat.
    { destruct stem; [done|cbn; lia]. }
    rewrite !length_app.
    destruct (Nat.leb_spec (String.length prefix + 1 + String.length suffix)
                (String.length prefix + (String.length stem + String.length suffix)));
      [|lia].
    rewrite app_assoc_s, !take_app_length.
    rewrite bool_decide_eq_true_2 by done.
    replace (String.length prefix + (String.length stem + String.length suffix)
             - String.length suffix)%nat
      with (String.length (prefix +:+ stem)) by (rewrite length_app; lia).
    rewrite <- (app_assoc_s prefix stem suffix), drop_app_length.
    rewrite bool_decide_eq_true_2 by done. cbn [andb].
    rewrite app_assoc_s, drop_app_length. f_equal.
    replace (String.length (prefix +:+ stem) - String.length prefix)%nat
      with (String.length stem) by (rewrite length_app; lia).
    apply take_app_length.
Qed.

Lemma pattern_matches_fun (target j s1 s2 : string) :
  pattern_matches target j s1 -> pattern_matches target j s2 -> s1 = s2.
Proof. rewrite <- !pattern_stem_spec. congruence. Qed.

(** One round of the inner loop of [find_rule] on a generic rule. *)
Lemma scan_step (target : string) (i : rule_t) (plen : Z) (j : string)
    (js : list string) :
  generic i = true -> slen target < 2 ^ 64 ->
  scan_targets target i plen (j :: js) =
  match pattern_stem target j with
  | Some stem =>
      if slen stem <? plen then Break (slen stem) (instantiate i stem)
      else scan_targets target i plen js
  | None => scan_targets target i plen js
  end.
Proof.
  intros Hgen Hlen. destruct (pattern_stem target j) as [stem|] eqn:Hs.
  - apply pattern_stem_spec in Hs.
    destruct (Z.ltb_spec (slen stem) plen).
    + by apply scan_match.
    + apply scan_skip; [done..|]. intros stem' Hs'.
      by rewrite (pattern_matches_fun _ _ _ _ Hs' Hs).
  - apply scan_skip; [done..|]. intros stem' Hs'.
    apply pattern_stem_spec in Hs'. congruence.
Qed.

(** The inner loop on a generic rule takes the first pattern that matches
    with a stem shorter than [plen], if there is one. *)
Lemma scan_generic_cases (target : string) (i : rule_t) (plen : Z)
    (js : list string) :
  generic i = true -> slen target < 2 ^ 64 ->
  (scan_targets target i plen js = Next /\
   forall j s, j ∈ js -> pattern_matches target j s -> plen <= slen s) \/
  (exists j s, j ∈ js /\ pattern_matches target j s /\ slen s < plen /\
     scan_targets target i plen js = Break (slen s) (instantiate i s)).
Proof.
  intros Hgen Hlen. induction js as [|j js IH].
  - left. split; [done|]. intros j s Hj. by apply elem_of_nil in Hj.
  - rewrite scan_step by done.
    destruct (pattern_stem target j) as [stem|] eqn:Hs.
    + pose proof Hs as Hm. apply pattern_stem_spec in Hm.
      destruct (Z.ltb_spec (slen stem) plen) as [Hlt|Hge].
      * right. exists j, stem. split; [by left|done].
      * destruct IH as [[E H]|(j' & s & Hj' & H1 & H2 & E)].
        -- left. split; [done|]. intros j' s [->|Hj']%elem_of_cons Hm'.
           ++ by rewrite (pattern_matches_fun _ _ _ _ Hm' Hm).
           ++ by apply (H j').
        -- right. exists j', s. split; [by right|done].
    + destruct IH as [[E H]|(j' & s & Hj' & H1 & H2 & E)].
      * left. split; [done|]. intros j' s [->|Hj']%elem_of_cons Hm'.
        -- apply pattern_stem_spec in Hm'. congruence.
        -- by apply (H j').
      * right. exists j', s. split; [by right|done].
Qed.

Lemma scan_nongeneric (target : string) (i : rule_t) (plen : Z)
    (js : list string) :
  generic i = false ->
  scan_targets target i plen js =
  if decide (target ∈ js) then Return_rule i else Next.
Proof.
  intros Hgen. induction js as [|j js IH].
  - cbn. case_decide as H; [by apply elem_of_nil in H|done].
  - cbn [scan_targets]. rewrite Hgen. cbn [negb].
    destruct (decide (j = target)) as [->|Hne].
    + rewrite decide_True; [done|by left].
    + rewrite IH. destruct (decide (target ∈ js)) as [Hin|Hin].
      * rewrite decide_True; [done|by right].
      * rewrite decide_False; [done|].
        intros [?|?]%elem_of_cons; [congruence|done].
Qed.




(** Rules that match with no stem shorter than [plen] leave [rule] as it
    is. *)
Lemma find_rule_loop_none (target : string) (rules : list rule_t) (plen : Z)
    (rule : rule_t) :
  slen target < 2 ^ 64 ->
  (forall r, r ∈ rules -> ~ rule_lists target r) ->
  (forall r s, r ∈ rules -> rule_matches target r s -> plen <= slen s) ->
  find_rule_loop target plen rule rules = rule.
Proof.
  intros Hlen. induction rules as [|r rules IH]; intros Hno Hge; [done|].
  cbn [find_rule_loop].
  assert (IH' : find_rule_loop target plen rule rules = rule).
  { apply IH; intros; [apply Hno|eapply Hge]; try by right. done. }
  destruct (generic r) eqn:Hgen.
  - destruct (scan_generic_cases target r plen (targets r) Hgen Hlen)
      as [[-> _]|(j & s & Hj & Hm & Hlt & _)]; [done|].
    assert (plen <= slen s); [|lia].
    apply (Hge r); [by left|]. split; [done|]. by exists j.
  - rewrite scan_nongeneric by done. case_decide as Hin; [|done].
    destruct (Hno r); [by left|by split].
Qed.


Lemma substitute1_pattern (prefix suffix stem : string) :
  string_find PERCENT prefix = None ->
  substitute1 stem (prefix +:+ String PERCENT suffix) = prefix +:+ stem +:+ suffix.
Proof.
  intros Hfind. unfold substitute1. rewrite (string_find_app _ _ _ Hfind).
  change 0 with (Z.of_nat 0). rewrite substr_nat. cbn [string_drop].
  rewrite take_app_length. f_equal. f_equal. unfold substr_from.
  replace (Z.to_nat (Z.of_nat (String.length prefix) + 1))
    with (String.length (prefix +:+ String PERCENT ""))
    by (rewrite length_app; cbn; lia).
  replace (prefix +:+ String PERCENT suffix)
    with ((prefix +:+ String PERCENT "") +:+ suffix)
    by (by rewrite app_assoc_s, app_cons, app_nil_l).
  apply drop_app_length.
Qed.




Lemma rule_o_matches : rule_matches "foo.bar.o" rule_o "foo.bar".
Proof.
  split; [done|]. exists "%.o". split; [by left|]. by exists "", ".o".
Qed.



(** The bound 10000 on the stem, which [find_rule_spec] leaves aside: the
    pattern [%] matches a target of 10000 characters and is not taken. *)
Lemma find_rule_stem_10000 :
  find_rule [mk_rule true ["%"] [] "any"] (string_repeat "a" (Z.to_nat 10000))
  = empty_rule.
Proof. by vm_compute. Qed.

(** C3, amended.  The pattern [prefix % suffix] is taken for the target
    [prefix stem suffix] whenever the stem has one character at least (and
    fewer than 10000): the rule comes back with the stem substituted.  With
    the empty stem the pattern is not taken. *)
Theorem find_rule_single_pattern (prefix suffix stem : string)
    (ds : list string) (scr : string) :
  string_find PERCENT prefix = None ->
  slen stem < 10000 ->
  slen (prefix +:+ stem +:+ suffix) < 2 ^ 64 ->
  find_rule [mk_rule true [prefix +:+ String PERCENT suffix] ds scr]
    (prefix +:+ stem +:+ suffix) =
  if decide (stem = "") then empty_rule
  else mk_rule false [prefix +:+ stem +:+ suffix] (map (substitute1 stem) ds) scr.
Proof.
  intros Hfind Hstem Hlen. unfold find_rule. cbn [find_rule_loop targets].
  rewrite scan_step by done.
  destruct (decide (stem = "")) as [->|Hne].
  - destruct (pattern_stem _ _) as [s|] eqn:Hs; [|done].
    apply pattern_stem_spec in Hs as (p' & s' & Hj & Hp' & Ht & Hs).
    exfalso. apply Hs.
    assert (Hf := string_find_app PERCENT _ s' Hp'). rewrite <- Hj in Hf.
    rewrite (string_find_app _ _ _ Hfind) in Hf. injection Hf as Hf.
    apply (f_equal String.length) in Hj, Ht.
    rewrite !length_app in Hj. rewrite !length_app in Ht.
    cbn [String.length] in Hj, Ht. apply length_0_empty. lia.
  - assert (Hm : pattern_matches (prefix +:+ stem +:+ suffix)
                   (prefix +:+ String PERCENT suffix) stem).
    { by exists prefix, suffix. }
    apply pattern_stem_spec in Hm. rewrite Hm.
    destruct (Z.ltb_spec (slen stem) 10000); [|lia].
    unfold instantiate. cbn [targets deps script map].
    by rewrite substitute1_pattern.
Qed.

Lemma find_rule_single_pattern_witness :
  string_find PERCENT "lib" = None /\ slen "foo" < 10000 /\
  slen ("lib" +:+ "foo" +:+ ".a") < 2 ^ 64 /\
  find_rule [mk_rule true ["lib%.a"] ["%.o"] "ar"] "libfoo.a" =
  mk_rule false ["libfoo.a"] ["foo.o"] "ar".
Proof.
  split; [reflexivity|]. split; [reflexivity|]. split; [reflexivity|].
  exact (find_rule_single_pattern "lib" ".a" "foo" ["%.o"] "ar"
           eq_refl eq_refl eq_refl).
Defined.

(** C3 as stated fails: the target [ab] begins with [a], ends with [b] and
    is as long as the two together, and the pattern [a%b] is not taken. *)
Lemma find_rule_empty_stem :
  "ab" = "a" +:+ "" +:+ "b" /\
  slen "a" + slen "b" <= slen "ab" /\
  find_rule [rule_ab] "ab" = empty_rule.
Proof. split; [reflexivity|]. split; [by vm_compute|]. reflexivity. Qed.


(** ** get_status *)

Lemma extends_refl (st : state) : extends st st.
Proof.
  split; [|split].
  - unfold only_cache. by destruct st.
  - by intros x v.
  - intros x. by left.
Qed.

Lemma set_cache_twice (a : gmap string (gset string)) (b : gmap string status_t)
    (c : gmap string (gset string)) (d : gmap string status_t) (s : state) :
  set_deps a (set_status b (set_deps c (set_status d s))) =
  set_deps a (set_status b s).
Proof. reflexivity. Qed.

Lemma only_cache_trans (s1 s2 s3 : state) :
  only_cache s1 s2 -> only_cache s2 s3 -> only_cache s1 s3.
Proof.
  unfold only_cache. intros H1 H2.
  assert (H : forall a b, set_deps a (set_status b s2) = set_deps a (set_status b s1)).
  { intros a b. rewrite H1. apply set_cache_twice. }
  rewrite <- H. exact H2.
Qed.

Lemma extends_trans (s1 s2 s3 : state) :
  extends s1 s2 -> extends s2 s3 -> extends s1 s3.
Proof.
  intros (F1 & C1 & D1) (F2 & C2 & D2). split; [|split].
  - by eapply only_cache_trans.
  - intros x v H. by apply C2, C1.
  - intros x. destruct (D2 x) as [E2|(N2 & E2 & I2)];
      destruct (D1 x) as [E1|(N1 & E1 & I1)].
    + left. congruence.
    + right. split; [done|]. split; [congruence|].
      destruct I1 as [v Hv]. exists v. by apply C2.
    + right. split; [congruence|done].
    + congruence.
Qed.

Lemma deps_grow_deps_of (st st' : state) (x : string) :
  deps_grow st st' -> deps_of (st_deps st') x = deps_of (st_deps st) x.
Proof.
  intros D. unfold deps_of. destruct (D x) as [->|(-> & -> & _)]; done.
Qed.

Lemma set_elements_elem (s : gset string) (x : string) :
  x ∈ set_elements s <-> x ∈ s.
Proof.
  unfold set_elements. rewrite merge_sort_Permutation. apply elem_of_elements.
Qed.

Lemma only_cache_files (st st' : state) :
  only_cache st st' -> st_files st' = st_files st.
Proof. intros ->. done. Qed.

Lemma check_deps_spec (rec : string -> state -> option (status_t * state))
    (m : Z) (ks : list string) (st : state) (b : bool) (st' : state) :
  rec_ok rec ->
  check_deps rec m ks st = Some (b, st') ->
  extends st st' /\
  if b then forall k, k ∈ ks -> dep_fresh st' m k
  else exists k, k ∈ ks /\ dep_obsolete st' m k.
Proof.
  intros Hrec. revert st. induction ks as [|k ks IH]; intros st H.
  - injection H as <- <-. split; [apply extends_refl|].
    intros k Hk. by apply elem_of_nil in Hk.
  - cbn [check_deps] in H. destruct (rec k st) as [[ts s1]|] eqn:Hk; [|done].
    destruct (Hrec _ _ _ _ Hk) as [E1 Hts].
    destruct (negb (bool_decide (status ts = Uptodate)) || (m <? last ts)) eqn:Hbad.
    + injection H as <- <-. split; [done|]. exists k. split; [by left|].
      exists ts. split; [done|]. apply orb_true_iff in Hbad as [Hb|Hb].
      * left. by apply negb_true_iff, bool_decide_eq_false in Hb.
      * right. by apply Z.ltb_lt.
    + destruct (IH s1 H) as [E2 Hb]. split; [by eapply extends_trans|].
      apply orb_false_iff in Hbad as [Hb1 Hb2].
      apply negb_false_iff, bool_decide_eq_true in Hb1. apply Z.ltb_ge in Hb2.
      destruct b.
      * intros k' [->|Hk']%elem_of_cons; [|by apply Hb].
        exists ts. split; [|done]. destruct E2 as (_ & C & _). by apply C.
      * destruct Hb as (k' & Hk' & Hbad). exists k'. split; [by right|done].
Qed.

Lemma obsolete_spec (target : string) (st : state) :
  st_status st !! target = Some (mk_status Uptodate 0) ->
  obsolete target st =
  (mk_status Todo 0, set_status (<[target := mk_status Todo 0]> (st_status st)) st).
Proof.
  intros H. unfold obsolete, mark. rewrite H. cbn. by rewrite lookup_insert_eq.
Qed.

Lemma extends_set_status (st : state) (target : string) (v : status_t) :
  st_status st !! target = None ->
  extends st (set_status (<[target := v]> (st_status st)) st).
Proof.
  intros Hn. split; [|split].
  - unfold only_cache. by destruct st.
  - intros x w Hx. cbn. rewrite lookup_insert_ne; [done|congruence].
  - intros x. by left.
Qed.

Lemma extends_touch (st : state) (target : string) :
  is_Some (st_status st !! target) ->
  extends st (set_deps (touch_deps target (st_deps st)) st).
Proof.
  intros Hc. split; [|split].
  - unfold only_cache. by destruct st.
  - by intros x w Hx.
  - intros x. cbn. unfold touch_deps.
    destruct (st_deps st !! target) eqn:Ht; [by left|].
    destruct (decide (x = target)) as [->|Hne].
    + right. by rewrite lookup_insert_eq.
    + left. by rewrite lookup_insert_ne.
Qed.

(** Overwriting the entry of [target] keeps everything [extends] asks for
    from a state in which [target] was not cached. *)
Lemma extends_overwrite (st st3 : state) (target : string) (v : status_t) :
  st_status st !! target = None ->
  extends st st3 ->
  extends st (set_status (<[target := v]> (st_status st3)) st3).
Proof.
  intros Hn (F & C & D). split; [|split].
  - unfold only_cache in *. rewrite F. by destruct st.
  - intros x w Hx. cbn. rewrite lookup_insert_ne; [by apply C|congruence].
  - intros x. cbn. destruct (D x) as [E|(N & E & [w I])]; [by left|].
    right. split; [done|]. split; [done|].
    destruct (decide (target = x)) as [->|Hne].
    + rewrite lookup_insert_eq. by eexists.
    + rewrite lookup_insert_ne by done. by eexists.
Qed.

(** The result of [get_status], for every bound on the recursion that is
    not reached. *)
Lemma get_status_fuel_spec (n : nat) (target : string) (st : state)
    (ts : status_t) (st' : state) :
  get_status_fuel n target st = Some (ts, st') ->
  (extends st st' /\ st_status st' !! target = Some ts) /\
  match st_status st !! target with
  | Some v => ts = v /\ st' = st
  | None =>
      match stat st target with
      | None => ts = mk_status Todo 0
      | Some s =>
          (ts = mk_status Todo 0 /\
           exists d, d ∈ deps_of (st_deps st) target /\ dep_obsolete st' (mtime s) d) \/
          (ts = mk_status Uptodate (mtime s) /\
           forall d, d ∈ deps_of (st_deps st) target -> dep_fresh st' (mtime s) d)
      end
  end.
Proof.
  revert target st ts st'. induction n as [|n IH]; intros target st ts st' H; [done|].
  cbn [get_status_fuel] in H.
  destruct (st_status st !! target) as [v|] eqn:Hc.
  { injection H as <- <-. split; [split; [apply extends_refl|done]|done]. }
  set (st1 := set_status (<[target := mk_status Uptodate 0]> (st_status st)) st) in *.
  assert (E1 : extends st st1) by (by apply extends_set_status).
  assert (H1 : st_status st1 !! target = Some (mk_status Uptodate 0)).
  { cbn. by rewrite lookup_insert_eq. }
  change (stat st1 target) with (stat st target) in H.
  destruct (stat st target) as [s|] eqn:Hstat.
  2:{ rewrite (obsolete_spec _ _ H1) in H. injection H as <- <-.
      split; [split|done].
      - by apply extends_overwrite.
      - cbn. by rewrite lookup_insert_eq. }
  set (st2 := set_deps (touch_deps target (st_deps st1)) st1) in *.
  assert (E2 : extends st1 st2) by (apply extends_touch; by eexists).
  assert (E02 : extends st st2) by (by eapply extends_trans).
  destruct (check_deps _ _ _ _) as [[b st3]|] eqn:Hck; [|done].
  assert (Hrec : rec_ok (get_status_fuel n)).
  { intros k s0 t0 s0' Hk. by apply (IH _ _ _ _ Hk). }
  destruct (check_deps_spec _ _ _ _ _ _ Hrec Hck) as [E3 Hb].
  assert (E03 : extends st st3) by (by eapply extends_trans).
  assert (H3 : st_status st3 !! target = Some (mk_status Uptodate 0)).
  { destruct E3 as (_ & C & _). apply C. destruct E2 as (_ & C2 & _). by apply C2. }
  assert (Hdeps : deps_of (st_deps st2) target = deps_of (st_deps st) target).
  { apply deps_grow_deps_of. by destruct E02 as (_ & _ & D). }
  rewrite Hdeps in Hck, Hb.
  destruct b.
  - injection H as <- <-. split; [split|].
    + by apply extends_overwrite.
    + cbn. by rewrite lookup_insert_eq.
    + right. split; [done|]. intros d Hd.
      destruct (Hb d) as (td & Htd & Hst & Hl); [by apply set_elements_elem|].
      destruct (decide (d = target)) as [->|Hne].
      * exists (mk_status Uptodate (mtime s)). cbn.
        rewrite lookup_insert_eq. split; [done|]. split; [done|lia].
      * exists td. cbn. by rewrite lookup_insert_ne.
  - rewrite (obsolete_spec _ _ H3) in H. injection H as <- <-. split; [split|].
    + by apply extends_overwrite.
    + cbn. by rewrite lookup_insert_eq.
    + left. split; [done|]. destruct Hb as (d & Hd & td & Htd & Hbad).
      exists d. split; [by apply set_elements_elem|].
      destruct (decide (d = target)) as [->|Hne].
      * exists (mk_status Todo 0). cbn. rewrite lookup_insert_eq.
        split; [done|by left].
      * exists td. cbn. by rewrite lookup_insert_ne.
Qed.

(** *** The recursion bound of [get_status] is never reached *)

Lemma dep_names_elem (deps : gmap string (gset string)) (d : string) :
  d ∈ dep_names deps <->
  d ∈ dom deps \/ exists k X, deps !! k = Some X /\ d ∈ X.
Proof.
  unfold dep_names. rewrite elem_of_union, elem_of_union_list.
  split; (intros [H|H]; [by left|right]).
  - destruct H as (X & HX & Hd). apply list_elem_of_fmap in HX as ([k X'] & -> & Hk).
    apply elem_of_map_to_list in Hk. by exists k, X'.
  - destruct H as (k & X & Hk & Hd). exists X. split; [|done].
    apply list_elem_of_fmap. exists (k, X). split; [done|].
    by apply elem_of_map_to_list.
Qed.

Lemma extends_uncached (s s' : state) : extends s s' -> uncached s' ⊆ uncached s.
Proof.
  intros (_ & C & D) x. unfold uncached. rewrite !elem_of_difference.
  intros [Hx Hn]. split.
  - apply dep_names_elem. apply dep_names_elem in Hx as [Hx|(k & X & Hk & Hx)].
    + left. apply elem_of_dom in Hx. apply elem_of_dom.
      destruct (D x) as [<-|(_ & _ & I)]; [done|].
      destruct Hn. by apply elem_of_dom.
    + right. exists k, X. split; [|done].
      destruct (D k) as [<-|(_ & E & _)]; [done|].
      rewrite E in Hk. injection Hk as <-. by apply not_elem_of_empty in Hx.
  - intros Hc. apply Hn. apply elem_of_dom in Hc as [v Hv].
    apply elem_of_dom. exists v. by apply C.
Qed.

Lemma check_deps_total (rec : string -> state -> option (status_t * state))
    (m : Z) (ks : list string) (st : state) :
  rec_ok rec ->
  (forall k s, k ∈ ks -> extends st s -> is_Some (rec k s)) ->
  is_Some (check_deps rec m ks st).
Proof.
  intros Hrec. revert st. induction ks as [|k ks IH]; intros st Htot.
  - by eexists.
  - cbn [check_deps].
    destruct (Htot k st) as [[ts s1] Hk]; [by left|apply extends_refl|].
    rewrite Hk. destruct (Hrec _ _ _ _ Hk) as [E1 _].
    destruct (negb _ || _); [by eexists|].
    apply IH. intros k' s Hk' E. apply Htot; [by right|by eapply extends_trans].
Qed.

Lemma get_status_fuel_total (n : nat) (target : string) (st : state) :
  (size (uncached st) < n)%nat -> is_Some (get_status_fuel n target st).
Proof.
  revert target st. induction n as [|n IH]; intros target st Hn; [lia|].
  cbn [get_status_fuel].
  destruct (st_status st !! target) as [v|] eqn:Hc; [by eexists|].
  set (st1 := set_status (<[target := mk_status Uptodate 0]> (st_status st)) st).
  assert (E1 : extends st st1) by (by apply extends_set_status).
  destruct (stat st1 target) as [s|]; [|by eexists].
  set (st2 := set_deps (touch_deps target (st_deps st1)) st1).
  assert (E2 : extends st1 st2).
  { apply extends_touch. cbn. rewrite lookup_insert_eq. by eexists. }
  assert (E02 : extends st st2) by (by eapply extends_trans).
  assert (Hrec : rec_ok (get_status_fuel n)).
  { intros k s0 t0 s0' Hk. by apply (get_status_fuel_spec _ _ _ _ _ Hk). }
  destruct (check_deps_total (get_status_fuel n) (mtime s)
              (set_elements (deps_of (st_deps st2) target)) st2 Hrec)
    as [[b st3] ->]; [|by destruct b; eexists].
  intros k s0 Hk E. apply IH.
  apply set_elements_elem in Hk.
  rewrite (deps_grow_deps_of st st2) in Hk by (by destruct E02 as (_ & _ & D)).
  assert (Ht : target ∈ uncached st).
  { apply elem_of_difference. split.
    - apply dep_names_elem. left. apply elem_of_dom. unfold deps_of in Hk.
      destruct (st_deps st !! target); [by eexists|].
      by apply not_elem_of_empty in Hk.
    - by apply not_elem_of_dom. }
  assert (Hsub : uncached s0 ⊆ uncached st ∖ {[target]}).
  { intros x Hx. apply elem_of_difference. split.
    - apply (extends_uncached st st2 E02). by apply (extends_uncached st2 s0 E).
    - intros ->%elem_of_singleton. apply elem_of_difference in Hx as [_ Hx].
      apply Hx. apply elem_of_dom. destruct E as (_ & C & _).
      exists (mk_status Uptodate 0). apply C. cbn. by rewrite lookup_insert_eq. }
  apply subseteq_size in Hsub.
  rewrite size_difference in Hsub by (by apply singleton_subseteq_l).
  rewrite size_singleton in Hsub.
  assert (size (uncached st) <> 0)%nat.
  { apply size_non_empty_iff. intros He. rewrite He in Ht.
    by apply not_elem_of_empty in Ht. }
  lia.
Qed.

Lemma get_status_is_Some (target : string) (st : state) :
  is_Some (get_status target st).
Proof.
  apply get_status_fuel_total. unfold get_status_bound.
  change (dep_names (st_deps st) ∖ dom (st_status st)) with (uncached st). lia.
Qed.



(** ** load_rules *)

Lemma deps_of_insert_dep (t f : string) (deps : gmap string (gset string))
    (x : string) :
  deps_of (insert_dep t f deps) x =
  if decide (t = x) then {[f]} ∪ deps_of deps x else deps_of deps x.
Proof.
  unfold insert_dep, deps_of at 1. case_decide as H.
  - subst. by rewrite lookup_insert_eq.
  - by rewrite lookup_insert_ne.
Qed.

Lemma deps_of_insert_dep_mono (t f : string) (deps : gmap string (gset string))
    (x d : string) :
  d ∈ deps_of deps x -> d ∈ deps_of (insert_dep t f deps) x.
Proof. rewrite deps_of_insert_dep. case_decide; set_solver. Qed.

Lemma deps_of_foldl_mono (f : string) (ts : list string)
    (deps : gmap string (gset string)) (x d : string) :
  d ∈ deps_of deps x ->
  d ∈ deps_of (foldl (fun d t => insert_dep t f d) deps ts) x.
Proof.
  revert deps. induction ts as [|t ts IH]; intros deps H; [done|].
  cbn. apply IH. by apply deps_of_insert_dep_mono.
Qed.

Lemma deps_of_foldl_new (f : string) (ts : list string)
    (deps : gmap string (gset string)) (t : string) :
  t ∈ ts -> f ∈ deps_of (foldl (fun d t => insert_dep t f d) deps ts) t.
Proof.
  revert deps. induction ts as [|t' ts IH]; intros deps H.
  - by apply elem_of_nil in H.
  - cbn. apply elem_of_cons in H as [->|H]; [|by apply IH].
    apply deps_of_foldl_mono. rewrite deps_of_insert_dep, decide_True by done.
    set_solver.
Qed.




Lemma covered_script (dm : gmap string (gset string)) (r : rule_t) (s : string) :
  covered dm r ->
  covered dm (mk_rule (generic r) (targets r) (deps r) s).
Proof. done. Qed.




(** *** The cache is sound: nothing missing is held as up to date *)

Lemma stat_extends (s s' : state) (x : string) : extends s s' -> stat s' x = stat s x.
Proof. intros (F & _ & _). unfold stat. by rewrite (only_cache_files _ _ F). Qed.

Lemma cache_sound_insert (st : state) (x : string) (v : status_t) :
  cache_sound st ->
  (status v = Uptodate -> is_Some (stat st x)) ->
  cache_sound (set_status (<[x := v]> (st_status st)) st).
Proof.
  intros Hs Hx y w. cbn. change (stat (set_status _ st) y) with (stat st y).
  destruct (decide (x = y)) as [->|Hne].
  - rewrite lookup_insert_eq. intros [= <-]. done.
  - rewrite lookup_insert_ne by done. apply Hs.
Qed.

Lemma cache_sound_insert_twice (st : state) (x : string) (v w : status_t) :
  cache_sound st ->
  (status v = Uptodate -> is_Some (stat st x)) ->
  cache_sound
    (set_status
       (<[x := v]> (st_status (set_status (<[x := w]> (st_status st)) st)))
       (set_status (<[x := w]> (st_status st)) st)).
Proof.
  intros Hs Hx.
  change (cache_sound (set_status (<[x := v]> (<[x := w]> (st_status st))) st)).
  rewrite insert_insert_eq. by apply cache_sound_insert.
Qed.

Lemma check_deps_sound (rec : string -> state -> option (status_t * state))
    (m : Z) (ks : list string) (st : state) (b : bool) (st' : state) :
  (forall k s ts s', cache_sound s -> rec k s = Some (ts, s') -> cache_sound s') ->
  cache_sound st -> check_deps rec m ks st = Some (b, st') -> cache_sound st'.
Proof.
  intros Hrec. revert st. induction ks as [|k ks IH]; intros st Hs H.
  - by injection H as <- <-.
  - cbn [check_deps] in H. destruct (rec k st) as [[ts s1]|] eqn:Hk; [|done].
    pose proof (Hrec _ _ _ _ Hs Hk) as Hs1.
    destruct (negb _ || _); [by injection H as <- <-|by eapply IH].
Qed.

Lemma get_status_fuel_sound (n : nat) (target : string) (st : state)
    (ts : status_t) (st' : state) :
  cache_sound st -> get_status_fuel n target st = Some (ts, st') -> cache_sound st'.
Proof.
  revert target st ts st'. induction n as [|n IH]; intros target st ts st' Hs H; [done|].
  cbn [get_status_fuel] in H.
  destruct (st_status st !! target) as [v|] eqn:Hc; [by injection H as <- <-|].
  set (st1 := set_status (<[target := mk_status Uptodate 0]> (st_status st)) st) in *.
  change (stat st1 target) with (stat st target) in H.
  destruct (stat st target) as [s|] eqn:Hstat.
  - assert (Hs1 : cache_sound st1).
    { apply cache_sound_insert; [done|]. rewrite Hstat. by eexists. }
    set (st2 := set_deps (touch_deps target (st_deps st1)) st1) in *.
    assert (Hs2 : cache_sound st2) by exact Hs1.
    destruct (check_deps _ _ _ _) as [[b st3]|] eqn:Hck; [|done].
    assert (Hs3 : cache_sound st3).
    { eapply check_deps_sound; [|exact Hs2|exact Hck]. intros k s0 t0 s0'. apply IH. }
    assert (Hrec : rec_ok (get_status_fuel n)).
    { intros k s0 t0 s0' Hk. by apply (get_status_fuel_spec _ _ _ _ _ Hk). }
    destruct (check_deps_spec _ _ _ _ _ _ Hrec Hck) as [E3 _].
    assert (Hst3 : is_Some (stat st3 target)).
    { rewrite (stat_extends st2 st3) by done.
      change (stat st2 target) with (stat st target). rewrite Hstat. by eexists. }
    destruct b.
    + injection H as <- <-. by apply cache_sound_insert.
    + unfold obsolete, mark in H. injection H as <- <-.
      by apply cache_sound_insert.
  - unfold obsolete, mark in H. injection H as <- <-.
    by apply cache_sound_insert_twice.
Qed.





(** ** Rules for [hoare] *)

Lemma hoare_ret {A : Type} (P : state -> Prop) (a : A) (Q : A -> state -> Prop)
    (E : state -> Prop) :
  (forall st, P st -> Q a st) -> hoare P (ret a) Q E.
Proof. intros H st HP. by apply H. Qed.

Lemma hoare_bind {A B : Type} (P : state -> Prop) (m : M A) (k : A -> M B)
    (Q : A -> state -> Prop) (R : B -> state -> Prop) (E : state -> Prop) :
  hoare P m Q E -> (forall a, hoare (Q a) (k a) R E) -> hoare P (bind m k) R E.
Proof.
  intros Hm Hk st HP. unfold bind. specialize (Hm st HP).
  destruct (m st) as [[a| | | |] st1]; try done. by apply Hk.
Qed.

Lemma hoare_get_state (P : state -> Prop) (E : state -> Prop) :
  hoare P get_state (fun a st => a = st /\ P st) E.
Proof. by intros st HP. Qed.

Lemma hoare_modify (P : state -> Prop) (f : state -> state)
    (Q : unit -> state -> Prop) (E : state -> Prop) :
  (forall st, P st -> Q tt (f st)) -> hoare P (modify f) Q E.
Proof. intros H st HP. by apply H. Qed.

Lemma hoare_stop {A : Type} (P : state -> Prop) (r : result A)
    (Q : A -> state -> Prop) (E : state -> Prop) :
  (forall st, P st -> match r with Ret a => Q a st | _ => E st end) ->
  hoare P (stop r) Q E.
Proof. intros H st HP. specialize (H st HP). unfold stop. by destruct r. Qed.

Lemma hoare_conseq {A : Type} (P P' : state -> Prop) (m : M A)
    (Q Q' : A -> state -> Prop) (E E' : state -> Prop) :
  hoare P' m Q' E' ->
  (forall st, P st -> P' st) -> (forall a st, Q' a st -> Q a st) ->
  (forall st, E' st -> E st) ->
  hoare P m Q E.
Proof.
  intros H HP HQ HE st Hst. specialize (H st (HP st Hst)).
  destruct (m st) as [[a| | | |] st1]; auto.
Qed.

Lemma hoare_assert (P : state -> Prop) (b : bool) (E : state -> Prop) :
  (forall st, P st -> E st) ->
  hoare P (assert b) (fun _ st => P st /\ b = true) E.
Proof. intros H st HP. unfold assert. destruct b; cbn; auto. Qed.


(** The state read by [get_state] is the current one. *)
Lemma hoare_read {A : Type} (P : state -> Prop) (k : state -> M A)
    (Q : A -> state -> Prop) (E : state -> Prop) :
  (forall s, P s -> hoare (fun st => st = s) (k s) Q E) ->
  hoare P (bind get_state k) Q E.
Proof. intros H st HP. unfold bind, get_state. by apply (H st). Qed.

Lemma hoare_at {A : Type} (s : state) (P : state -> Prop) (m : M A)
    (Q : A -> state -> Prop) (E : state -> Prop) :
  P s -> hoare P m Q E -> hoare (fun st => st = s) m Q E.
Proof. intros HP H st ->. by apply H. Qed.

(** ** What keeps the counters *)

Lemma hoare_keeps {A : Type} (P : state -> Prop) (m : M A) :
  on_counters P -> keeps_counters m -> hoare P m (fun _ => P) P.
Proof.
  intros HP Hm st Hst. specialize (Hm st).
  destruct (m st) as [[a| | | |] st1]; by apply (HP st).
Qed.

Lemma keeps_ret {A : Type} (a : A) : keeps_counters (ret a).
Proof. by intros st. Qed.

Lemma keeps_stop {A : Type} (r : result A) : keeps_counters (stop r).
Proof. by intros st. Qed.

Lemma keeps_get_state : keeps_counters get_state.
Proof. by intros st. Qed.

Lemma keeps_modify (f : state -> state) :
  (forall st, counters (f st) = counters st) -> keeps_counters (modify f).
Proof. intros H st. apply H. Qed.

Lemma keeps_bind {A B : Type} (m : M A) (k : A -> M B) :
  keeps_counters m -> (forall a, keeps_counters (k a)) -> keeps_counters (bind m k).
Proof.
  intros Hm Hk st. unfold bind. specialize (Hm st).
  destruct (m st) as [[a| | | |] st1]; try done.
  cbn in Hm. rewrite <- Hm. apply Hk.
Qed.

Lemma keeps_assert (b : bool) : keeps_counters (assert b).
Proof. by destruct b. Qed.

Lemma keeps_get_status_m (target : string) : keeps_counters (get_status_m target).
Proof.
  intros st. unfold get_status_m.
  destruct (get_status target st) as [[ts st']|] eqn:H; [|done].
  destruct (get_status_fuel_spec _ _ _ _ _ H) as [[(F & _ & _) _] _].
  cbn. rewrite F. done.
Qed.

Lemma counters_foldl {B : Type} (f : state -> B -> state) (l : list B) (st : state) :
  (forall st b, counters (f st b) = counters st) ->
  counters (foldl f st l) = counters st.
Proof.
  intros H. revert st. induction l as [|b l IH]; intros st; [done|].
  cbn. by rewrite IH.
Qed.

Lemma keeps_complete_job (job : Z) (success : bool) :
  keeps_counters (complete_job job success).
Proof.
  unfold complete_job. apply keeps_bind; [apply keeps_get_state|]. intros st.
  destruct (st_job_targets st !! job) as [ts|]; [|apply keeps_stop].
  apply keeps_bind; [|intros _; by apply keeps_modify].
  apply keeps_modify. intros st'. destruct success; [done|].
  by apply counters_foldl.
Qed.

Lemma keeps_client_at (i : nat) : keeps_counters (client_at i).
Proof.
  unfold client_at. apply keeps_bind; [apply keeps_get_state|]. intros st.
  destruct (st_clients st !! i); [apply keeps_ret|apply keeps_stop].
Qed.

Lemma keeps_update_client (i : nat) (f : client_t -> client_t) :
  keeps_counters (update_client i f).
Proof. by apply keeps_modify. Qed.

Lemma keeps_erase_client (i : nat) : keeps_counters (erase_client i).
Proof. by apply keeps_modify. Qed.

(** ** The job slots *)

Section Slots.

Variable limit : Z.

Lemma on_counters_slots_inv : on_counters (slots_inv limit).
Proof.
  intros st st' H. unfold slots_inv. unfold counters in H.
  injection H as -> -> -> ->. done.
Qed.

Lemma on_counters_free : on_counters free_slots.
Proof.
  intros st st' H. unfold free_slots, has_free_slots. unfold counters in H.
  injection H as -> -> -> _. done.
Qed.

Lemma on_counters_both :
  on_counters (fun st => slots_inv limit st /\ free_slots st).
Proof.
  intros st st' H [H1 H2].
  split; [by eapply on_counters_slots_inv|by eapply on_counters_free].
Qed.

Lemma free_slots_spec (st : state) :
  free_slots st <->
  st_max_active_jobs st <= 0 \/
  st_running_jobs st - st_waiting_jobs st < st_max_active_jobs st.
Proof.
  unfold free_slots, has_free_slots.
  destruct (Z.leb_spec (st_max_active_jobs st) 0);
    destruct (Z.ltb_spec (st_running_jobs st - st_waiting_jobs st)
                (st_max_active_jobs st));
    (split; [intros ?|intros [?|?]]); try done; try lia; auto.
Qed.

(** A job may start when a slot is free. *)
Lemma slots_inv_start (st : state) :
  slots_inv limit st -> free_slots st ->
  slots_inv limit (set_running_jobs (st_running_jobs st + 1) st).
Proof.
  intros [Hmax Hi] Hf. apply free_slots_spec in Hf. rewrite Hmax in Hf.
  split; [done|]. cbn. apply Forall_cons in Hi as [_ Htr].
  repeat (apply Forall_cons; split; [intros Hpos; cbn; lia|]). done.
Qed.

(** A reply may be sent when a slot is free: the job that waited for it
    takes the slot. *)
Lemma slots_inv_reply (st : state) :
  slots_inv limit st -> free_slots st ->
  slots_inv limit (set_waiting_jobs (st_waiting_jobs st - 1) st).
Proof.
  intros [Hmax Hi] Hf. apply free_slots_spec in Hf. rewrite Hmax in Hf.
  split; [done|]. cbn. apply Forall_cons in Hi as [_ Htr].
  repeat (apply Forall_cons; split; [intros Hpos; cbn; lia|]). done.
Qed.

Lemma slots_inv_reaped (st : state) :
  slots_inv limit st ->
  slots_inv limit (set_running_jobs (st_running_jobs st - 1) st).
Proof.
  intros [Hmax Hi]. split; [done|]. cbn.
  apply Forall_cons in Hi as [H Htr].
  repeat (apply Forall_cons; split;
          [intros Hpos; specialize (H Hpos); cbn in *; lia|]). done.
Qed.

Lemma slots_inv_request (st : state) :
  slots_inv limit st ->
  slots_inv limit (set_waiting_jobs (st_waiting_jobs st + 1) st).
Proof.
  intros [Hmax Hi]. split; [done|]. cbn.
  apply Forall_cons in Hi as [H Htr].
  repeat (apply Forall_cons; split;
          [intros Hpos; specialize (H Hpos); cbn in *; lia|]). done.
Qed.

Lemma slots_keeps {A : Type} (P : state -> Prop) (m : M A) :
  keeps_counters m -> (forall st, P st -> slots_inv limit st) ->
  hoare P m (fun _ => (slots_inv limit)) (slots_inv limit).
Proof.
  intros Hm HP.
  apply (hoare_conseq _ _ _ _ _ _ _ (hoare_keeps _ m on_counters_slots_inv Hm));
    auto.
Qed.

Lemma slots_free_keeps {A : Type} (m : M A) :
  keeps_counters m ->
  hoare (fun st => slots_inv limit st /\ free_slots st) m
    (fun _ st => slots_inv limit st /\ free_slots st) (slots_inv limit).
Proof.
  intros Hm.
  apply (hoare_conseq _ _ _ _ _ _ _ (hoare_keeps _ m on_counters_both Hm)); auto.
  by intros st [? _].
Qed.

Lemma slots_run_script (job : Z) (rule : rule_t) :
  hoare (fun st => slots_inv limit st /\ free_slots st) (run_script job rule)
    (fun _ => (slots_inv limit)) (slots_inv limit).
Proof.
  unfold run_script. apply hoare_read. intros s [Hi Hf].
  apply (hoare_at s (fun st => slots_inv limit st /\ free_slots st)); [done|].
  destruct (st_forks s) as [|[pid|] forks].
  - apply slots_keeps; [apply keeps_complete_job|]. by intros st [? _].
  - apply hoare_modify. intros st [Hi' Hf'].
    apply (on_counters_slots_inv (set_running_jobs (st_running_jobs st + 1) st));
      [done|]. by apply slots_inv_start.
  - apply slots_keeps; [|by intros st [? _]].
    apply keeps_bind; [by apply keeps_modify|]. intros ?. apply keeps_complete_job.
Qed.

Lemma slots_start (target : string) (i : nat) :
  hoare (fun st => slots_inv limit st /\ free_slots st) (start target i)
    (fun r st => slots_inv limit st /\ (r.1 = false -> free_slots st)) (slots_inv limit).
Proof.
  unfold start. apply hoare_read. intros s [Hi Hf].
  apply (hoare_at s (fun st => slots_inv limit st /\ free_slots st)); [done|].
  destruct (targets (find_rule (st_rules s) target)) as [|t ts] eqn:Ht.
  - eapply hoare_bind.
    { apply slots_free_keeps. by apply keeps_modify. }
    intros ?. apply hoare_ret. by intros st [? ?].
  - apply hoare_bind with (Q := fun _ st => slots_inv limit st /\ free_slots st).
    { apply slots_free_keeps.
      apply keeps_modify. intros st. by apply counters_foldl. }
    intros ?. apply hoare_bind with (Q := fun _ => (slots_inv limit)).
    + destruct (deps (find_rule (st_rules s) target)).
      * eapply hoare_bind; [apply slots_run_script|]. intros ?. by apply hoare_ret.
      * apply slots_keeps; [|by intros st [? _]].
        apply keeps_bind; [by apply keeps_modify|]. intros ?. apply keeps_ret.
    + intros inserted. eapply hoare_bind.
      { apply slots_keeps; [by apply keeps_modify|]. intros st H. exact H. }
      intros ?. apply hoare_ret. by intros st ?.
Qed.

Lemma slots_complete_request (client : client_t) (success : bool) :
  hoare (fun st => slots_inv limit st /\ free_slots st) (complete_request client success)
    (fun _ => (slots_inv limit)) (slots_inv limit).
Proof.
  unfold complete_request. apply hoare_bind with (Q := fun _ => (slots_inv limit)).
  - destruct (delayed client) as [rule|].
    + eapply hoare_bind.
      { apply slots_free_keeps, keeps_assert. }
      intros ?. destruct success; [apply slots_run_script|].
      apply slots_keeps; [apply keeps_complete_job|]. by intros st [? _].
    + destruct (0 <=? fd client).
      * apply hoare_modify. intros st [Hi Hf].
        apply (on_counters_slots_inv
                 (set_waiting_jobs (st_waiting_jobs st - 1) st)); [done|].
        by apply slots_inv_reply.
      * apply hoare_ret. by intros st [? _].
  - intros ?. apply slots_keeps; [|done].
    destruct (_ && _); [by apply keeps_modify|apply keeps_ret].
Qed.

Lemma slots_fail_client (i : nat) :
  hoare (fun st => slots_inv limit st /\ free_slots st) (fail_client i)
    (fun _ => (slots_inv limit)) (slots_inv limit).
Proof.
  unfold fail_client. eapply hoare_bind.
  { apply slots_free_keeps, keeps_client_at. }
  intros c. eapply hoare_bind; [apply slots_complete_request|].
  intros ?. apply slots_keeps; [apply keeps_erase_client|done].
Qed.

(** The second inner loop of [update_clients] starts a job only when a
    slot is free, and leaves a free slot unless it ends by [return]. *)
Lemma slots_drain (fuel : nat) (i : nat) :
  hoare (fun st => slots_inv limit st /\ free_slots st) (drain fuel i)
    (fun d st => slots_inv limit st /\ (d <> Drain_return -> free_slots st)) (slots_inv limit).
Proof.
  revert i. induction fuel as [|n IH]; intros i.
  { apply hoare_stop. by intros st [? _]. }
  cbn [drain]. eapply hoare_bind.
  { apply slots_free_keeps, keeps_client_at. }
  intros c. destruct (pending c) as [|target rest].
  { apply hoare_ret. by intros st [? ?]. }
  eapply hoare_bind.
  { apply slots_free_keeps, keeps_update_client. }
  intros ?. eapply hoare_bind.
  { apply slots_free_keeps, keeps_get_status_m. }
  intros ts. destruct (status ts).
  - apply IH.
  - eapply hoare_bind; [apply slots_start|]. intros [ok inserted].
    destruct ok; cbn [negb].
    + apply hoare_bind with (Q := fun _ => (slots_inv limit)).
      { apply slots_keeps; [apply keeps_update_client|]. by intros st [? _]. }
      intros ?. apply hoare_read. intros s Hs.
      destruct (has_free_slots s) eqn:Hfree; cbn [negb].
      * apply (hoare_at s (fun st => slots_inv limit st /\ free_slots st)); [done|].
        apply IH.
      * apply hoare_ret. by intros st ->.
    + apply hoare_ret. intros st [Hs Hfree]. split; [done|]. intros _. by apply Hfree.
  - eapply hoare_bind.
    { apply slots_free_keeps, keeps_update_client. }
    intros ?. apply IH.
  - apply IH.
  - apply hoare_ret. by intros st [? ?].
Qed.

Lemma slots_handle_client (fuel : nat) (i : nat) :
  hoare (fun st => slots_inv limit st /\ free_slots st) (handle_client fuel i)
    (fun _ => (slots_inv limit)) (slots_inv limit).
Proof.
  unfold handle_client. eapply hoare_bind.
  { apply slots_free_keeps, keeps_client_at. }
  intros c. apply hoare_read. intros s Hs.
  apply (hoare_at s (fun st => slots_inv limit st /\ free_slots st)); [done|].
  destruct (harvest _ _ _) as [r| |].
  - eapply hoare_bind.
    { apply slots_free_keeps, keeps_update_client. }
    intros ?. eapply hoare_bind; [apply slots_drain|]. intros d.
    destruct d.
    + apply hoare_bind with (Q := fun _ st => slots_inv limit st /\ free_slots st).
      { eapply hoare_conseq; [apply slots_free_keeps, keeps_client_at|..]; auto.
        intros st [? Hf]. split; [done|]. by apply Hf. }
      intros c'. case_decide.
      * eapply hoare_bind; [apply slots_complete_request|]. intros ?.
        eapply hoare_bind.
        { apply slots_keeps; [apply keeps_erase_client|]. intros st H'. exact H'. }
        intros ?. by apply hoare_ret.
      * apply hoare_ret. by intros st [? _].
    + apply hoare_bind with (Q := fun _ => (slots_inv limit)).
      { eapply hoare_conseq; [apply slots_fail_client|..]; auto.
        intros st [? Hf]. split; [done|]. by apply Hf. }
      intros ?. by apply hoare_ret.
    + apply hoare_ret. by intros st [? _].
  - eapply hoare_bind; [apply slots_fail_client|]. intros ?. by apply hoare_ret.
  - apply hoare_stop. by intros st [? _].
Qed.

Lemma slots_update_clients_loop (fuel : nat) (i : nat) :
  preserves (slots_inv limit) (update_clients_loop fuel i).
Proof.
  unfold preserves. revert i. induction fuel as [|n IH]; intros i.
  { by apply hoare_stop. }
  cbn [update_clients_loop]. apply hoare_read. intros s Hs.
  destruct ((i <? length (st_clients s))%nat && has_free_slots s) eqn:Hc.
  - apply andb_true_iff in Hc as [_ Hf].
    apply (hoare_at s (fun st => slots_inv limit st /\ free_slots st)); [done|].
    eapply hoare_bind; [apply slots_handle_client|]. intros [i'|].
    + apply IH.
    + by apply hoare_ret.
  - apply hoare_ret. by intros st ->.
Qed.

Lemma slots_accept_client (conn : connection) :
  preserves (slots_inv limit) (accept_client conn).
Proof.
  unfold preserves, accept_client.
  destruct (conn_fd conn <? 0); [by apply hoare_ret|].
  destruct (conn_job_id conn) as [job|]; [|by apply hoare_ret].
  apply hoare_read. intros s Hs. apply (hoare_at s (slots_inv limit)); [done|].
  destruct (st_job_targets s !! job) as [l|]; [|by apply hoare_ret].
  destruct (recv_targets _ _) as [tbuf|]; [|by apply hoare_ret].
  destruct (parse_targets _ _ _) as [names ok].
  eapply hoare_bind.
  { apply slots_keeps; [by apply keeps_modify|]. intros st H. exact H. }
  intros ?. destruct ok; [|by apply hoare_ret].
  apply hoare_modify. intros st Hi.
  apply (on_counters_slots_inv (set_waiting_jobs (st_waiting_jobs st + 1) st));
    [done|]. by apply slots_inv_request.
Qed.

Lemma slots_reap (children : list (positive * wait_status)) :
  preserves (slots_inv limit) (reap children).
Proof.
  unfold preserves. induction children as [|[pid ws] children IH].
  { by apply hoare_ret. }
  cbn [reap]. apply hoare_read. intros s Hs. apply (hoare_at s (slots_inv limit)); [done|].
  destruct (st_job_pids s !! pid) as [job|]; [|by apply hoare_stop].
  apply hoare_bind with (Q := fun _ => (slots_inv limit)).
  { apply hoare_modify. intros st Hi.
    apply (on_counters_slots_inv (set_running_jobs (st_running_jobs st - 1) st));
      [done|]. apply slots_inv_reaped, Hi. }
  intros ?. eapply hoare_bind.
  { apply slots_keeps; [apply keeps_complete_job|]. intros st H. exact H. }
  intros ?. apply IH.
Qed.

Lemma slots_server_loop (fuel : nat) : preserves (slots_inv limit) (server_loop fuel).
Proof.
  unfold preserves. induction fuel as [|n IH].
  { by apply hoare_stop. }
  cbn [server_loop]. eapply hoare_bind; [apply slots_update_clients_loop|].
  intros ?. apply hoare_read. intros s Hs. apply (hoare_at s (slots_inv limit)); [done|].
  destruct (st_running_jobs s =? 0).
  { apply slots_keeps; [apply keeps_assert|done]. }
  destruct (st_events s) as [|ev events]; [by apply hoare_stop|].
  eapply hoare_bind.
  { apply slots_keeps; [by apply keeps_modify|]. intros st H. exact H. }
  intros ?. eapply hoare_bind.
  { destruct (ev_connection ev); [apply slots_accept_client|by apply hoare_ret]. }
  intros ?. eapply hoare_bind.
  { destruct (ev_sigchld ev); [apply slots_reap|by apply hoare_ret]. }
  intros ?. apply IH.
Qed.

Lemma keeps_load_dependencies_m : keeps_counters load_dependencies_m.
Proof.
  unfold load_dependencies_m. apply keeps_bind; [apply keeps_get_state|].
  intros st. apply keeps_bind; [apply keeps_stop|]. intros d.
  by apply keeps_modify.
Qed.

Lemma keeps_load_rules_m : keeps_counters load_rules_m.
Proof.
  unfold load_rules_m. apply keeps_bind; [apply keeps_get_state|].
  intros st. apply keeps_bind; [apply keeps_stop|]. intros rd.
  by apply keeps_modify.
Qed.

Lemma keeps_create_server : keeps_counters create_server.
Proof.
  unfold create_server. apply keeps_bind; [apply keeps_get_state|].
  intros st. destruct (st_can_listen st); [apply keeps_ret|apply keeps_stop].
Qed.

Lemma keeps_push_seed_client (p : list string) :
  keeps_counters (push_seed_client p).
Proof. by apply keeps_modify. Qed.

Lemma keeps_early_exit : keeps_counters early_exit.
Proof.
  unfold early_exit. apply keeps_bind; [by apply keeps_modify|]. intros ?.
  apply keeps_bind; [apply keeps_get_state|]. intros st. apply keeps_stop.
Qed.

Lemma slots_serve (fuel : nat) (targets : list string) :
  preserves (slots_inv limit) (serve fuel targets).
Proof.
  unfold preserves, serve. eapply hoare_bind.
  { apply slots_keeps; [apply keeps_get_status_m|]. intros st H. exact H. }
  intros ts. apply hoare_bind with (Q := fun _ => slots_inv limit).
  { case_decide; [|by apply hoare_ret].
    eapply hoare_bind.
    { apply slots_keeps; [apply keeps_push_seed_client|]. intros st H'. exact H'. }
    intros ?. eapply hoare_bind; [apply slots_server_loop|]. intros ?.
    apply slots_keeps; [|done].
    apply keeps_bind; [apply keeps_get_state|]. intros s.
    destruct (st_build_failure s); [apply keeps_ret|].
    apply keeps_bind; [by apply keeps_modify|]. intros ?.
    apply keeps_bind; [apply keeps_load_rules_m|]. intros ?. apply keeps_ret. }
  intros failed_early. apply hoare_bind with (Q := fun _ => slots_inv limit).
  { destruct failed_early; [by apply hoare_ret|].
    eapply hoare_bind; [|intros ?; apply slots_server_loop].
    apply slots_keeps; [apply keeps_push_seed_client|]. intros st H. exact H. }
  intros ?. apply slots_keeps; [apply keeps_early_exit|done].
Qed.

Lemma slots_server_mode (fuel : nat) (targets : list string) :
  preserves (slots_inv limit) (server_mode fuel targets).
Proof.
  unfold preserves, server_mode. eapply hoare_bind.
  { apply slots_keeps; [apply keeps_load_dependencies_m|]. intros st H. exact H. }
  intros ?. eapply hoare_bind.
  { apply slots_keeps; [apply keeps_load_rules_m|]. intros st H. exact H. }
  intros ?. eapply hoare_bind.
  { apply slots_keeps; [apply keeps_create_server|]. intros st H. exact H. }
  intros ?. apply slots_serve.
Qed.

End Slots.

(** The state a [hoare] triple speaks of is the one the run ends in. *)
Lemma preserves_final {A : Type} (I : state -> Prop) (m : M A) (st : state) :
  preserves I m -> I st -> I (m st).2.
Proof.
  intros H Hst. specialize (H st Hst). by destruct (m st) as [[a| | | |] st1].
Qed.

(** C4: with a positive job limit, the running jobs that are not waiting
    are never more than the limit.  From any state of [server_mode] whose
    two job counters respect the limit now and at each of their earlier
    values, the run of [server_mode], however it ends and at whatever point
    the recursion bound cuts it, leaves the limit as it was and the two
    counters within it at every value they went through.  And
    [has_free_slots], which guards each loop that starts a job or answers a
    waiting one, holds exactly when the limit is not positive or the
    active jobs are fewer than the limit. *)
Theorem server_slots (fuel : nat) (targets : list string) (st : state) :
  0 < st_max_active_jobs st ->
  (forall p, p ∈ (st_running_jobs st, st_waiting_jobs st) :: st_trace st ->
             p.1 - p.2 <= st_max_active_jobs st) ->
  let st' := (server_mode fuel targets st).2 in
  st_max_active_jobs st' = st_max_active_jobs st /\
  (forall p, p ∈ (st_running_jobs st', st_waiting_jobs st') :: st_trace st' ->
             p.1 - p.2 <= st_max_active_jobs st) /\
  (forall s, has_free_slots s = true <->
             st_max_active_jobs s <= 0 \/
             st_running_jobs s - st_waiting_jobs s < st_max_active_jobs s).
Proof.
  intros Hpos Hst st'.
  assert (Hinv : slots_inv (st_max_active_jobs st) st).
  { split; [done|]. apply Forall_forall. intros p Hp _. by apply Hst. }
  apply (preserves_final _ _ _ (slots_server_mode _ fuel targets)) in Hinv.
  fold st' in Hinv. destruct Hinv as [Hmax Hall].
  split; [done|]. split; [|apply free_slots_spec].
  intros p Hp. rewrite Forall_forall in Hall. by apply Hall.
Qed.

Lemma server_slots_witness :
  let st' := (server_mode 10 ["a"] example_state).2 in
  st_trace st' = [(0, 0); (1, 0); (1, 1); (2, 1); (1, 1); (1, 0)] /\
  st_max_active_jobs st' = 1 /\
  (forall p, p ∈ (st_running_jobs st', st_waiting_jobs st') :: st_trace st' ->
             p.1 - p.2 <= 1).
Proof.
  split; [by vm_compute|].
  assert (H0 : 0 < st_max_active_jobs example_state) by (cbn; lia).
  assert (H1 : forall p,
             p ∈ (st_running_jobs example_state, st_waiting_jobs example_state)
                 :: st_trace example_state ->
             p.1 - p.2 <= st_max_active_jobs example_state).
  { intros p Hp. cbn in Hp. apply list_elem_of_singleton in Hp as ->. cbn. lia. }
  destruct (server_slots 10 ["a"] example_state H0 H1) as (Hmax & Hall & _).
  split; [exact Hmax|exact Hall].
Defined.


(** ** Job completion *)

Lemma mark_lookup (t : string) (s : status_e) (m : gmap string status_t)
    (x : string) :
  mark t s m !! x =
  if decide (x = t) then Some (mk_status s (default 0 (last <$> m !! x)))
  else m !! x.
Proof.
  unfold mark. case_decide as H.
  - subst x. by rewrite lookup_insert_eq.
  - by rewrite lookup_insert_ne.
Qed.

(** The loop of [complete_job] over the targets, on the status map. *)
Lemma mark_all_lookup (s : status_e) (ts : list string)
    (m : gmap string status_t) (x : string) :
  foldl (fun m t => mark t s m) m ts !! x =
  if decide (x ∈ ts) then Some (mk_status s (default 0 (last <$> m !! x)))
  else m !! x.
Proof.
  revert m. induction ts as [|t ts IH]; intros m.
  { cbn. rewrite decide_False; [done|]. apply not_elem_of_nil. }
  cbn [foldl]. rewrite IH, !mark_lookup.
  destruct (decide (x = t)) as [->|Hne].
  - rewrite (decide_True (P := t ∈ t :: ts)) by apply list_elem_of_here.
    by case_decide.
  - destruct (decide (x ∈ ts)) as [Hin|Hnin].
    + rewrite decide_True; [done|]. by apply list_elem_of_further.
    + rewrite decide_False; [done|].
      intros [?|?]%elem_of_cons; done.
Qed.

Lemma fail_all_status (ts : list string) (st : state) :
  st_status (foldl fail_target st ts) =
  foldl (fun m t => mark t Failed m) (st_status st) ts.
Proof.
  revert st. induction ts as [|t ts IH]; intros st; [done|].
  cbn [foldl]. by rewrite IH.
Qed.

Lemma fail_all_files (ts : list string) (st : state) :
  st_files (foldl fail_target st ts) =
  foldl (fun f t => delete (c_str t) f) (st_files st) ts.
Proof.
  revert st. induction ts as [|t ts IH]; intros st; [done|].
  cbn [foldl]. by rewrite IH.
Qed.

Lemma fail_all_job_targets (ts : list string) (st : state) :
  st_job_targets (foldl fail_target st ts) = st_job_targets st.
Proof.
  revert st. induction ts as [|t ts IH]; intros st; [done|].
  cbn [foldl]. by rewrite IH.
Qed.

(** The calls to [remove] of the failure branch, on the files. *)
Lemma remove_all_lookup (ts : list string) (f : gmap string file) (p : string) :
  foldl (fun f t => delete (c_str t) f) f ts !! p =
  if decide (p ∈ map c_str ts) then None else f !! p.
Proof.
  revert f. induction ts as [|t ts IH]; intros f.
  { cbn. rewrite decide_False; [done|]. apply not_elem_of_nil. }
  cbn [foldl map]. rewrite IH.
  destruct (decide (p = c_str t)) as [->|Hne].
  - rewrite (decide_True (P := c_str t ∈ c_str t :: map c_str ts))
      by apply list_elem_of_here.
    case_decide; [done|]. apply lookup_delete_eq.
  - rewrite lookup_delete_ne by done.
    destruct (decide (p ∈ map c_str ts)) as [Hin|Hnin].
    + rewrite decide_True; [done|]. by apply list_elem_of_further.
    + rewrite decide_False; [done|].
      intros [?|?]%elem_of_cons; done.
Qed.

Lemma child_success_spec (ws : wait_status) :
  child_success ws = true <-> ws = Exited 0.
Proof.
  unfold child_success. destruct ws as [code|sig]; cbn.
  - rewrite Z.eqb_eq. split; [by intros ->|by intros [= ->]].
  - split; [done|discriminate].
Qed.

(** C6: for a job of the job table, [complete_job] returns, and it leaves
    the job table without the job.  With [success] true every target of
    the job is [Remade] and no file is touched; with [success] false every
    target of the job is [Failed] and the file at the path of each target
    is gone, while every other path keeps its file.  In both cases the
    entry of a target keeps its [last], and the names that are not targets
    of the job keep their entry.  The success value that [server_loop]
    computes for a reaped child, and hands to [complete_job] with the job
    of that child, is true exactly when the child exited with status 0. *)
Theorem complete_job_spec (job_id : Z) (success : bool) (st : state)
    (ts : list string) :
  st_job_targets st !! job_id = Some ts ->
  exists st',
    complete_job job_id success st = (Ret tt, st') /\
    st_job_targets st' = delete job_id (st_job_targets st) /\
    (forall t, t ∈ ts ->
       st_status st' !! t =
       Some (mk_status (if success then Remade else Failed)
               (default 0 (last <$> st_status st !! t)))) /\
    (forall x, x ∉ ts -> st_status st' !! x = st_status st !! x) /\
    (if success then st_files st' = st_files st
     else (forall t, t ∈ ts -> st_files st' !! c_str t = None) /\
          (forall p, p ∉ map c_str ts -> st_files st' !! p = st_files st !! p)) /\
    (forall ws, child_success ws = true <-> ws = Exited 0) /\
    (forall pid ws, st_job_pids st !! pid = Some job_id ->
       reap [(pid, ws)] st =
       complete_job job_id (child_success ws)
         (set_running_jobs (st_running_jobs st - 1)
            (set_job_pids (delete pid (st_job_pids st)) st))).
Proof.
  intros Hjob. unfold complete_job at 1, bind, get_state, modify. rewrite Hjob.
  eexists. split; [reflexivity|]. cbn [snd fst].
  split; [|split; [|split; [|split; [|split]]]].
  - destruct success; cbn; [done|]. by rewrite fail_all_job_targets.
  - intros t Ht. destruct success; cbn.
    + by rewrite mark_all_lookup, decide_True.
    + by rewrite fail_all_status, mark_all_lookup, decide_True.
  - intros x Hx. destruct success; cbn.
    + by rewrite mark_all_lookup, decide_False.
    + by rewrite fail_all_status, mark_all_lookup, decide_False.
  - destruct success; cbn; [done|]. split.
    + intros t Ht. rewrite fail_all_files, remove_all_lookup, decide_True; [done|].
      by apply list_elem_of_fmap_2.
    + intros p Hp. by rewrite fail_all_files, remove_all_lookup, decide_False.
  - apply child_success_spec.
  - intros pid ws Hpid. cbn [reap]. unfold bind at 1. unfold get_state at 1.
    rewrite Hpid. unfold bind at 1. unfold modify at 1. unfold bind at 1.
    destruct (complete_job _ _ _) as [[[]| | | |] s]; done.
Qed.

Lemma complete_job_spec_witness :
  let st :=
    set_job_targets {[ 0 := ["a"; "b"] ]}
      (initial_state {[ "a" := mk_file 1 "x"; "c" := mk_file 1 "y" ]} [] [] true) in
  exists st',
    complete_job 0 false st = (Ret tt, st') /\
    st_status st' !! "a" = Some (mk_status Failed 0) /\
    st_status st' !! "b" = Some (mk_status Failed 0) /\
    st_files st' !! "a" = None /\
    st_files st' !! "c" = Some (mk_file 1 "y") /\
    st_job_targets st' !! 0 = None.
Proof.
  intros st.
  assert (Hjob : st_job_targets st !! 0 = Some ["a"; "b"]) by (by vm_compute).
  destruct (complete_job_spec 0 false st ["a"; "b"] Hjob)
    as (st' & Hrun & Hjobs & Hmark & _ & [Hgone Hkept] & _).
  exists st'. split; [exact Hrun|].
  split; [apply Hmark; by left|].
  split; [apply Hmark; right; by left|].
  split; [apply (Hgone "a"); by left|].
  split.
  - rewrite Hkept; [by vm_compute|]. vm_compute.
    intros [?|[?|?]%elem_of_cons]%elem_of_cons; try done.
    by apply not_elem_of_nil in H.
  - rewrite Hjobs. apply lookup_delete_eq.
Defined.


(** ** Seed clients and the failure flag *)

Lemma proj_foldl {B C : Type} (f : state -> C) (g : state -> B -> state)
    (l : list B) (st : state) :
  (forall st b, f (g st b) = f st) -> f (foldl g st l) = f st.
Proof.
  intros H. revert st. induction l as [|b l IH]; intros st; [done|].
  cbn. by rewrite IH.
Qed.

Lemma preserves_assert (P : state -> Prop) (c : bool) : preserves P (assert c).
Proof. intros st HP. unfold assert. by destruct c. Qed.

Section Seeds.

Variable b : bool.


















End Seeds.

(** ** Where the process exits with a computed code *)

Lemma no_exit_ret {A : Type} (a : A) : no_exit (ret a).
Proof. by intros st code. Qed.

Lemma no_exit_stop {A : Type} (r : result A) :
  (forall code, r <> Exit code) -> no_exit (stop r).
Proof. intros H st code. apply H. Qed.

Lemma no_exit_get_state : no_exit get_state.
Proof. by intros st code. Qed.

Lemma no_exit_modify (f : state -> state) : no_exit (modify f).
Proof. by intros st code. Qed.

Lemma no_exit_assert (c : bool) : no_exit (assert c).
Proof. intros st code. by destruct c. Qed.

Lemma no_exit_bind {A B : Type} (m : M A) (k : A -> M B) :
  no_exit m -> (forall a, no_exit (k a)) -> no_exit (bind m k).
Proof.
  intros Hm Hk st code. unfold bind. specialize (Hm st).
  destruct (m st) as [[a|c| | |] st1]; try done.
  - apply Hk.
  - cbn. intros [= ->]. by apply (Hm code).
Qed.

Lemma no_exit_get_status_m (target : string) : no_exit (get_status_m target).
Proof.
  intros st code. unfold get_status_m.
  by destruct (get_status target st) as [[ts st']|].
Qed.

Ltac no_exit_step :=
  match goal with
  | H : context [no_exit _] |- no_exit _ => apply H
  | |- no_exit (bind _ _) => apply no_exit_bind; [|intros ?]
  | |- no_exit (ret _) => apply no_exit_ret
  | |- no_exit (modify _) => apply no_exit_modify
  | |- no_exit get_state => apply no_exit_get_state
  | |- no_exit (assert _) => apply no_exit_assert
  | |- no_exit (get_status_m _) => apply no_exit_get_status_m
  | |- no_exit (stop _) => apply no_exit_stop; done
  | |- no_exit (match ?x with _ => _ end) => destruct x
  end.

Lemma no_exit_complete_job (job : Z) (success : bool) :
  no_exit (complete_job job success).
Proof. unfold complete_job. repeat no_exit_step. Qed.

Lemma no_exit_run_script (job : Z) (rule : rule_t) : no_exit (run_script job rule).
Proof.
  pose proof no_exit_complete_job. unfold run_script. repeat no_exit_step.
Qed.

Lemma no_exit_start (target : string) (i : nat) : no_exit (start target i).
Proof. pose proof no_exit_run_script. unfold start. repeat no_exit_step. Qed.

Lemma no_exit_complete_request (client : client_t) (success : bool) :
  no_exit (complete_request client success).
Proof.
  pose proof no_exit_run_script. pose proof no_exit_complete_job.
  unfold complete_request. repeat no_exit_step.
Qed.

Lemma no_exit_client_at (i : nat) : no_exit (client_at i).
Proof. unfold client_at. repeat no_exit_step. Qed.

Lemma no_exit_fail_client (i : nat) : no_exit (fail_client i).
Proof.
  pose proof no_exit_client_at. pose proof no_exit_complete_request.
  unfold fail_client, erase_client. repeat no_exit_step.
Qed.

Lemma no_exit_drain (fuel : nat) (i : nat) : no_exit (drain fuel i).
Proof.
  pose proof no_exit_client_at. pose proof no_exit_start.
  revert i. induction fuel as [|n IH]; intros i; cbn [drain];
    unfold update_client; repeat no_exit_step.
Qed.

Lemma no_exit_handle_client (fuel : nat) (i : nat) :
  no_exit (handle_client fuel i).
Proof.
  pose proof no_exit_client_at. pose proof no_exit_fail_client.
  pose proof no_exit_drain. pose proof no_exit_complete_request.
  unfold handle_client, update_client, erase_client. repeat no_exit_step.
Qed.

Lemma no_exit_update_clients_loop (fuel : nat) (i : nat) :
  no_exit (update_clients_loop fuel i).
Proof.
  pose proof no_exit_handle_client.
  revert i. induction fuel as [|n IH]; intros i; cbn [update_clients_loop];
    repeat no_exit_step.
Qed.

Lemma no_exit_accept_client (conn : connection) : no_exit (accept_client conn).
Proof. unfold accept_client. repeat no_exit_step. Qed.

Lemma no_exit_reap (children : list (positive * wait_status)) :
  no_exit (reap children).
Proof.
  pose proof no_exit_complete_job.
  induction children as [|[pid ws] children IH]; cbn [reap]; repeat no_exit_step.
Qed.

Lemma no_exit_server_loop (fuel : nat) : no_exit (server_loop fuel).
Proof.
  pose proof no_exit_update_clients_loop. pose proof no_exit_accept_client.
  pose proof no_exit_reap.
  induction fuel as [|n IH]; cbn [server_loop]; unfold update_clients;
    repeat no_exit_step.
Qed.

Lemma load_dependencies_loop_no_exit (fuel : nat) (i : istream)
    (dm : gmap string (gset string)) (code : Z) :
  load_dependencies_loop fuel i dm <> Exit code.
Proof.
  revert i dm. induction fuel as [|n IH]; intros i dm; cbn [load_dependencies_loop];
    [done|].
  destruct (eofbit i); [done|]. destruct (read_word i) as [target i1].
  case_decide; [done|]. destruct (get i1) as [c i2].
  case_decide; [|done]. destruct (read_deps _ _ _ _) as [[deps' i3]|]; [|done].
  apply IH.
Qed.

Lemma load_rules_word_no_exit (c : option ascii) (i1 : istream) (l : loader)
    (code : Z) :
  load_rules_word c i1 l <> Exit code.
Proof.
  unfold load_rules_word. destruct (read_word _) as [file i2].
  repeat (case_decide || case_match); done.
Qed.

Lemma load_rules_loop_no_exit (fuel : nat) (l : loader) (code : Z) :
  load_rules_loop fuel l <> Exit code.
Proof.
  revert l. induction fuel as [|n IH]; intros l; cbn [load_rules_loop]; [done|].
  destruct (eofbit (ld_in l)); [done|]. destruct (get (ld_in l)) as [c i1].
  destruct (eofbit i1); [done|].
  destruct (_ && _). { destruct (get_streambuf i1). apply IH. }
  destruct (_ && _); [apply IH|].
  destruct (_ && _); [apply IH|].
  destruct (_ && _); [apply IH|].
  pose proof (load_rules_word_no_exit c i1 l code) as Hw.
  destruct (load_rules_word c i1 l); first [done|apply IH].
Qed.

Lemma no_exit_load_dependencies_m : no_exit load_dependencies_m.
Proof.
  unfold load_dependencies_m. apply no_exit_bind; [apply no_exit_get_state|].
  intros st. apply no_exit_bind; [|intros ?; apply no_exit_modify].
  apply no_exit_stop. intros code. unfold load_dependencies.
  destruct (file_content st ".remake"); [|done].
  apply load_dependencies_loop_no_exit.
Qed.

Lemma no_exit_load_rules_m : no_exit load_rules_m.
Proof.
  unfold load_rules_m. apply no_exit_bind; [apply no_exit_get_state|].
  intros st. apply no_exit_bind; [|intros ?; apply no_exit_modify].
  apply no_exit_stop. intros code. unfold load_rules.
  destruct (file_content st "Remakefile") as [content|]; [|done].
  pose proof (load_rules_loop_no_exit (S (String.length content))
    (mk_loader (open_stream content) empty_rule "" Bof 1 (st_rules st) (st_deps st)))
    as Hl.
  destruct (load_rules_loop _ _); try done; intros [= ->]; by apply (Hl code).
Qed.

Lemma no_exit_create_server : no_exit create_server.
Proof. unfold create_server. repeat no_exit_step. Qed.












(** ** The client without targets *)

(** C10.  With [REMAKE_SOCKET] set and no target among the arguments,
    [main] ends in client mode with exit status 0 and without a single
    call: no socket is created, nothing is connected to, nothing is sent.
    So does [client_mode] on the empty list, whatever the socket name,
    also one too long for [sun_path]. *)
Theorem client_mode_empty_targets (atoi : string -> Z) (sun_path_size : Z)
    (fuel : nat) (args : list string) (socket_name : string)
    (env_job_id : option string) (w : client_world) (files : gmap string file)
    (forks : list (option positive)) (events : list loop_event)
    (can_listen : bool) (jobs : Z) :
  parse_args atoi args 1 [] = inr (jobs, []) ->
  main atoi sun_path_size fuel args (Some socket_name) env_job_id w files forks
    events can_listen = Client 0 [] /\
  client_mode atoi sun_path_size env_job_id w socket_name [] = (0, []).
Proof.
  intros Hargs. unfold main. rewrite Hargs. done.
Qed.

Lemma client_mode_empty_targets_witness :
  main (fun _ => 4) 108 0 ["-j4"; "-d"] (Some "/tmp/rmk-0000") None
    (mk_client_world 3 true 0 None) ∅ [] [] true = Client 0 [].
Proof.
  refine (proj1 (client_mode_empty_targets (fun _ => 4) 108 0 ["-j4"; "-d"]
                   "/tmp/rmk-0000" None (mk_client_world 3 true 0 None)
                   ∅ [] [] true 4 _)).
  by vm_compute.
Defined.


(** ** The loaders reach the end of their file *)

(** What is left to read. *)
Lemma skip_while_length (p : ascii -> bool) (buf : string) :
  (String.length (buffer (skip_while p buf)) <= String.length buf)%nat.
Proof.
  induction buf as [|c rest IH]; cbn; [lia|].
  destruct (p c); cbn; lia.
Qed.

Lemma skip_spaces_length (i : istream) :
  (String.length (buffer (skip_spaces i)) <= String.length (buffer i))%nat.
Proof.
  unfold skip_spaces. destruct (good i); [apply skip_while_length|cbn; lia].
Qed.

Lemma skip_eol_length (i : istream) :
  (String.length (buffer (skip_eol i)) <= String.length (buffer i))%nat.
Proof.
  unfold skip_eol. destruct (good i); [apply skip_while_length|cbn; lia].
Qed.

Lemma get_length (i : istream) :
  (String.length (buffer (get i).2) <= String.length (buffer i))%nat.
Proof.
  unfold get. destruct (good i); [|cbn; lia].
  destruct (buffer i); cbn; lia.
Qed.

Lemma read_word_loop_length (quoted : bool) (res buf : string) :
  (String.length (buffer (read_word_loop quoted res buf).2) <= String.length buf)%nat.
Proof.
  revert res. induction buf as [buf IH] using string_length_ind. intros res.
  destruct buf as [|c rest]; cbn; [lia|].
  destruct quoted.
  - destruct (ascii_eqb c BACKSLASH).
    + destruct rest as [|c2 rest2]; cbn; [lia|].
      specialize (IH rest2 ltac:(cbn; lia) (string_snoc res c2)). lia.
    + destruct (ascii_eqb c DQUOTE); cbn; [lia|].
      specialize (IH rest ltac:(cbn; lia) (string_snoc res c)). lia.
  - destruct (strchr word_delims c); cbn; [lia|].
    specialize (IH rest ltac:(cbn; lia) (string_snoc res c)). lia.
Qed.

(** A word that is not empty was read off the stream. *)
Lemma read_word_length (i : istream) :
  (read_word i).1 = "" \/
  (String.length (buffer (read_word i).2) < String.length (buffer i))%nat.
Proof.
  unfold read_word, get. destruct (good i); [|by left].
  destruct (buffer i) as [|c rest]; [by left|].
  destruct (strchr word_delims c); [by left|]. right. cbn.
  pose proof (read_word_loop_length (ascii_eqb c DQUOTE)
                (if ascii_eqb c DQUOTE then "" else String c "") rest). lia.
Qed.

Lemma take_line_length (buf : string) :
  (String.length (take_line buf).2 <= String.length buf)%nat.
Proof.
  induction buf as [|c rest IH]; cbn; [lia|].
  destruct (ascii_eqb c LF); cbn; [lia|].
  destruct (take_line rest) as [line rest']. cbn in *. lia.
Qed.

Lemma get_streambuf_length (i : istream) :
  (String.length (buffer (get_streambuf i).2) <= String.length (buffer i))%nat.
Proof.
  unfold get_streambuf. destruct (good i); [|cbn; lia].
  pose proof (take_line_length (buffer i)).
  destruct (take_line (buffer i)) as [line rest]. cbn in *. lia.
Qed.

(** A stream that is not good yields no word. *)
Lemma read_word_not_good (i : istream) :
  good i = false -> (read_word i).1 = "".
Proof. intros H. unfold read_word, get. by rewrite H. Qed.

Lemma good_set_failbit (i : istream) : good (set_failbit i) = false.
Proof. unfold good. cbn. by rewrite andb_false_r. Qed.

Lemma read_word_length_le (i : istream) :
  (String.length (buffer (read_word i).2) <= String.length (buffer i))%nat.
Proof.
  unfold read_word, get. destruct (good i); [|cbn; lia].
  destruct (buffer i) as [|c rest]; [cbn; lia|].
  destruct (strchr word_delims c); [cbn; lia|]. cbn.
  pose proof (read_word_loop_length (ascii_eqb c DQUOTE)
                (if ascii_eqb c DQUOTE then "" else String c "") rest). lia.
Qed.

(** The inner loop of [load_dependencies] ends. *)
Lemma read_deps_total (fuel : nat) (target : string) (i : istream)
    (dm : gmap string (gset string)) :
  (String.length (buffer i) < fuel)%nat ->
  exists dm' i',
    read_deps fuel target i dm = Some (dm', i') /\
    (String.length (buffer i') <= String.length (buffer i))%nat.
Proof.
  revert i dm. induction fuel as [|n IH]; intros i dm Hlen; [lia|].
  cbn [read_deps]. pose proof (read_word_length i) as Hw.
  pose proof (read_word_length_le i) as Hle.
  destruct (read_word i) as [dep i1]. cbn in Hw, Hle.
  case_decide as Hdep.
  - by exists dm, i1.
  - destruct Hw as [?|Hw]; [done|].
    pose proof (skip_spaces_length i1).
    destruct (IH (skip_spaces i1) (insert_dep target dep dm))
      as (dm' & i' & -> & Hle'); [lia|].
    exists dm', i'. split; [done|lia].
Qed.

(** [load_dependencies] reaches the end of the file or its error. *)
Lemma load_dependencies_loop_total (fuel : nat) (i : istream)
    (dm : gmap string (gset string)) :
  (String.length (buffer i) < fuel)%nat ->
  load_dependencies_loop fuel i dm <> OutOfFuel.
Proof.
  revert i dm. induction fuel as [|n IH]; intros i dm Hlen; [lia|].
  cbn [load_dependencies_loop]. destruct (eofbit i); [done|].
  pose proof (read_word_length i) as Hw.
  destruct (read_word i) as [target i1]. cbn in Hw.
  case_decide as Htarget; [done|]. destruct Hw as [?|Hw]; [done|].
  pose proof (get_length i1) as Hg. destruct (get i1) as [c i2]. cbn in Hg.
  case_decide; [|done].
  pose proof (skip_spaces_length i2).
  destruct (read_deps_total n target (skip_spaces i2) dm) as (dm' & i3 & -> & Hle);
    [lia|].
  pose proof (skip_eol_length i3). apply IH. lia.
Qed.

Lemma load_dependencies_total (db : option string)
    (dm : gmap string (gset string)) :
  load_dependencies db dm <> OutOfFuel.
Proof.
  destruct db as [content|]; [|done]. unfold load_dependencies.
  apply load_dependencies_loop_total. cbn. lia.
Qed.

(** [load_rules] reaches the end of the file or a syntax error. *)
Lemma load_rules_word_length (c : option ascii) (i1 : istream) (l l' : loader)
    (n : nat) :
  (match c with
   | Some _ => good i1 = true /\ String.length (buffer i1) < n
   | None => good i1 = false
   end)%nat ->
  load_rules_word c i1 l = Ret l' ->
  (String.length (buffer (ld_in l')) < n)%nat.
Proof.
  intros Hc. unfold load_rules_word.
  pose proof (read_word_length (putback (to_char c) i1)) as Hw.
  pose proof (read_word_not_good (putback (to_char c) i1)) as Hng.
  destruct (read_word (putback (to_char c) i1)) as [file i2]. cbn in Hw, Hng.
  pose proof (skip_spaces_length i2) as Hs.
  case_decide as Hfile; [done|].
  assert (Hlen : (String.length (buffer (skip_spaces i2)) < n)%nat).
  { destruct c as [ch|].
    - destruct Hc as [Hgood Hc]. destruct Hw as [?|Hw]; [done|].
      unfold putback in Hw. rewrite Hgood in Hw. cbn in Hw. lia.
    - destruct Hfile. apply Hng. unfold putback. rewrite Hc.
      apply good_set_failbit. }
  repeat case_match; try done; intros [= <-]; exact Hlen.
Qed.

Lemma load_rules_word_ends (c : option ascii) (i1 : istream) (l : loader) :
  (exists l', load_rules_word c i1 l = Ret l') \/
  load_rules_word c i1 l = Fatal syntax_error.
Proof.
  unfold load_rules_word. destruct (read_word _) as [file i2].
  repeat (case_decide || case_match); eauto.
Qed.

Lemma load_rules_loop_ends (fuel : nat) (l : loader) :
  (exists l', load_rules_loop fuel l = Ret l') \/
  load_rules_loop fuel l = Fatal syntax_error \/
  load_rules_loop fuel l = OutOfFuel.
Proof.
  revert l. induction fuel as [|n IH]; intros l; cbn [load_rules_loop]; [auto|].
  destruct (eofbit (ld_in l)); [eauto|]. destruct (get (ld_in l)) as [c i1].
  destruct (eofbit i1); [eauto|].
  destruct (_ && _). { destruct (get_streambuf i1). apply IH. }
  destruct (_ && _); [apply IH|].
  destruct (_ && _); [apply IH|].
  destruct (_ && _); [apply IH|].
  destruct (load_rules_word_ends c i1 l) as [[l' ->]| ->]; [apply IH|auto].
Qed.

Lemma load_rules_loop_total (fuel : nat) (l : loader) :
  (String.length (buffer (ld_in l)) < fuel)%nat ->
  load_rules_loop fuel l <> OutOfFuel.
Proof.
  revert l. induction fuel as [|n IH]; intros l Hlen; [lia|].
  cbn [load_rules_loop]. destruct (eofbit (ld_in l)) eqn:Heof; [done|].
  assert (Hget : match get (ld_in l) with
                 | (Some _, i1) =>
                     good i1 = true /\ (String.length (buffer i1) < n)%nat
                 | (None, i1) => eofbit i1 = true \/ good i1 = false
                 end).
  { unfold get. destruct (good (ld_in l)) eqn:Hgood.
    - destruct (buffer (ld_in l)) as [|c rest]; [by left|].
      cbn in Hlen. split; [done|]. cbn. lia.
    - right. apply good_set_failbit. }
  destruct (get (ld_in l)) as [c i1].
  destruct (eofbit i1) eqn:Heof1; [done|].
  destruct c as [ch|].
  - destruct Hget as [Hgood Hlt].
    destruct (_ && _).
    { pose proof (get_streambuf_length i1) as Hsb.
      destruct (get_streambuf i1) as [text i2]. cbn in Hsb. apply IH. cbn. lia. }
    destruct (_ && _); [apply IH; cbn; lia|].
    destruct (_ && _); [apply IH; cbn; lia|].
    destruct (_ && _).
    { pose proof (skip_spaces_length i1). apply IH. cbn. lia. }
    pose proof (load_rules_word_length (Some ch) i1 l) as Hw.
    destruct (load_rules_word_ends (Some ch) i1 l) as [[l' Hword]|Hword];
      rewrite Hword; [|done].
    apply IH. by apply (Hw l' n).
  - destruct Hget as [?|Hbad]; [congruence|].
    rewrite !(bool_decide_eq_false_2 (None = Some _)) by done.
    cbn [orb]. rewrite !andb_false_r.
    pose proof (load_rules_word_length None i1 l) as Hw.
    destruct (load_rules_word_ends None i1 l) as [[l' Hword]|Hword];
      rewrite Hword; [|done].
    specialize (Hw l' 0%nat Hbad Hword). lia.
Qed.

Lemma load_rules_total (content : string) (rules : list rule_t)
    (dm : gmap string (gset string)) :
  (exists r, load_rules (Some content) rules dm = Ret r) \/
  load_rules (Some content) rules dm = Fatal syntax_error.
Proof.
  unfold load_rules.
  pose proof (load_rules_loop_total (S (String.length content))
    (mk_loader (open_stream content) empty_rule "" Bof 1 rules dm)) as Htotal.
  pose proof (load_rules_loop_ends (S (String.length content))
    (mk_loader (open_stream content) empty_rule "" Bof 1 rules dm)) as Hends.
  destruct Hends as [[l' ->]|[->| Hout]]; [left; by eexists|by right|].
  destruct Htotal; [cbn; lia|done].
Qed.


(** ** Saving and loading storable names *)

Lemma not_delim (c : ascii) :
  strchr word_delims c = false ->
  ascii_eqb c SPACE = false /\ strchr eol_chars c = false.
Proof.
  unfold strchr, word_delims, eol_chars. cbn.
  destruct (ascii_eqb c NUL), (ascii_eqb c SPACE), (ascii_eqb c TAB),
    (ascii_eqb c CR), (ascii_eqb c LF); cbn; intros; try done.
Qed.

(** What [escape_string] writes for a storable name starts with a
    character that is no delimiter. *)
Lemma escape_string_head (s : string) :
  storable s = true ->
  exists c r, escape_string s = String c r /\ strchr word_delims c = false.
Proof.
  intros Hs. rewrite escape_string_eq. unfold storable in Hs.
  destruct (Nat.eqb_spec (count_special s) 0) as [H0|H0].
  - cbn in Hs. unfold bare_word in Hs. apply andb_true_iff in Hs as [Hne Hall].
    apply negb_true_iff, bool_decide_eq_false in Hne.
    destruct s as [|c s]; [done|]. exists c, s. split; [done|].
    cbn in Hall. apply andb_true_iff in Hall as [Hd _].
    by apply negb_true_iff in Hd.
  - by eexists _, _.
Qed.

Lemma storable_not_empty (s : string) : storable s = true -> s <> "".
Proof. by intros H ->. Qed.

Lemma skip_while_stop (p : ascii -> bool) (c : ascii) (r : string) :
  p c = false -> skip_while p (String c r) = mk_istream (String c r) false false.
Proof. intros H. cbn. by rewrite H. Qed.

(** Reading a storable name that a delimiter follows. *)
Lemma read_word_storable (s : string) (d : ascii) (r : string) :
  storable s = true -> strchr word_delims d = true ->
  read_word (mk_istream (escape_string s +:+ String d r) false false) =
  (s, mk_istream (String d r) false false).
Proof.
  intros Hs Hd.
  pose proof (read_word_escape s (String d r) Hs) as H.
  unfold open_stream in H. rewrite H; [|right; by exists d, r].
  by rewrite andb_false_r.
Qed.

Lemma deps_text_length (l : list string) :
  (length l <= String.length (deps_text l))%nat.
Proof.
  induction l as [|d l IH]; cbn; [lia|].
  rewrite !length_app. cbn. fold (deps_text l). lia.
Qed.

(** The text after a name of a record starts with no space. *)
Lemma deps_text_head (l : list string) (rest : string) :
  Forall (fun d => storable d = true) l ->
  exists c r, deps_text l +:+ String LF rest = String c r /\
              ascii_eqb c SPACE = false.
Proof.
  intros Hl. destruct l as [|d l].
  - by exists LF, rest.
  - apply Forall_cons in Hl as [Hd _].
    destruct (escape_string_head d Hd) as (c & r & E & Hc).
    cbn [deps_text foldr]. rewrite E, !app_cons. eexists _, _. split; [done|].
    by destruct (not_delim c Hc).
Qed.

(** The inner loop of [load_dependencies] on the text of a record. *)
Lemma read_deps_text (l : list string) (fuel : nat) (target rest : string)
    (dm : gmap string (gset string)) :
  Forall (fun d => storable d = true) l ->
  (length l < fuel)%nat ->
  read_deps fuel target (mk_istream (deps_text l +:+ String LF rest) false false) dm =
  Some (foldl (fun m d => insert_dep target d m) dm l,
        mk_istream (String LF rest) false false).
Proof.
  revert fuel dm. induction l as [|d l IH]; intros fuel dm Hl Hfuel.
  - destruct fuel as [|n]; [cbn in Hfuel; lia|]. done.
  - destruct fuel as [|n]; [cbn in Hfuel; lia|].
    apply Forall_cons in Hl as [Hd Hl]. cbn [read_deps deps_text foldr].
    fold (deps_text l). rewrite !app_assoc_s, app_cons, app_nil_l.
    rewrite (read_word_storable d SPACE _ Hd) by done.
    rewrite decide_False by by apply storable_not_empty.
    destruct (deps_text_head l rest Hl) as (c & r & E & Hc).
    assert (Hskip : skip_spaces
                      (mk_istream (String SPACE (deps_text l +:+ String LF rest))
                         false false) =
                    mk_istream (deps_text l +:+ String LF rest) false false).
    { unfold skip_spaces. cbn [good eofbit failbit negb andb buffer].
      cbn [skip_while]. replace (ascii_eqb SPACE SPACE) with true by done.
      rewrite E. by apply skip_while_stop. }
    rewrite Hskip. rewrite IH; [done|done|cbn in Hfuel; lia].
Qed.

Lemma save_record_eq (target : string) (ds : gset string) (rest : string) :
  save_record target ds +:+ rest =
  escape_string target +:+
    String COLON (String SPACE (deps_text (set_elements ds) +:+ String LF rest)).
Proof.
  unfold save_record. fold (deps_text (set_elements ds)).
  by rewrite !app_assoc_s, !app_cons, !app_nil_l.
Qed.

Lemma set_elements_elem_of (ds : gset string) (d : string) :
  d ∈ set_elements ds <-> d ∈ ds.
Proof.
  unfold set_elements. rewrite merge_sort_Permutation. apply elem_of_elements.
Qed.

(** The text that follows a record starts with no character [skip_eol]
    skips. *)
Lemma records_text_head (l : list (string * gset string)) :
  Forall storable_entry l ->
  l = [] \/ exists c r, records_text l = String c r /\ strchr eol_chars c = false.
Proof.
  intros Hl. destruct l as [|[t ds] l]; [by left|]. right.
  apply Forall_cons in Hl as [(Hne & Ht & _) _]. cbn in Hne, Ht.
  cbn [records_text foldr]. rewrite decide_False by done.
  fold (records_text l). rewrite save_record_eq.
  destruct (escape_string_head t Ht) as (c & r & E & Hc).
  rewrite E, app_cons. eexists _, _. split; [done|].
  by destruct (not_delim c Hc).
Qed.

(** The outer loop of [load_dependencies] on the text of the records. *)
Lemma load_records (l : list (string * gset string)) (fuel : nat) (i : istream)
    (dm : gmap string (gset string)) :
  Forall storable_entry l ->
  (String.length (records_text l) < fuel)%nat ->
  i = mk_istream (records_text l) false false \/ (l = [] /\ i = at_eof) ->
  load_dependencies_loop fuel i dm = Ret (foldl load_record dm l).
Proof.
  revert fuel i dm. induction l as [|[t ds] l IH]; intros fuel i dm Hl Hfuel Hi.
  - destruct fuel as [|n]; [lia|]. by destruct Hi as [->|[_ ->]].
  - destruct Hi as [->|[? _]]; [|done].
    destruct fuel as [|n]; [lia|].
    pose proof Hl as Hl'. apply Forall_cons in Hl' as [(Hne & Ht & Hds) Hrest].
    cbn in Hne, Ht, Hds. cbn [records_text foldr] in *.
    rewrite decide_False in * by done. fold (records_text l) in *.
    rewrite save_record_eq in *.
    cbn [load_dependencies_loop eofbit].
    rewrite (read_word_storable t COLON _ Ht) by done.
    rewrite decide_False by by apply storable_not_empty.
    cbn [get good eofbit failbit negb andb buffer].
    rewrite decide_True by done.
    assert (Hall : Forall (fun d => storable d = true) (set_elements ds)).
    { apply Forall_forall. intros d Hd. by apply Hds, set_elements_elem_of. }
    destruct (deps_text_head (set_elements ds) (records_text l) Hall)
      as (c & r & E & Hc).
    assert (Hskip : skip_spaces
              (mk_istream
                 (String SPACE
                    (deps_text (set_elements ds) +:+ String LF (records_text l)))
                 false false) =
            mk_istream (deps_text (set_elements ds) +:+ String LF (records_text l))
              false false).
    { unfold skip_spaces. cbn [good eofbit failbit negb andb buffer].
      cbn [skip_while]. replace (ascii_eqb SPACE SPACE) with true by done.
      rewrite E. by apply skip_while_stop. }
    rewrite Hskip.
    rewrite !length_app in Hfuel. cbn [String.length] in Hfuel.
    rewrite !length_app in Hfuel. cbn [String.length] in Hfuel.
    pose proof (deps_text_length (set_elements ds)) as Hdl.
    rewrite read_deps_text; [|done|lia].
    cbn [foldl]. apply IH; [done|lia|].
    unfold skip_eol. cbn [good eofbit failbit negb andb buffer].
    cbn [skip_while]. replace (strchr eol_chars LF) with true by done.
    destruct (records_text_head l Hrest) as [->|(c' & r' & E' & Hc')].
    + right. done.
    + left. rewrite E'. by apply skip_while_stop.
Qed.

Lemma deps_of_insert (t : string) (X : gset string)
    (dm : gmap string (gset string)) :
  deps_of (<[t := X]> dm) t = X.
Proof. unfold deps_of. by rewrite lookup_insert_eq. Qed.

(** What the inner loop leaves at the target. *)
Lemma insert_deps_eq (t : string) (l : list string)
    (dm : gmap string (gset string)) :
  l <> [] ->
  foldl (fun m d => insert_dep t d m) dm l =
  <[t := list_to_set l ∪ deps_of dm t]> dm.
Proof.
  revert dm. induction l as [|d l IH]; intros dm Hl; [done|].
  cbn [foldl]. destruct l as [|d' l].
  - cbn. unfold insert_dep. f_equal. apply set_eq. intros x. set_unfold. tauto.
  - rewrite IH by done. unfold insert_dep.
    rewrite deps_of_insert, insert_insert_eq. f_equal.
    apply set_eq. intros x. set_unfold. tauto.
Qed.

Lemma set_elements_set (ds : gset string) : list_to_set (set_elements ds) = ds.
Proof.
  unfold set_elements. apply set_eq. intros d.
  rewrite elem_of_list_to_set, merge_sort_Permutation. apply elem_of_elements.
Qed.

Lemma set_elements_not_nil (ds : gset string) : ds <> ∅ -> set_elements ds <> [].
Proof.
  intros Hne Hnil. apply Hne. rewrite <- (set_elements_set ds). by rewrite Hnil.
Qed.

Lemma load_record_fresh (dm : gmap string (gset string)) (t : string)
    (ds : gset string) :
  dm !! t = None -> ds <> ∅ -> load_record dm (t, ds) = <[t := ds]> dm.
Proof.
  intros Ht Hne. unfold load_record. cbn [fst snd].
  rewrite insert_deps_eq by by apply set_elements_not_nil.
  rewrite set_elements_set. unfold deps_of. rewrite Ht. cbn.
  f_equal. apply set_eq. intros x. set_unfold. tauto.
Qed.

(** The loop over records with different names builds their map. *)
Lemma load_records_map (l : list (string * gset string)) :
  Forall storable_entry l -> NoDup l.*1 ->
  foldl load_record ∅ l = list_to_map l.
Proof.
  induction l as [|[t ds] l IH] using rev_ind; intros Hl Hnd; [done|].
  apply Forall_app in Hl as [Hl Hx]. apply Forall_cons in Hx as [(Hne & _) _].
  rewrite fmap_app in Hnd. apply NoDup_app in Hnd as (Hnd & Hfresh & _).
  assert (Ht : t ∉ l.*1).
  { intros Hin. apply (Hfresh t Hin). cbn. by left. }
  rewrite foldl_app. cbn [foldl]. rewrite IH by done.
  rewrite load_record_fresh; [|by apply not_elem_of_list_to_map_1|done].
  by rewrite list_to_map_snoc.
Qed.

Lemma map_items_perm {V : Type} (m : gmap string V) :
  map_items m ≡ₚ map_to_list m.
Proof. apply merge_sort_Permutation. Qed.

(** The database survives [save_dependencies] and [load_dependencies] when
    every name of it is storable and no set of it is empty: names that
    [escape_string] quotes, and names without space, tab, carriage return,
    line feed, colon and NUL. *)
Lemma save_load_storable (m : gmap string (gset string)) :
  storable_map m ->
  load_dependencies (Some (save_dependencies m)) ∅ = Ret m.
Proof.
  intros Hm. unfold load_dependencies.
  change (save_dependencies m) with (records_text (map_items m)).
  assert (Hall : Forall storable_entry (map_items m)).
  { apply Forall_forall. intros [t ds] Hin.
    rewrite map_items_perm in Hin. apply elem_of_map_to_list in Hin.
    by apply Hm. }
  rewrite (load_records (map_items m)); [|done|lia|by left].
  f_equal. rewrite load_records_map; [|done|].
  - rewrite (list_to_map_proper _ (map_to_list m)).
    + apply list_to_map_to_list.
    + rewrite map_items_perm. apply NoDup_fst_map_to_list.
    + apply map_items_perm.
  - rewrite map_items_perm. apply NoDup_fst_map_to_list.
Qed.

Lemma save_load_storable_example :
  load_dependencies
    (Some (save_dependencies {[ "a b" := {[ "c$d"; "e" ]}; "f" := {[ "a b" ]} ]}))
    ∅ =
  Ret {[ "a b" := {[ "c$d"; "e" ]}; "f" := {[ "a b" ]} ]}.
Proof.
  apply save_load_storable. intros t ds Ht.
  apply lookup_insert_Some in Ht as [[<- <-]|[_ Ht]].
  - split; [|split; [by vm_compute|]].
    + apply (non_empty_inhabited_L "e"). set_unfold. tauto.
    + intros d Hd. set_unfold in Hd. destruct Hd as [-> | ->]; by vm_compute.
  - apply lookup_singleton_Some in Ht as [<- <-].
    split; [|split; [by vm_compute|]].
    + by apply (non_empty_inhabited_L "a b"), elem_of_singleton.
    + intros d Hd. set_unfold in Hd. subst d. by vm_compute.
Qed.


(** * More on the code *)

(** ** Words *)

(** X1.  What [escape_string] writes for a storable name, [read_word]
    reads back whole, whatever follows it in the file: the end of the
    file, or a delimiter and any text.  The stream is left at what
    follows. *)
Theorem escape_string_read_back (s rest : string) :
  storable s = true ->
  rest = "" \/ (exists d r, rest = String d r /\ strchr word_delims d = true) ->
  (read_word (open_stream (escape_string s +:+ rest))).1 = s /\
  buffer (read_word (open_stream (escape_string s +:+ rest))).2 = rest.
Proof.
  intros Hs Hrest. rewrite (read_word_escape s rest Hs Hrest).
  split; [done|]. destruct (_ && _) eqn:H; [|done].
  apply andb_true_iff in H as [_ H]. by apply bool_decide_eq_true in H.
Qed.

Lemma escape_string_read_back_witness :
  (read_word (open_stream (escape_string "a b$c" +:+ ": x"))).1 = "a b$c" /\
  buffer (read_word (open_stream (escape_string "a b$c" +:+ ": x"))).2 = ": x".
Proof.
  apply (escape_string_read_back "a b$c" ": x"); [by vm_compute|].
  right. exists COLON, " x". split; [done|by vm_compute].
Defined.

Lemma string_forall_app (p : ascii -> bool) (s t : string) :
  string_forall p (s +:+ t) = string_forall p s && string_forall p t.
Proof.
  induction s as [|a s IH]; [done|]. rewrite app_cons. cbn.
  by rewrite IH, andb_assoc.
Qed.

Lemma read_word_loop_bare (res buf : string) :
  no_delim res = true ->
  let r := read_word_loop false res buf in
  res +:+ buf = r.1 +:+ buffer r.2 /\ no_delim r.1 = true /\
  next_is (strchr word_delims) r.2.
Proof.
  revert res. induction buf as [|c rest IH]; intros res Hres; cbn.
  { by rewrite app_empty_r. }
  destruct (strchr word_delims c) eqn:Hc; cbn; [done|].
  destruct (IH (string_snoc res c)) as (H1 & H2 & H3).
  { unfold no_delim, string_snoc in *. rewrite string_forall_app, Hres.
    cbn. by rewrite Hc. }
  split; [|done]. by rewrite <- H1, snoc_app.
Qed.

(** X2.  On text that does not start with a double quote, [read_word]
    takes the longest prefix without delimiter: the word and the rest of
    the stream make the text, the word holds no space, tab, carriage
    return, line feed, colon or NUL, and the stream is left at its end or
    at a delimiter, which is not consumed. *)
Theorem read_word_bare (c : ascii) (text : string) :
  c <> DQUOTE ->
  let r := read_word (open_stream (String c text)) in
  String c text = r.1 +:+ buffer r.2 /\ no_delim r.1 = true /\
  next_is (strchr word_delims) r.2.
Proof.
  intros Hc. unfold read_word, open_stream. cbn.
  destruct (strchr word_delims c) eqn:Hd; cbn; [done|].
  replace (ascii_eqb c DQUOTE) with false
    by (symmetry; by apply bool_decide_eq_false).
  destruct (read_word_loop_bare (String c "") text) as (H1 & H2 & H3); [|done].
  unfold no_delim. cbn. by rewrite Hd.
Qed.

Lemma read_word_bare_witness :
  let r := read_word (open_stream "main.o: main.c") in
  "main.o: main.c" = r.1 +:+ buffer r.2 /\ no_delim r.1 = true /\
  next_is (strchr word_delims) r.2.
Proof. apply (read_word_bare "m" "ain.o: main.c"). by vm_compute. Defined.

Lemma skip_while_spec (p : ascii -> bool) (buf : string) :
  exists skipped,
    buf = skipped +:+ buffer (skip_while p buf) /\
    string_forall p skipped = true /\
    next_is (fun c => negb (p c)) (skip_while p buf).
Proof.
  induction buf as [|c rest IH].
  - by exists "".
  - cbn. destruct (p c) eqn:Hc.
    + destruct IH as (sk & H1 & H2 & H3). exists (String c sk).
      rewrite app_cons, <- H1. cbn. by rewrite Hc.
    + exists "". cbn. split; [done|]. split; [done|]. by rewrite Hc.
Qed.

(** X3.  [skip_spaces] drops the spaces at the front of a good stream and
    nothing else, and [skip_eol] drops the carriage returns, the line
    feeds and the NUL bytes there ([strchr] finds NUL in every set): what
    was dropped and what is left make the text, and the stream is left at
    its end or at a character of another kind. *)
Theorem skip_spaces_eol_spec (text : string) :
  (exists skipped,
     text = skipped +:+ buffer (skip_spaces (open_stream text)) /\
     string_forall (fun c => ascii_eqb c SPACE) skipped = true /\
     next_is (fun c => negb (ascii_eqb c SPACE)) (skip_spaces (open_stream text))) /\
  (exists skipped,
     text = skipped +:+ buffer (skip_eol (open_stream text)) /\
     string_forall
       (fun c => ascii_eqb c CR || ascii_eqb c LF || ascii_eqb c NUL) skipped
       = true /\
     next_is
       (fun c => negb (ascii_eqb c CR || ascii_eqb c LF || ascii_eqb c NUL))
       (skip_eol (open_stream text))).
Proof.
  split; [apply skip_while_spec|].
  unfold skip_eol, open_stream. cbn [good eofbit failbit negb andb buffer].
  assert (E : forall c, strchr eol_chars c =
                        ascii_eqb c CR || ascii_eqb c LF || ascii_eqb c NUL).
  { intros c. unfold strchr, eol_chars. cbn.
    by destruct (ascii_eqb c NUL), (ascii_eqb c CR), (ascii_eqb c LF). }
  destruct (skip_while_spec (strchr eol_chars) text) as (sk & H1 & H2 & H3).
  exists sk. split; [done|]. split.
  - clear H1 H3. induction sk as [|a sk IH]; [done|]. cbn in *.
    rewrite <- E. apply andb_true_iff in H2 as [-> H2]. by apply IH.
  - unfold next_is in *. destruct (buffer _); [done|]. by rewrite <- E.
Qed.

(** ** The dependency database *)

(** X4.  A dependency map whose sets are not empty and whose names are all
    storable (quoted by [escape_string], or not empty and free of space,
    tab, carriage return, line feed, colon and NUL) comes back unchanged
    when the text [save_dependencies] writes is loaded by
    [load_dependencies] into an empty map. *)
Theorem save_load_round_trip (m : gmap string (gset string)) :
  storable_map m ->
  load_dependencies (Some (save_dependencies m)) ∅ = Ret m.
Proof. apply save_load_storable. Qed.

Lemma save_load_round_trip_witness :
  load_dependencies
    (Some (save_dependencies {[ "a b" := {[ "c$d" ]}; "f" := {[ "a b" ]} ]})) ∅ =
  Ret {[ "a b" := {[ "c$d" ]}; "f" := {[ "a b" ]} ]}.
Proof.
  apply (save_load_round_trip {[ "a b" := {[ "c$d" ]}; "f" := {[ "a b" ]} ]}).
  intros t ds Ht.
  apply lookup_insert_Some in Ht as [[<- <-]|[_ Ht]].
  - split; [|split; [by vm_compute|]].
    + by apply (non_empty_inhabited_L "c$d"), elem_of_singleton.
    + intros d Hd. apply elem_of_singleton in Hd. subst d. by vm_compute.
  - apply lookup_singleton_Some in Ht as [<- <-].
    split; [|split; [by vm_compute|]].
    + by apply (non_empty_inhabited_L "a b"), elem_of_singleton.
    + intros d Hd. apply elem_of_singleton in Hd. subst d. by vm_compute.
Defined.

Lemma deps_included_refl (m : gmap string (gset string)) : deps_included m m.
Proof. by intros t d. Qed.

Lemma deps_included_trans (m1 m2 m3 : gmap string (gset string)) :
  deps_included m1 m2 -> deps_included m2 m3 -> deps_included m1 m3.
Proof. intros H1 H2 t d H. by apply H2, H1. Qed.

Lemma deps_included_insert_dep (target dep : string)
    (m : gmap string (gset string)) :
  deps_included m (insert_dep target dep m).
Proof. intros t d. apply deps_of_insert_dep_mono. Qed.

Lemma read_deps_included (fuel : nat) (target : string) (i : istream)
    (dm dm' : gmap string (gset string)) (i' : istream) :
  read_deps fuel target i dm = Some (dm', i') -> deps_included dm dm'.
Proof.
  revert i dm. induction fuel as [|n IH]; intros i dm H; [done|].
  cbn [read_deps] in H. destruct (read_word i) as [dep i1].
  case_decide.
  - injection H as <- _. apply deps_included_refl.
  - eapply deps_included_trans; [apply deps_included_insert_dep|].
    by eapply IH.
Qed.

Lemma load_dependencies_loop_ends (fuel : nat) (i : istream)
    (dm : gmap string (gset string)) :
  (exists m, load_dependencies_loop fuel i dm = Ret m /\ deps_included dm m) \/
  load_dependencies_loop fuel i dm = Fatal "Failed to load database" \/
  load_dependencies_loop fuel i dm = OutOfFuel.
Proof.
  revert i dm. induction fuel as [|n IH]; intros i dm; [auto|].
  cbn [load_dependencies_loop].
  destruct (eofbit i). { left. eexists. split; [done|apply deps_included_refl]. }
  destruct (read_word i) as [target i1].
  case_decide. { left. eexists. split; [done|apply deps_included_refl]. }
  destruct (get i1) as [c i2]. case_decide; [|auto].
  destruct (read_deps n target (skip_spaces i2) dm) as [[dm' i3]|] eqn:Hr; [|auto].
  apply read_deps_included in Hr.
  destruct (IH (skip_eol i3) dm') as [(m & -> & Hm)|[->| ->]]; auto.
  left. eexists. split; [done|]. by eapply deps_included_trans.
Qed.

(** X5.  [load_dependencies] comes to an end on every file: it returns a
    map that holds every dependency the map held before (it only inserts),
    or it stops with its error message at a record whose name no colon
    follows.  Without a file the map is returned as it is. *)
Theorem load_dependencies_ends (db : option string)
    (dm : gmap string (gset string)) :
  ((exists m, load_dependencies db dm = Ret m /\ deps_included dm m) \/
   load_dependencies db dm = Fatal "Failed to load database") /\
  load_dependencies None dm = Ret dm.
Proof.
  split; [|done]. pose proof (load_dependencies_total db dm) as Ht.
  destruct db as [content|].
  - unfold load_dependencies in *.
    destruct (load_dependencies_loop_ends (S (String.length content))
                (open_stream content) dm) as [H|[H|H]]; auto. done.
  - left. eexists. split; [done|apply deps_included_refl].
Qed.

Lemma records_text_empty (l : list (string * gset string)) :
  records_text l = "" <-> Forall (fun e => e.2 = ∅) l.
Proof.
  induction l as [|[t ds] l IH]; cbn [records_text foldr].
  - split; [by constructor|done].
  - fold (records_text l). case_decide as Hds.
    + rewrite IH. split; [intros; by constructor|by intros [_ ?]%Forall_cons].
    + split.
      * rewrite save_record_eq. intros H.
        destruct (escape_string t) eqn:E; [|by rewrite app_cons in H].
        by rewrite app_nil_l in H.
      * by intros [? _]%Forall_cons.
Qed.

(** X6.  [save_dependencies] writes nothing exactly when every set of the
    map is empty: a target without dependency gets no record, and a set
    that is not empty always gets one. *)
Theorem save_dependencies_empty (m : gmap string (gset string)) :
  save_dependencies m = "" <-> forall t ds, m !! t = Some ds -> ds = ∅.
Proof.
  change (save_dependencies m) with (records_text (map_items m)).
  rewrite records_text_empty, Forall_forall. split.
  - intros H t ds Ht. apply (H (t, ds)).
    rewrite map_items_perm. by apply elem_of_map_to_list.
  - intros H [t ds] Hin. rewrite map_items_perm in Hin.
    apply elem_of_map_to_list in Hin. by apply (H t).
Qed.


(** ** The rule file *)

Lemma loader_wf_same (rules0 : list rule_t) (deps0 : gmap string (gset string))
    (l l' : loader) :
  ld_rules l' = ld_rules l -> ld_deps l' = ld_deps l ->
  ld_current l' = ld_current l ->
  (ld_state l' = Bof <-> ld_state l = Bof) ->
  loader_wf rules0 deps0 l -> loader_wf rules0 deps0 l'.
Proof.
  intros Hr Hd Hc Hs (Hnew & Hcur & Hst & Hinc). unfold loader_wf.
  rewrite Hr, Hd, Hc, Hs. done.
Qed.

Lemma rule_shape_empty : rule_shape empty_rule.
Proof.
  unfold rule_shape. cbn. split; [intros t Ht; by apply not_elem_of_nil in Ht|].
  split; [done|].
  split; [intros _ d Hd|intros d Hd]; by apply not_elem_of_nil in Hd.
Qed.

Lemma elem_of_snoc (x y : string) (l : list string) :
  x ∈ (l ++ [y])%list <-> x ∈ l \/ x = y.
Proof. by rewrite elem_of_app, list_elem_of_singleton. Qed.

Lemma deps_included_foldl (file : string) (ts : list string)
    (m : gmap string (gset string)) :
  deps_included m (foldl (fun d t => insert_dep t file d) m ts).
Proof. intros t d. apply deps_of_foldl_mono. Qed.

(** The branch that reads a word keeps the shape. *)
Lemma loader_wf_word (rules0 : list rule_t) (deps0 : gmap string (gset string))
    (c : option ascii) (i1 : istream) (l l' : loader) :
  loader_wf rules0 deps0 l -> load_rules_word c i1 l = Ret l' ->
  loader_wf rules0 deps0 l'.
Proof.
  intros ((new & Hrules & Hnew) & Hcur & Hst & Hinc). unfold load_rules_word.
  destruct (read_word _) as [file i2].
  set (state := ld_state l) in *.
  set (rules1 := if decide (state = Script) then push_current l else ld_rules l).
  set (current1 := if decide (state = Script) then empty_rule else ld_current l).
  assert (Hrules1 : exists new1, rules1 = (rules0 ++ new1)%list /\
                      Forall wf_rule new1).
  { unfold rules1. case_decide as Hs.
    - exists (new ++ [mk_rule (generic (ld_current l)) (targets (ld_current l))
                        (deps (ld_current l)) (ld_buf l)])%list.
      unfold push_current. rewrite Hrules, <- app_assoc. split; [done|].
      apply Forall_app. split; [done|]. apply Forall_singleton.
      split; [|done]. cbn. intros Hnil. apply Hst in Hnil. congruence.
    - by exists new. }
  assert (Hcur1 : rule_shape current1).
  { unfold current1. case_decide; [apply rule_shape_empty|done]. }
  assert (Hst1 : (state = Bof \/ state = Script) <-> targets current1 = []).
  { unfold current1. case_decide as Hs.
    - split; [done|auto].
    - rewrite <- Hst. split; [by intros [|]|auto]. }
  clearbody rules1 current1.
  destruct Hcur1 as (Hts & Hnogen & Hds & Hne).
  case_decide as Hfile; [done|].
  unfold loader_wf.
  destruct (bool_decide (is_Some (string_find PERCENT file))) eqn:Hp; cbn [andb negb].
  - destruct (bool_decide (state = Tgt \/ state = Dep) && negb (generic current1))
      eqn:Herr; [done|].
    apply andb_false_iff in Herr.
    assert (Hyp : has_percent file = true) by done.
    destruct (decide (state = Dep)) as [Hs|Hs]; intros [= <-]; cbn.
    + assert (Hg : generic current1 = true).
      { destruct Herr as [Herr|Herr].
        - apply bool_decide_eq_false in Herr. destruct Herr. auto.
        - by apply negb_false_iff in Herr. }
      assert (Hnn : targets current1 <> []).
      { intros Hnil. apply Hst1 in Hnil. rewrite Hs in Hnil. by destruct Hnil. }
      split; [done|]. split; [|split; [|done]].
      * split; [|split; [|split]]; cbn.
        -- intros t Ht. rewrite <- Hg. by apply Hts.
        -- done.
        -- done.
        -- intros d [Hd| ->]%elem_of_snoc; [by apply Hne|done].
      * rewrite Hs. done.
    + assert (Hg : targets current1 <> [] -> generic current1 = true).
      { intros Hnn. destruct Herr as [Herr|Herr].
        - apply bool_decide_eq_false in Herr. destruct Hnn. apply Hst1.
          destruct state; try done; auto; destruct Herr; auto.
        - by apply negb_false_iff in Herr. }
      split; [done|]. split; [|split; [|done]].
      * split; [|split; [|split]]; cbn.
        -- intros t [Ht| ->]%elem_of_snoc; [|done].
           rewrite <- Hg; [by apply Hts|]. intros Hnil. rewrite Hnil in Ht.
           by apply not_elem_of_nil in Ht.
        -- by intros [_ ?]%app_eq_nil.
        -- done.
        -- done.
      * split; [done|]. by intros [_ ?]%app_eq_nil.
  - destruct (bool_decide (state = Tgt) && generic current1) eqn:Herr; [done|].
    apply andb_false_iff in Herr.
    assert (Hnp : has_percent file = false) by done.
    destruct (decide (state = Dep)) as [Hs|Hs]; intros [= <-]; cbn.
    + assert (Hnn : targets current1 <> []).
      { intros Hnil. apply Hst1 in Hnil. rewrite Hs in Hnil. by destruct Hnil. }
      split; [done|]. split; [|split].
      * split; [|split; [|split]]; cbn.
        -- done.
        -- done.
        -- intros Hg d [Hd| ->]%elem_of_snoc; [by apply Hds|done].
        -- intros d [Hd| ->]%elem_of_snoc; [by apply Hne|done].
      * rewrite Hs. done.
      * destruct (generic current1); [done|].
        eapply deps_included_trans; [exact Hinc|apply deps_included_foldl].
    + assert (Hg : generic current1 = false).
      { destruct Herr as [Herr|Herr]; [|done].
        apply bool_decide_eq_false in Herr. apply Hnogen, Hst1.
        destruct state; try done; auto. }
      split; [done|]. split; [|split; [|done]].
      * split; [|split; [|split]]; cbn.
        -- intros t [Ht| ->]%elem_of_snoc; [by apply Hts|]. by rewrite Hg.
        -- done.
        -- done.
        -- done.
      * split; [done|]. by intros [_ ?]%app_eq_nil.
Qed.

Lemma loader_wf_loop (rules0 : list rule_t) (deps0 : gmap string (gset string))
    (fuel : nat) (l l' : loader) :
  loader_wf rules0 deps0 l -> load_rules_loop fuel l = Ret l' ->
  loader_wf rules0 deps0 l'.
Proof.
  revert l. induction fuel as [|n IH]; intros l Hinv; [done|].
  cbn [load_rules_loop].
  destruct (eofbit (ld_in l)); [by intros [= <-]|].
  destruct (get (ld_in l)) as [c i1].
  destruct (eofbit i1).
  { intros [= <-]. revert Hinv. by apply loader_wf_same. }
  destruct (bool_decide (ld_state l = Script) && bool_decide (c = Some TAB)) eqn:H1.
  { destruct (get_streambuf i1) as [text i2]. apply IH.
    revert Hinv. by apply loader_wf_same. }
  destruct (bool_decide (ld_state l = Script)
            && (bool_decide (c = Some CR) || bool_decide (c = Some LF))) eqn:H2.
  { apply IH. revert Hinv. by apply loader_wf_same. }
  destruct (bool_decide (ld_state l = Dep) && bool_decide (c = Some LF)) eqn:H3.
  { apply IH. revert Hinv. apply loader_wf_same; try done. cbn.
    apply andb_true_iff in H3 as [H3 _]. apply bool_decide_eq_true in H3.
    rewrite H3. done. }
  destruct (bool_decide (ld_state l = Tgt) && bool_decide (c = Some COLON)) eqn:H4.
  { apply IH. revert Hinv. apply loader_wf_same; try done. cbn.
    apply andb_true_iff in H4 as [H4 _]. apply bool_decide_eq_true in H4.
    rewrite H4. done. }
  destruct (load_rules_word c i1 l) as [l1| | | |] eqn:Hw; try done.
  apply IH. by eapply loader_wf_word.
Qed.

(** X7.  The rules [load_rules] appends are well formed, and it keeps what
    it was given: the earlier rules stay in front, the dependency map
    holds all it held, every new rule has a target, the targets of a new
    rule hold a percent sign exactly when the rule is generic, no
    dependency of a rule that is not generic holds one, and no name is
    empty. *)
Theorem load_rules_well_formed (remakefile : string) (rules0 : list rule_t)
    (deps0 : gmap string (gset string)) (rules' : list rule_t)
    (deps' : gmap string (gset string)) :
  load_rules (Some remakefile) rules0 deps0 = Ret (rules', deps') ->
  exists new,
    rules' = (rules0 ++ new)%list /\ Forall wf_rule new /\
    deps_included deps0 deps'.
Proof.
  unfold load_rules.
  destruct (load_rules_loop _ _) as [l| | | |] eqn:Hloop; try done.
  intros [= <- <-].
  assert (Hinit : loader_wf rules0 deps0
            (mk_loader (open_stream remakefile) empty_rule "" Bof 1 rules0 deps0)).
  { split; [|split; [apply rule_shape_empty|split; [done|apply deps_included_refl]]].
    exists []. by rewrite app_nil_r. }
  destruct (loader_wf_loop _ _ _ _ _ Hinit Hloop)
    as ((new & Hrules & Hnew) & Hcur & Hst & Hinc).
  case_decide as Hs.
  - by exists new.
  - exists (new ++ [mk_rule (generic (ld_current l)) (targets (ld_current l))
                      (deps (ld_current l)) (ld_buf l)])%list.
    unfold push_current. rewrite Hrules, <- app_assoc. split; [done|].
    split; [|done]. apply Forall_app. split; [done|]. apply Forall_singleton.
    split; [|done]. cbn. intros Hnil. by apply Hst in Hnil.
Qed.

Lemma load_rules_well_formed_witness :
  exists new,
    [mk_rule true ["%.o"] ["%.c"] ""; mk_rule false ["a"; "b"] ["c"] ""] =
    ([] ++ new)%list /\
    Forall wf_rule new /\
    deps_included ∅ {[ "a" := {[ "c" ]}; "b" := {[ "c" ]} ]}.
Proof.
  apply (load_rules_well_formed ("%.o: %.c" +:+ String LF "a b: c")).
  by vm_compute.
Defined.

(** X8.  [load_rules] comes to an end on every rule file: with the rules
    and the dependency map, or with its syntax error.  Without a rule file
    it stops with its other error. *)
Theorem load_rules_ends (content : string) (rules : list rule_t)
    (dm : gmap string (gset string)) :
  ((exists r, load_rules (Some content) rules dm = Ret r) \/
   load_rules (Some content) rules dm = Fatal syntax_error) /\
  load_rules None rules dm = Fatal "Failed to load rules: no Remakefile found".
Proof. split; [apply load_rules_total|done]. Qed.

(** ** The rule matcher *)

Lemma instantiate_lists (target j stem : string) (i : rule_t) :
  j ∈ targets i -> pattern_matches target j stem ->
  target ∈ targets (instantiate i stem).
Proof.
  intros Hj (prefix & suffix & -> & Hfind & -> & _). cbn.
  apply list_elem_of_fmap. exists (prefix +:+ String PERCENT suffix).
  split; [|done]. by rewrite substitute1_pattern.
Qed.

Lemma find_rule_loop_lists (target : string) (rules : list rule_t) (plen : Z)
    (rule : rule_t) :
  slen target < 2 ^ 64 ->
  generic rule = false /\ (rule = empty_rule \/ target ∈ targets rule) ->
  generic (find_rule_loop target plen rule rules) = false /\
  (find_rule_loop target plen rule rules = empty_rule \/
   target ∈ targets (find_rule_loop target plen rule rules)).
Proof.
  intros Hlen. revert plen rule.
  induction rules as [|i rules IH]; intros plen rule Hrule; [done|].
  cbn [find_rule_loop]. destruct (generic i) eqn:Hg.
  - destruct (scan_generic_cases target i plen (targets i) Hg Hlen)
      as [[-> _]|(j & s & Hj & Hm & _ & ->)]; [by apply IH|].
    apply IH. split; [done|]. right. by eapply instantiate_lists.
  - rewrite (scan_nongeneric _ _ _ _ Hg). case_decide; [|by apply IH].
    split; [done|]. by right.
Qed.

(** X9.  The rule [find_rule] returns is never generic, and it is the
    empty rule or a rule that lists the target among its targets: a rule
    that is not generic as the rule file gave it, or a generic rule with
    the stem substituted into a pattern that thereby becomes the target. *)
Theorem find_rule_lists_target (rules : list rule_t) (target : string) :
  slen target < 2 ^ 64 ->
  generic (find_rule rules target) = false /\
  (find_rule rules target = empty_rule \/
   target ∈ targets (find_rule rules target)).
Proof.
  intros Hlen. apply find_rule_loop_lists; [done|]. split; [done|by left].
Qed.

Lemma find_rule_lists_target_witness :
  generic (find_rule [rule_o; rule_foo_o] "foo.bar.o") = false /\
  (find_rule [rule_o; rule_foo_o] "foo.bar.o" = empty_rule \/
   "foo.bar.o" ∈ targets (find_rule [rule_o; rule_foo_o] "foo.bar.o")).
Proof. apply (find_rule_lists_target [rule_o; rule_foo_o] "foo.bar.o"). by vm_compute. Defined.

(** X10.  The stem limit: when no rule lists the target verbatim and the
    patterns of the generic rules match it only with stems of 10000
    characters or more, [find_rule] returns the empty rule, as if no rule
    matched. *)
Theorem find_rule_long_stem (rules : list rule_t) (target : string) :
  slen target < 2 ^ 64 ->
  (forall r, r ∈ rules -> ~ rule_lists target r) ->
  (forall r s, r ∈ rules -> rule_matches target r s -> 10000 <= slen s) ->
  find_rule rules target = empty_rule.
Proof. intros Hlen Hno Hlong. by apply find_rule_loop_none. Qed.

Lemma find_rule_long_stem_witness :
  find_rule [mk_rule true ["%"] [] "any"] (string_repeat "a" (Z.to_nat 10000))
  = empty_rule.
Proof.
  apply (find_rule_long_stem [mk_rule true ["%"] [] "any"]
           (string_repeat "a" (Z.to_nat 10000))).
  - by vm_compute.
  - intros r ->%list_elem_of_singleton [H _]. done.
  - intros r s ->%list_elem_of_singleton (_ & j & ->%list_elem_of_singleton & Hm).
    assert (Hs : pattern_matches (string_repeat "a" (Z.to_nat 10000)) "%"
                   (string_repeat "a" (Z.to_nat 10000))).
    { exists "", "". repeat split; done. }
    rewrite (pattern_matches_fun _ _ _ _ Hm Hs). by vm_compute.
Defined.


(** ** The status cache *)

(** X11.  [get_status] writes to the status cache and the dependency map
    and to nothing else; it keeps every entry the cache held, and all it
    does to the dependency map is to give an empty set to names that had
    none. *)
Theorem get_status_frame (target : string) (st : state) :
  exists ts st',
    get_status target st = Some (ts, st') /\
    st' = set_deps (st_deps st') (set_status (st_status st') st) /\
    (forall x v, st_status st !! x = Some v -> st_status st' !! x = Some v) /\
    (forall x, st_deps st' !! x = st_deps st !! x \/
               (st_deps st !! x = None /\ st_deps st' !! x = Some ∅)).
Proof.
  destruct (get_status_is_Some target st) as [[ts st'] H].
  exists ts, st'. split; [done|].
  destruct (get_status_fuel_spec _ _ _ _ _ H) as [[(H1 & H2 & H3) _] _].
  split; [done|]. split; [done|].
  intros x. destruct (H3 x) as [?|(? & ? & _)]; auto.
Qed.

(** X12.  [get_status] leaves no placeholder behind: if every target the
    cache held as up to date was a file that [stat] finds, this still
    holds when [get_status] returns, also for the entries it added. *)
Theorem get_status_sound (target : string) (st : state) :
  exists ts st',
    get_status target st = Some (ts, st') /\
    (cache_sound st -> cache_sound st').
Proof.
  destruct (get_status_is_Some target st) as [[ts st'] H].
  exists ts, st'. split; [done|]. intros Hs.
  by apply (get_status_fuel_sound _ _ _ _ _ Hs H).
Qed.

(** ** What the functions of the server leave alone *)

Lemma kp_ret {A B : Type} (f : state -> B) (a : A) : keeps f (ret a).
Proof. by intros st. Qed.

Lemma kp_stop {A B : Type} (f : state -> B) (r : result A) : keeps f (stop r).
Proof. by intros st. Qed.

Lemma kp_get_state {B : Type} (f : state -> B) : keeps f get_state.
Proof. by intros st. Qed.

Lemma kp_modify {B : Type} (f : state -> B) (g : state -> state) :
  (forall st, f (g st) = f st) -> keeps f (modify g).
Proof. intros H st. apply H. Qed.

Lemma kp_assert {B : Type} (f : state -> B) (c : bool) : keeps f (assert c).
Proof. by destruct c. Qed.

Lemma kp_bind {A A' B : Type} (f : state -> B) (m : M A) (k : A -> M A') :
  keeps f m -> (forall a, keeps f (k a)) -> keeps f (bind m k).
Proof.
  intros Hm Hk st. unfold bind. specialize (Hm st).
  destruct (m st) as [[a| | | |] st1]; try done.
  cbn in Hm. rewrite <- Hm. apply Hk.
Qed.

Section Frame.

Context {B : Type} (f : state -> B).

Hypothesis f_deps : forall v st, f (set_deps v st) = f st.
Hypothesis f_status : forall v st, f (set_status v st) = f st.
Hypothesis f_job_targets : forall v st, f (set_job_targets v st) = f st.
Hypothesis f_job_pids : forall v st, f (set_job_pids v st) = f st.
Hypothesis f_clients : forall v st, f (set_clients v st) = f st.
Hypothesis f_running_jobs : forall v st, f (set_running_jobs v st) = f st.
Hypothesis f_waiting_jobs : forall v st, f (set_waiting_jobs v st) = f st.
Hypothesis f_job_counter : forall v st, f (set_job_counter v st) = f st.
Hypothesis f_build_failure : forall v st, f (set_build_failure v st) = f st.
Hypothesis f_files : forall v st, f (set_files v st) = f st.
Hypothesis f_forks : forall v st, f (set_forks v st) = f st.
Hypothesis f_events : forall v st, f (set_events v st) = f st.
Hypothesis f_sent : forall v st, f (set_sent v st) = f st.

Ltac frame_setters :=
  repeat first
    [ rewrite f_deps | rewrite f_status | rewrite f_job_targets
    | rewrite f_job_pids | rewrite f_clients | rewrite f_running_jobs
    | rewrite f_waiting_jobs | rewrite f_job_counter | rewrite f_build_failure
    | rewrite f_files | rewrite f_forks | rewrite f_events | rewrite f_sent ].

Ltac frame_modify :=
  apply kp_modify; intros ?; repeat case_match;
  try (apply (proj_foldl f); intros ? ?); cbn beta;
  unfold fail_target, remove_file; frame_setters; reflexivity.

Ltac frame_step :=
  match goal with
  | H : context [keeps f _] |- keeps f _ => apply H
  | |- keeps f (bind _ _) => apply kp_bind; [|intros ?]
  | |- keeps f (ret _) => apply kp_ret
  | |- keeps f (stop _) => apply kp_stop
  | |- keeps f get_state => apply kp_get_state
  | |- keeps f (assert _) => apply kp_assert
  | |- keeps f (modify _) => frame_modify
  | |- keeps f (match ?x with _ => _ end) => destruct x
  end.

Lemma kp_get_status_m (target : string) : keeps f (get_status_m target).
Proof.
  intros st. unfold get_status_m.
  destruct (get_status target st) as [[ts st']|] eqn:H; [|done].
  destruct (get_status_fuel_spec _ _ _ _ _ H) as [[(F & _ & _) _] _].
  cbn. rewrite F. by frame_setters.
Qed.

Lemma kp_complete_job (job : Z) (success : bool) :
  keeps f (complete_job job success).
Proof. unfold complete_job. repeat frame_step. Qed.

Lemma kp_run_script (job : Z) (rule : rule_t) : keeps f (run_script job rule).
Proof. pose proof kp_complete_job. unfold run_script. repeat frame_step. Qed.

Lemma kp_start (target : string) (i : nat) : keeps f (start target i).
Proof.
  pose proof kp_run_script. unfold start. repeat frame_step.
Qed.

Lemma kp_client_at (i : nat) : keeps f (client_at i).
Proof. unfold client_at. repeat frame_step. Qed.

Lemma kp_update_client (i : nat) (g : client_t -> client_t) :
  keeps f (update_client i g).
Proof. unfold update_client. repeat frame_step. Qed.

Lemma kp_erase_client (i : nat) : keeps f (erase_client i).
Proof. unfold erase_client. repeat frame_step. Qed.

Lemma kp_complete_request (client : client_t) (success : bool) :
  keeps f (complete_request client success).
Proof.
  pose proof kp_run_script. pose proof kp_complete_job.
  unfold complete_request. repeat frame_step.
Qed.

Lemma kp_fail_client (i : nat) : keeps f (fail_client i).
Proof.
  pose proof kp_client_at. pose proof kp_complete_request.
  pose proof kp_erase_client. unfold fail_client. repeat frame_step.
Qed.

Lemma kp_drain (fuel : nat) (i : nat) : keeps f (drain fuel i).
Proof.
  pose proof kp_client_at. pose proof kp_start. pose proof kp_update_client.
  pose proof kp_get_status_m.
  revert i. induction fuel as [|n IH]; intros i; cbn [drain]; repeat frame_step.
Qed.

Lemma kp_handle_client (fuel : nat) (i : nat) : keeps f (handle_client fuel i).
Proof.
  pose proof kp_client_at. pose proof kp_fail_client. pose proof kp_drain.
  pose proof kp_complete_request. pose proof kp_update_client.
  pose proof kp_erase_client. unfold handle_client. repeat frame_step.
Qed.

Lemma kp_update_clients_loop (fuel : nat) (i : nat) :
  keeps f (update_clients_loop fuel i).
Proof.
  pose proof kp_handle_client.
  revert i. induction fuel as [|n IH]; intros i; cbn [update_clients_loop];
    repeat frame_step.
Qed.

Lemma kp_accept_client (conn : connection) : keeps f (accept_client conn).
Proof. unfold accept_client. repeat frame_step. Qed.

Lemma kp_reap (children : list (positive * wait_status)) :
  keeps f (reap children).
Proof.
  pose proof kp_complete_job.
  induction children as [|[pid ws] children IH]; cbn [reap]; repeat frame_step.
Qed.

Lemma kp_server_loop (fuel : nat) : keeps f (server_loop fuel).
Proof.
  pose proof kp_update_clients_loop. pose proof kp_accept_client.
  pose proof kp_reap.
  induction fuel as [|n IH]; cbn [server_loop]; unfold update_clients;
    repeat frame_step.
Qed.

End Frame.

(** ** Starting jobs *)

Lemma start_targets_eq (ds : list string) (ts : list string) (st : state) :
  foldl (start_target ds) st ts =
  set_deps (foldl (fun m t => <[t := list_to_set ds]> m) (st_deps st) ts)
    (set_status (foldl (fun m t => mark t Running m) (st_status st) ts) st).
Proof.
  revert st. induction ts as [|t ts IH]; intros st; [by destruct st|].
  cbn [foldl]. rewrite IH. unfold start_target at 3. by rewrite set_cache_twice.
Qed.

Lemma insert_all_lookup {V : Type} (v : V) (ts : list string)
    (m : gmap string V) (x : string) :
  foldl (fun m t => <[t := v]> m) m ts !! x =
  if decide (x ∈ ts) then Some v else m !! x.
Proof.
  revert m. induction ts as [|t ts IH]; intros m.
  { cbn. rewrite decide_False; [done|]. apply not_elem_of_nil. }
  cbn [foldl]. rewrite IH.
  destruct (decide (x ∈ ts)) as [Hin|Hnin].
  - rewrite decide_True; [done|]. by apply list_elem_of_further.
  - destruct (decide (x = t)) as [->|Hne].
    + rewrite decide_True by apply list_elem_of_here. apply lookup_insert_eq.
    + rewrite decide_False; [by apply lookup_insert_ne|].
      intros [?|?]%elem_of_cons; done.
Qed.

(** X13.  A target that no rule lists verbatim and no pattern of a generic
    rule matches cannot be started: [start] marks it [Failed] and returns
    false; no job number is used and nothing else changes. *)
Theorem start_no_rule (target : string) (i : nat) (st : state) :
  slen target < 2 ^ 64 ->
  (forall r, r ∈ st_rules st -> ~ rule_lists target r) ->
  (forall r s, r ∈ st_rules st -> ~ rule_matches target r s) ->
  start target i st =
  (Ret (false, false), set_status (mark target Failed (st_status st)) st).
Proof.
  intros Hlen Hno Hnm. unfold start, bind, get_state.
  assert (E : find_rule (st_rules st) target = empty_rule).
  { apply find_rule_loop_none; [done|done|]. intros r s Hr Hm.
    by destruct (Hnm r s Hr). }
  by rewrite E.
Qed.

Lemma start_no_rule_witness :
  start "zzz" 0 (initial_state ∅ [] [] true) =
  (Ret (false, false),
   set_status (mark "zzz" Failed ∅) (initial_state ∅ [] [] true)).
Proof.
  apply (start_no_rule "zzz" 0%nat (initial_state ∅ [] [] true)).
  - by vm_compute.
  - intros r Hr. by apply not_elem_of_nil in Hr.
  - intros r s Hr. by apply not_elem_of_nil in Hr.
Defined.

(** X14.  For a rule with dependencies [start] forks nothing: it returns
    true, inserts before the current client a dependency client for the
    job, with the dependencies pending and the rule, stripped of them,
    delayed; it enters the targets of the rule in the job table under the
    job counter and steps the counter.  Every target of the rule is then
    [Running] and has the dependencies of the rule, and no other, as its
    recorded dependencies. *)
Theorem start_with_deps (target : string) (i : nat) (st : state) :
  let rule := find_rule (st_rules st) target in
  targets rule <> [] -> deps rule <> [] ->
  exists st',
    start target i st = (Ret (true, true), st') /\
    st_clients st' =
      insert_at i (dependency_client (st_job_counter st) rule) (st_clients st) /\
    st_job_targets st' =
      <[st_job_counter st := targets rule]> (st_job_targets st) /\
    st_job_counter st' = st_job_counter st + 1 /\
    st_forks st' = st_forks st /\
    st_running_jobs st' = st_running_jobs st /\
    forall t, t ∈ targets rule ->
      st_status st' !! t =
        Some (mk_status Running (default 0 (last <$> st_status st !! t))) /\
      st_deps st' !! t = Some (list_to_set (deps rule)).
Proof.
  intros rule Ht Hd. unfold start, bind, get_state, modify. fold rule.
  destruct (targets rule) as [|t0 ts] eqn:Hts; [done|].
  destruct (deps rule) as [|d0 ds] eqn:Hds; [done|].
  cbv beta iota. rewrite <- Hts, <- Hds.
  change (fun st0 t => set_deps _ _) with (start_target (deps rule)).
  rewrite start_targets_eq. cbn [fst snd].
  eexists. split; [reflexivity|]. cbn.
  split; [done|]. split; [done|]. split; [done|]. split; [done|].
  split; [done|]. intros t Hin. split.
  - by rewrite mark_all_lookup, decide_True.
  - by rewrite insert_all_lookup, decide_True.
Qed.

Lemma start_with_deps_witness :
  let st := set_rules [mk_rule false ["a"; "b"] ["c"] "touch a b"]
              (initial_state ∅ [] [] true) in
  exists st',
    start "a" 0 st = (Ret (true, true), st') /\
    st_clients st' =
      [mk_client (-1) 0 ["c"] ∅ (Some (mk_rule false ["a"; "b"] [] "touch a b"))] /\
    st_job_targets st' !! 0 = Some ["a"; "b"] /\
    st_deps st' !! "b" = Some {[ "c" ]}.
Proof.
  intros st.
  destruct (start_with_deps "a" 0%nat st) as (st' & H1 & H2 & H3 & _ & _ & _ & H4);
    [by vm_compute|by vm_compute|].
  exists st'. split; [exact H1|]. split; [exact H2|].
  split; [by rewrite H3|].
  destruct (H4 "b") as [_ Hb]; [by vm_compute; right; left|].
  rewrite Hb. by vm_compute.
Defined.

(** X15.  For a rule without dependencies [start] forks at once.  When
    [fork] gives a process, the process is entered in the table of
    processes under the job, the count of running jobs goes up by one, the
    job is entered in the job table and the job counter steps; [start]
    returns true.  When [fork] fails, the job is completed as failed
    before it was entered in the job table, and the assertion of
    [complete_job] fails. *)
Theorem start_without_deps (target : string) (i : nat) (st : state) :
  let rule := find_rule (st_rules st) target in
  targets rule <> [] -> deps rule = [] ->
  st_job_targets st !! st_job_counter st = None ->
  match st_forks st with
  | Some pid :: forks =>
      exists st',
        start target i st = (Ret (true, false), st') /\
        st_job_pids st' = <[pid := st_job_counter st]> (st_job_pids st) /\
        st_running_jobs st' = st_running_jobs st + 1 /\
        st_job_targets st' =
          <[st_job_counter st := targets rule]> (st_job_targets st) /\
        st_job_counter st' = st_job_counter st + 1 /\
        st_forks st' = forks /\
        st_clients st' = st_clients st
  | _ => (start target i st).1 = Abort
  end.
Proof.
  intros rule Ht Hd Hfresh. unfold start, bind, get_state, modify. fold rule.
  destruct (targets rule) as [|t0 ts] eqn:Hts; [done|].
  rewrite Hd. cbv beta iota. rewrite <- Hts.
  change (fun st0 t => set_deps _ _) with (start_target []).
  rewrite start_targets_eq. unfold run_script, bind, get_state, modify. cbn.
  destruct (st_forks st) as [|[pid|] forks]; cbn.
  - unfold complete_job, bind, get_state. cbn. by rewrite Hfresh.
  - eexists. split; [reflexivity|]. done.
  - unfold complete_job, bind, get_state. cbn. by rewrite Hfresh.
Qed.

Lemma start_without_deps_witness :
  exists st',
    start "a" 0 (set_rules [mk_rule false ["a"] [] "touch a"]
                   (initial_state ∅ [Some 7%positive] [] true)) =
      (Ret (true, false), st') /\
    st_job_pids st' !! 7%positive = Some 0 /\
    st_running_jobs st' = 1 /\
    (start "a" 0 (set_rules [mk_rule false ["a"] [] "touch a"]
                    (initial_state ∅ [None] [] true))).1 = Abort.
Proof.
  pose proof (start_without_deps "a" 0%nat
                (set_rules [mk_rule false ["a"] [] "touch a"]
                   (initial_state ∅ [Some 7%positive] [] true))) as H1.
  destruct H1 as (st' & H1 & H2 & H3 & _); [by vm_compute..|].
  pose proof (start_without_deps "a" 0%nat
                (set_rules [mk_rule false ["a"] [] "touch a"]
                   (initial_state ∅ [None] [] true))) as H4.
  exists st'. split; [exact H1|]. split; [by rewrite H2|]. split; [exact H3|].
  apply H4; by vm_compute.
Defined.

(** ** Replies *)

(** X16.  [complete_request] answers real clients and no other: for a
    client with a socket and no delayed rule it sends the one byte of the
    reply on that socket and takes one off the count of waiting jobs; for
    a dependency client or a seed client it sends nothing and leaves the
    count alone, however the script it may start ends. *)
Theorem complete_request_reply (client : client_t) (success : bool) (st : state) :
  let st' := (complete_request client success st).2 in
  let real := bool_decide (delayed client = None) && (0 <=? fd client) in
  st_sent st' = (st_sent st ++ if real then [(fd client, success)] else [])%list /\
  st_waiting_jobs st' = st_waiting_jobs st - (if real then 1 else 0).
Proof.
  intros st' real.
  assert (Hkeep : real = false ->
            keeps (fun s => (st_sent s, st_waiting_jobs s))
              (complete_request client success)).
  { intros Hreal. unfold complete_request. apply kp_bind.
    - destruct (delayed client) as [rule|] eqn:Hd.
      + apply kp_bind; [apply kp_assert|]. intros _.
        destruct success; [by apply kp_run_script|by apply kp_complete_job].
      + subst real. rewrite bool_decide_eq_true_2 in Hreal by done.
        cbn in Hreal. rewrite Hreal. apply kp_ret.
    - intros _. destruct ((job_id client <? 0) && negb success);
        [by apply kp_modify|apply kp_ret]. }
  destruct real eqn:Hreal.
  - subst real. apply andb_true_iff in Hreal as [Hd Hfd].
    apply bool_decide_eq_true in Hd. subst st'.
    unfold complete_request, bind, modify. rewrite Hd, Hfd. cbn.
    by destruct ((job_id client <? 0) && negb success).
  - specialize (Hkeep eq_refl st). fold st' in Hkeep.
    injection Hkeep as -> ->. split; [by rewrite app_nil_r|lia].
Qed.

(** ** What the server loop leaves alone *)

(** X17.  [server_loop] works with the rules it is given: however long it
    runs and however it ends, the rules, the job limit and the listening
    socket are as they were, and the database has not been written. *)
Theorem server_loop_frame (fuel : nat) (st : state) :
  let st' := (server_loop fuel st).2 in
  st_rules st' = st_rules st /\
  st_max_active_jobs st' = st_max_active_jobs st /\
  st_can_listen st' = st_can_listen st /\
  st_saved st' = st_saved st.
Proof.
  intros st'.
  assert (H : settings st' = settings st) by (by apply kp_server_loop).
  unfold settings in H. by injection H as -> -> -> ->.
Qed.

Lemma saves_at_exit_bind {A B : Type} (m : M A) (k : A -> M B) :
  keeps st_saved m -> no_exit m -> (forall a, saves_at_exit (k a)) ->
  saves_at_exit (bind m k).
Proof.
  intros Hk Hn Hs st Hst. unfold bind. specialize (Hk st). specialize (Hn st).
  destruct (m st) as [[a|c| | |] st1]; cbn in Hk; try congruence.
  - apply Hs. congruence.
  - by destruct (Hn c).
Qed.

Lemma saves_at_exit_early_exit : saves_at_exit early_exit.
Proof. by intros st Hst. Qed.

Lemma kp_saved_load_rules_m : keeps st_saved load_rules_m.
Proof.
  unfold load_rules_m. apply kp_bind; [apply kp_get_state|]. intros st.
  apply kp_bind; [apply kp_stop|]. intros rd. by apply kp_modify.
Qed.

Lemma kp_saved_load_dependencies_m : keeps st_saved load_dependencies_m.
Proof.
  unfold load_dependencies_m. apply kp_bind; [apply kp_get_state|]. intros st.
  apply kp_bind; [apply kp_stop|]. intros rd. by apply kp_modify.
Qed.

Lemma kp_saved_server_loop (fuel : nat) : keeps st_saved (server_loop fuel).
Proof. by apply kp_server_loop. Qed.

Lemma saves_at_exit_serve (fuel : nat) (targets : list string) :
  saves_at_exit (serve fuel targets).
Proof.
  pose proof no_exit_server_loop. pose proof no_exit_load_rules_m.
  unfold serve. apply saves_at_exit_bind;
    [by apply kp_get_status_m|apply no_exit_get_status_m|].
  intros ts. apply saves_at_exit_bind.
  { case_decide; [|apply kp_ret].
    apply kp_bind; [by apply kp_modify|]. intros _.
    apply kp_bind; [apply kp_saved_server_loop|]. intros _.
    apply kp_bind; [apply kp_get_state|]. intros s.
    destruct (st_build_failure s); [apply kp_ret|].
    apply kp_bind; [by apply kp_modify|]. intros _.
    apply kp_bind; [apply kp_saved_load_rules_m|]. intros _. apply kp_ret. }
  { unfold push_seed_client. repeat no_exit_step. }
  intros failed_early. apply saves_at_exit_bind.
  { destruct failed_early; [apply kp_ret|].
    apply kp_bind; [by apply kp_modify|]. intros _. apply kp_saved_server_loop. }
  { unfold push_seed_client. repeat no_exit_step. }
  intros _. apply saves_at_exit_early_exit.
Qed.

(** X18.  The database is written at the final exit of [server_mode] and
    nowhere else: when the process ends by that [exit], what was written
    is the text of [save_dependencies] for the dependency map it ends
    with; when it ends by a fatal error, a failed assertion or the
    recursion bound, nothing was written. *)
Theorem server_mode_saves_at_exit (fuel : nat) (targets : list string)
    (st : state) :
  st_saved st = None ->
  match server_mode fuel targets st with
  | (Exit _, st') => st_saved st' = Some (save_dependencies (st_deps st'))
  | (_, st') => st_saved st' = None
  end.
Proof.
  revert st. change (saves_at_exit (server_mode fuel targets)).
  unfold server_mode.
  apply saves_at_exit_bind;
    [apply kp_saved_load_dependencies_m|apply no_exit_load_dependencies_m|].
  intros _. apply saves_at_exit_bind;
    [apply kp_saved_load_rules_m|apply no_exit_load_rules_m|].
  intros _. apply saves_at_exit_bind; [|apply no_exit_create_server|].
  { unfold create_server. apply kp_bind; [apply kp_get_state|]. intros s.
    destruct (st_can_listen s); [apply kp_ret|apply kp_stop]. }
  intros _. apply saves_at_exit_serve.
Qed.

Lemma server_mode_saves_at_exit_witness :
  st_saved (server_mode 10 ["a"] example_state).2 =
    Some ("a: b " +:+ String LF "") /\
  st_saved (server_mode 10 ["a"] (initial_state ∅ [] [] true)).2 = None.
Proof.
  pose proof (server_mode_saves_at_exit 10 ["a"] example_state eq_refl) as H1.
  pose proof (server_mode_saves_at_exit 10 ["a"] (initial_state ∅ [] [] true)
                eq_refl) as H2.
  split.
  - assert (E : (server_mode 10 ["a"] example_state).1 = Exit 0)
      by (by vm_compute).
    assert (D : save_dependencies
                  (st_deps (server_mode 10 ["a"] example_state).2) =
                "a: b " +:+ String LF "") by (by vm_compute).
    destruct (server_mode 10 ["a"] example_state) as [r st'].
    cbn in E, D. subst r. cbn. by rewrite H1, D.
  - assert (E : (server_mode 10 ["a"] (initial_state ∅ [] [] true)).1 =
                Fatal "Failed to load rules: no Remakefile found")
      by (by vm_compute).
    destruct (server_mode 10 ["a"] (initial_state ∅ [] [] true)) as [r st'].
    cbn in E. subst r. exact H2.
Defined.


(** ** Requests: from [client_mode] to [accept_client] *)

Lemma rev_app_app (s t acc : string) :
  String.rev_app (s +:+ t) acc = String.rev_app t (String.rev_app s acc).
Proof.
  revert acc. induction s as [|a s IH]; intros acc; [done|].
  rewrite app_cons. cbn. apply IH.
Qed.

Lemma string_snoc2_cases (s : string) :
  s = "" \/ (exists a, s = String a "") \/
  exists p a b, s = p +:+ String a (String b "").
Proof.
  induction s as [|c s IH]; [by left|]. right.
  destruct IH as [->|[[a ->]|(p & a & b & ->)]].
  - left. by exists c.
  - right. by exists "", c, a.
  - right. by exists (String c p), a, b.
Qed.

Lemma ends_request_snoc2 (p : string) (a b : ascii) :
  ends_request (p +:+ String a (String b "")) =
  ascii_eqb b NUL && ascii_eqb a NUL.
Proof. unfold ends_request, String.rev. by rewrite rev_app_app. Qed.

(** The request ends when the text ends with two NUL. *)
Lemma ends_request_spec (tbuf : string) :
  ends_request tbuf = true <->
  exists p, tbuf = p +:+ String NUL (String NUL "").
Proof.
  split.
  - destruct (string_snoc2_cases tbuf) as [->|[[a ->]|(p & a & b & ->)]];
      [done|done|].
    rewrite ends_request_snoc2. intros [Hb Ha]%andb_true_iff.
    apply ascii_eqb_eq in Ha, Hb. subst a b. by exists p.
  - intros [p ->]. by rewrite ends_request_snoc2.
Qed.

Lemma nul_free_cons (c : ascii) (t : string) :
  nul_free (String c t) = true -> c <> NUL /\ nul_free t = true.
Proof.
  unfold nul_free. cbn. intros [Hc Ht]%andb_true_iff. split; [|done].
  apply negb_true_iff in Hc. intros ->. by rewrite ascii_eqb_refl in Hc.
Qed.

(** Two NUL in a row within a name and what follows it. *)
Lemma prefix_name (t p Q R : string) :
  nul_free t = true ->
  p +:+ String NUL (String NUL Q) = t +:+ String NUL R ->
  (p = t /\ R = String NUL Q) \/
  (exists p', p = t +:+ String NUL p' /\ p' +:+ String NUL (String NUL Q) = R).
Proof.
  revert p. induction t as [|c t IH]; intros p Ht H.
  - rewrite app_nil_l in H. destruct p as [|c p].
    + rewrite app_nil_l in H. injection H as <-. by left.
    + rewrite app_cons in H. injection H as -> <-. right. by exists p.
  - apply nul_free_cons in Ht as [Hc Ht]. destruct p as [|c2 p].
    + rewrite app_nil_l, app_cons in H. by injection H as <- _.
    + rewrite !app_cons in H. injection H as -> H.
      destruct (IH p Ht H) as [[-> ->]|(p' & -> & <-)]; [by left|].
      right. by exists p'.
Qed.

(** A request holds two NUL in a row at its end and nowhere else. *)
Lemma no_early_end (ts : list string) (p Q : string) :
  Forall target_name ts ->
  p +:+ String NUL (String NUL Q) = request_text ts -> Q = "".
Proof.
  intros Hts. revert p. induction Hts as [|t ts [Hne Ht] Hts IH]; intros p H.
  - cbn in H. destruct p as [|c p].
    + rewrite app_nil_l in H. by injection H.
    + rewrite app_cons in H. injection H as _ H. by destruct p.
  - cbn [request_text] in H.
    destruct (prefix_name t p Q _ Ht H) as [[-> HR]|(p' & -> & HR)].
    + destruct Hts as [|t2 ts2 [Hne2 Ht2] _]; cbn in HR.
      * by injection HR.
      * destruct t2 as [|c t2]; [done|]. apply nul_free_cons in Ht2 as [Hc _].
        rewrite app_cons in HR. by injection HR as -> _.
    + by apply (IH p').
Qed.

Lemma request_text_end (ts : list string) :
  ts <> [] -> exists p, request_text ts = p +:+ String NUL (String NUL "").
Proof.
  induction ts as [|t ts IH]; [done|]. intros _. cbn [request_text].
  destruct ts as [|t2 ts].
  - by exists t.
  - destruct IH as [p ->]; [done|]. exists (t +:+ String NUL p).
    by rewrite app_assoc_s, app_cons.
Qed.

Lemma recv_targets_all (ts : list string) (chunks : list string) (acc : string) :
  Forall target_name ts -> ts <> [] ->
  Forall (fun buf => buf <> "") chunks ->
  acc +:+ chunks_text chunks = request_text ts ->
  acc <> request_text ts ->
  recv_targets chunks acc = Some (request_text ts).
Proof.
  intros Hts Hne. revert acc.
  induction chunks as [|buf chunks IH]; intros acc Hchunks Hcat Hacc.
  - cbn in Hcat. by rewrite app_empty_r in Hcat.
  - apply Forall_cons in Hchunks as [Hbuf Hchunks]. cbn [recv_targets].
    rewrite decide_False by done.
    cbn [chunks_text foldr] in Hcat. fold (chunks_text chunks) in Hcat.
    rewrite <- app_assoc_s in Hcat.
    destruct (ends_request (acc +:+ buf)) eqn:Hend.
    + apply ends_request_spec in Hend as [p Hp]. rewrite Hp in Hcat |- *.
      rewrite app_assoc_s, !app_cons, app_nil_l in Hcat.
      rewrite (no_early_end ts p _ Hts Hcat) in Hcat. by rewrite Hcat.
    + apply IH; [done|done|]. intros E. rewrite E in Hend.
      destruct (request_text_end ts Hne) as [p Hp].
      rewrite Hp, ends_request_snoc2 in Hend. done.
Qed.

Lemma parse_name (t cur rest : string) (acc : list string) :
  nul_free t = true ->
  parse_targets cur (t +:+ String NUL rest) acc =
  if decide (cur +:+ t = "") then (acc, true)
  else parse_targets "" rest (acc ++ [cur +:+ t])%list.
Proof.
  revert cur. induction t as [|c t IH]; intros cur Ht.
  - rewrite app_nil_l, app_empty_r. cbn [parse_targets].
    by rewrite ascii_eqb_refl.
  - apply nul_free_cons in Ht as [Hc Ht]. rewrite app_cons. cbn [parse_targets].
    rewrite (proj2 (ascii_eqb_neq _ _) Hc), IH by done.
    by rewrite snoc_app.
Qed.

Lemma parse_request (ts : list string) (acc : list string) :
  Forall target_name ts ->
  parse_targets "" (request_text ts) acc = ((acc ++ ts)%list, true).
Proof.
  intros Hts. revert acc. induction Hts as [|t ts [Hne Ht] Hts IH]; intros acc.
  - cbn. by rewrite app_nil_r.
  - cbn [request_text]. rewrite parse_name by done.
    rewrite app_nil_l, decide_False by done.
    by rewrite IH, <- app_assoc.
Qed.

(** X19.  A request survives the socket.  For a list of targets that is
    not empty, of names that are not empty and hold no NUL, the bytes
    [client_mode] sends (each name and a NUL, then a NUL), in whatever
    pieces [recv] delivers them, are received whole by the loop of
    [accept_client], which stops at the last of them, and they are cut
    back into the same names in the same order, the empty name that ends
    the request found. *)
Theorem request_round_trip (ts : list string) (chunks : list string) :
  ts <> [] -> Forall target_name ts ->
  Forall (fun buf => buf <> "") chunks ->
  chunks_text chunks = request_text ts ->
  recv_targets chunks "" = Some (request_text ts) /\
  parse_targets "" (request_text ts) [] = (ts, true).
Proof.
  intros Hne Hts Hchunks Hcat. split.
  - apply recv_targets_all; [done|done|done|exact Hcat|].
    destruct ts as [|[|c t] ts]; [done|by apply Forall_cons in Hts as [[? _] _]|].
    done.
  - by rewrite parse_request.
Qed.

Lemma request_round_trip_witness :
  recv_targets ["ma"; "in.o" +:+ String NUL "li"; "b.a" +:+ String NUL (String NUL "")] ""
    = Some (request_text ["main.o"; "lib.a"]) /\
  parse_targets "" (request_text ["main.o"; "lib.a"]) [] =
    (["main.o"; "lib.a"], true).
Proof.
  apply (request_round_trip ["main.o"; "lib.a"]
           ["ma"; "in.o" +:+ String NUL "li"; "b.a" +:+ String NUL (String NUL "")]).
  - done.
  - repeat (apply Forall_cons; split; [by split|]). by apply Forall_nil.
  - repeat (apply Forall_cons; split; [done|]). by apply Forall_nil.
  - by vm_compute.
Defined.

(** ** The client *)

Lemma send_all_enough (budget : nat) (msgs : list syscall)
    (reply : option ascii) (done : list syscall) :
  (length msgs <= budget)%nat ->
  send_all budget msgs reply done =
  (match reply with
   | Some c => if ascii_eqb c NUL then 1 else 0
   | None => 1
   end, (done ++ msgs ++ [Sys_recv])%list).
Proof.
  revert budget done. induction msgs as [|m msgs IH]; intros budget done Hlen.
  - destruct budget; cbn; by destruct reply.
  - destruct budget as [|budget]; [cbn in Hlen; lia|]. cbn [send_all].
    rewrite IH by (cbn in Hlen; lia). by rewrite <- app_assoc.
Qed.

Lemma sent_bytes_app (a b : list syscall) :
  sent_bytes (a ++ b) = sent_bytes a +:+ sent_bytes b.
Proof.
  induction a as [|c a IH]; [done|]. destruct c; cbn; try done.
  by rewrite IH, app_assoc_s.
Qed.

Lemma sent_bytes_targets (ts : list string) :
  sent_bytes (map (fun t => Sys_send (string_snoc t NUL)) ts
              ++ [Sys_send (String NUL ""); Sys_recv]) = request_text ts.
Proof.
  induction ts as [|t ts IH]; [done|]. cbn [map app sent_bytes request_text].
  by rewrite IH, snoc_app.
Qed.

(** X20.  A client that connects and whose calls to [send] all succeed
    sends the job number and then the bytes of the request for its
    targets, each name and a NUL, then a NUL; it then waits for the reply
    and exits with status 0 when the byte of the reply is not zero, and
    with status 1 when it is zero or when none comes. *)
Theorem client_mode_request (atoi : string -> Z) (sun_path_size : Z)
    (env_job_id : option string) (w : client_world) (socket_name : string)
    (targets : list string) :
  targets <> [] -> slen socket_name < sun_path_size - 1 ->
  0 <= cw_socket w -> cw_connect w = true ->
  (length targets + 2 <= cw_sends w)%nat ->
  let r := client_mode atoi sun_path_size env_job_id w socket_name targets in
  sent_bytes r.2 = request_text targets /\
  r.2 = ([Sys_socket; Sys_connect socket_name;
          Sys_send_int (match env_job_id with Some id => atoi id | None => -1 end)]
         ++ map (fun t => Sys_send (string_snoc t NUL)) targets
         ++ [Sys_send (String NUL ""); Sys_recv])%list /\
  r.1 = match cw_reply w with
        | Some c => if ascii_eqb c NUL then 1 else 0
        | None => 1
        end.
Proof.
  intros Hne Hname Hsock Hconn Hsends r. subst r. unfold client_mode.
  destruct targets as [|t ts] eqn:Ht; [done|]. rewrite <- Ht in *.
  destruct (Z.leb_spec (sun_path_size - 1) (slen socket_name)) as [?|_]; [lia|].
  destruct (Z.ltb_spec (cw_socket w) 0) as [?|_]; [lia|].
  rewrite Hconn. cbn [negb]. rewrite send_all_enough.
  - cbn [fst snd]. split; [|split; [|done]].
    + cbn [app sent_bytes]. rewrite <- app_assoc. apply sent_bytes_targets.
    + cbn [app]. by rewrite <- app_assoc.
  - cbn [length]. rewrite List.length_app, List.length_map. cbn. lia.
Qed.

Lemma client_mode_request_witness :
  let r := client_mode (fun _ => 3) 108 (Some "3")
             (mk_client_world 4 true 5 (Some "001"%char)) "/tmp/rmk-1"
             ["b"; "c"] in
  sent_bytes r.2 = request_text ["b"; "c"] /\ r.1 = 0.
Proof.
  intros r.
  destruct (client_mode_request (fun _ => 3) 108 (Some "3")
              (mk_client_world 4 true 5 (Some "001"%char)) "/tmp/rmk-1"
              ["b"; "c"]) as (H1 & _ & H3); try done; try (by vm_compute).
  cbn. lia.
Defined.

Lemma send_all_status (budget : nat) (msgs : list syscall)
    (reply : option ascii) (done : list syscall) :
  let r := send_all budget msgs reply done in
  (r.1 = 0 \/ r.1 = 1) /\
  (r.1 = 0 -> exists c, reply = Some c /\ c <> NUL).
Proof.
  revert budget done. induction msgs as [|m msgs IH]; intros budget done.
  - assert (E : send_all budget [] reply done =
                (match reply with
                 | Some c => if ascii_eqb c NUL then 1 else 0
                 | None => 1
                 end, (done ++ [Sys_recv])%list)).
    { destruct budget; cbn; by destruct reply. }
    rewrite E. destruct reply as [c|]; cbn.
    + destruct (ascii_eqb c NUL) eqn:Hc; cbn.
      * split; [by right|done].
      * split; [by left|]. intros _. exists c. split; [done|].
        by apply ascii_eqb_neq.
    + split; [by right|done].
  - destruct budget as [|budget]; cbn [send_all].
    + cbn. split; [by right|done].
    + apply IH.
Qed.

(** X21.  [client_mode] exits with status 0 or 1, and with 0 only when
    there is no target or when the server sent a byte that is not zero:
    a socket name too long, a socket, a connection or a send that fails,
    a connection closed before the reply, and the reply 0 all give 1. *)
Theorem client_mode_exit_status (atoi : string -> Z) (sun_path_size : Z)
    (env_job_id : option string) (w : client_world) (socket_name : string)
    (targets : list string) :
  let r := client_mode atoi sun_path_size env_job_id w socket_name targets in
  (r.1 = 0 \/ r.1 = 1) /\
  (r.1 = 0 -> targets = [] \/ exists c, cw_reply w = Some c /\ c <> NUL).
Proof.
  intros r. subst r. unfold client_mode.
  destruct targets as [|t ts]. { split; [by left|]. by left. }
  destruct (_ <=? _). { split; [by right|done]. }
  destruct (_ <? _). { split; [by right|done]. }
  destruct (negb _). { split; [by right|done]. }
  destruct (send_all_status (cw_sends w)
              (Sys_send_int (match env_job_id with
                             | Some id => atoi id
                             | None => -1
                             end)
               :: map (fun t => Sys_send (string_snoc t NUL)) (t :: ts)
               ++ [Sys_send (String NUL "")])
              (cw_reply w) [Sys_socket; Sys_connect socket_name]) as [H1 H2].
  split; [exact H1|]. intros H. right. by apply H2.
Qed.

(** ** The command line *)

(** X22.  When the loop of [main] over the arguments does not end in
    [usage], the targets it leaves are the arguments that do not start
    with a dash, in their order, after the ones it was given, and no
    argument was empty. *)
Theorem parse_args_targets (atoi : string -> Z) (args : list string)
    (jobs : Z) (targets : list string) (jobs' : Z) (targets' : list string) :
  parse_args atoi args jobs targets = inr (jobs', targets') ->
  targets' = (targets ++ filter (fun a => is_option a = false) args)%list /\
  Forall (fun a => a <> "") args.
Proof.
  revert jobs targets. induction args as [|arg args IH]; intros jobs targets H.
  - cbn in H. injection H as _ <-. by rewrite app_nil_r.
  - cbn [parse_args] in H. case_decide as Harg; [done|].
    destruct (_ || _); [done|].
    assert (Hopt : forall j, parse_args atoi args j targets = inr (jobs', targets') ->
              is_option arg = true ->
              targets' = (targets ++ filter (fun a => is_option a = false)
                                       (arg :: args))%list /\
              Forall (fun a => a <> "") (arg :: args)).
    { intros j Hj Ho. destruct (IH _ _ Hj) as [-> Hall].
      rewrite filter_cons, decide_False by (by rewrite Ho).
      split; [done|]. by apply Forall_cons. }
    destruct (bool_decide (arg = "-d")) eqn:Hd.
    { apply bool_decide_eq_true in Hd. subst arg. by apply (Hopt jobs). }
    destruct (compare_eq arg 0 2 "-j" 0 2) eqn:Hj.
    { apply (Hopt _ H). unfold compare_eq in Hj. apply bool_decide_eq_true in Hj.
      destruct arg as [|c arg]; [done|]. cbn in Hj.
      destruct arg; cbn in Hj; by injection Hj as ->. }
    destruct (compare_eq arg 0 7 "--jobs=" 0 7) eqn:Hjobs.
    { apply (Hopt _ H). unfold compare_eq in Hjobs.
      apply bool_decide_eq_true in Hjobs.
      destruct arg as [|c arg]; [done|]. cbn in Hjobs. by injection Hjobs as ->. }
    destruct arg as [|c arg]; [done|]. destruct (ascii_eqb c "-") eqn:Hc; [done|].
    destruct (IH _ _ H) as [-> Hall].
    rewrite filter_cons, decide_True by (cbn; by rewrite Hc).
    split; [by rewrite <- app_assoc|]. by apply Forall_cons.
Qed.

Lemma parse_args_targets_witness :
  ["x"; "a"; "b"] =
    (["x"] ++ filter (fun a => is_option a = false) ["a"; "-j4"; "-d"; "b"])%list /\
  Forall (fun a => a <> "") ["a"; "-j4"; "-d"; "b"].
Proof.
  apply (parse_args_targets (fun _ => 4) ["a"; "-j4"; "-d"; "b"] 1 ["x"] 4).
  by vm_compute.
Defined.

(** ** Requests at the server *)

Lemma add_dynamic_deps_included (job names : list string)
    (m : gmap string (gset string)) :
  deps_included m (foldl (add_dynamic_dep job) m names).
Proof.
  revert m. induction names as [|n names IH]; intros m; [apply deps_included_refl|].
  cbn [foldl]. eapply deps_included_trans; [|apply IH].
  intros t d. apply deps_of_foldl_mono.
Qed.

Lemma add_dynamic_deps_new (job names : list string)
    (m : gmap string (gset string)) (t n : string) :
  t ∈ job -> n ∈ names -> n ∈ deps_of (foldl (add_dynamic_dep job) m names) t.
Proof.
  intros Ht. revert m. induction names as [|n' names IH]; intros m Hn.
  { by apply not_elem_of_nil in Hn. }
  cbn [foldl]. apply elem_of_cons in Hn as [->|Hn]; [|by apply IH].
  apply add_dynamic_deps_included. by apply deps_of_foldl_new.
Qed.

(** X23.  A request of a running job is taken in whole.  When a script of
    job [job_id] connects and the bytes of a request for the names [ts]
    arrive, in whatever pieces, [accept_client] puts a client for the job
    at the front of the queue with these names pending, counts the job as
    waiting, and records every name as a dependency of every target of the
    job, on top of the dependencies that were recorded. *)
Theorem accept_client_request (conn : connection) (st : state) (job_id : Z)
    (job : list string) (ts : list string) :
  0 <= conn_fd conn -> conn_job_id conn = Some job_id ->
  st_job_targets st !! job_id = Some job ->
  ts <> [] -> Forall target_name ts ->
  Forall (fun buf => buf <> "") (conn_chunks conn) ->
  chunks_text (conn_chunks conn) = request_text ts ->
  exists st',
    accept_client conn st = (Ret tt, st') /\
    st_clients st' = mk_client (conn_fd conn) job_id ts ∅ None :: st_clients st /\
    st_waiting_jobs st' = st_waiting_jobs st + 1 /\
    deps_included (st_deps st) (st_deps st') /\
    forall t n, t ∈ job -> n ∈ ts -> n ∈ deps_of (st_deps st') t.
Proof.
  intros Hfd Hid Hjob Hne Hts Hchunks Hcat. unfold accept_client.
  destruct (Z.ltb_spec (conn_fd conn) 0) as [?|_]; [lia|].
  rewrite Hid. unfold bind at 1. unfold get_state at 1. rewrite Hjob.
  rewrite (recv_targets_all ts); [|done|done|done|exact Hcat|].
  - rewrite parse_request by done. cbn [app].
    unfold bind, modify. cbn. eexists. split; [reflexivity|]. cbn.
    split; [done|]. split; [done|].
    split; [apply add_dynamic_deps_included|].
    intros t n. apply add_dynamic_deps_new.
  - destruct ts as [|[|c t] ts]; [done| |done].
    by apply Forall_cons in Hts as [[? _] _].
Qed.

Lemma accept_client_request_witness :
  exists st',
    accept_client example_request
      (set_job_targets {[ 0 := ["a"] ]} (initial_state ∅ [] [] true)) =
      (Ret tt, st') /\
    st_clients st' = [mk_client 5 0 ["b"] ∅ None] /\
    st_waiting_jobs st' = 1 /\
    "b" ∈ deps_of (st_deps st') "a".
Proof.
  destruct (accept_client_request example_request
              (set_job_targets {[ 0 := ["a"] ]} (initial_state ∅ [] [] true))
              0 ["a"] ["b"]) as (st' & H1 & H2 & H3 & _ & H5);
    try done; try (by vm_compute).
  - apply Forall_cons. split; [by split|by apply Forall_nil].
  - apply Forall_cons. split; [done|by apply Forall_nil].
  - exists st'. split; [exact H1|]. split; [exact H2|]. split; [exact H3|].
    apply H5; by left.
Defined.


(** ** Job numbers *)

Section Fresh.

Variable c0 : Z.

Lemma fresh_jobs_ids (st st' : state) :
  job_ids st' = job_ids st -> fresh_jobs c0 st -> fresh_jobs c0 st'.
Proof. unfold job_ids, fresh_jobs. intros [= -> ->]. done. Qed.

(** What keeps the job table and the job counter keeps the invariant. *)
Lemma fresh_keeps {A : Type} (m : M A) :
  keeps job_ids m -> preserves (fresh_jobs c0) m.
Proof.
  intros Hm st Hst. specialize (Hm st).
  destruct (m st) as [[a| | | |] st1]; by apply (fresh_jobs_ids st).
Qed.

Lemma fresh_complete_job (job : Z) (success : bool) :
  preserves (fresh_jobs c0) (complete_job job success).
Proof.
  unfold preserves, complete_job. apply hoare_read. intros s Hs.
  apply (hoare_at s (fresh_jobs c0)); [done|].
  destruct (st_job_targets s !! job) as [ts|]; [|by apply hoare_stop].
  eapply hoare_bind.
  { apply fresh_keeps, kp_modify. intros st. destruct success; [done|].
    by apply (proj_foldl job_ids). }
  intros ?. apply hoare_modify. intros st [Hc Hk]. split; [done|]. cbn.
  intros k Hv. apply Hk. by apply lookup_delete_is_Some in Hv as [_ Hv].
Qed.

Lemma fresh_run_script (job : Z) (rule : rule_t) :
  preserves (fresh_jobs c0) (run_script job rule).
Proof.
  unfold preserves, run_script. apply hoare_read. intros s Hs.
  apply (hoare_at s (fresh_jobs c0)); [done|].
  destruct (st_forks s) as [|[pid|] forks].
  - apply fresh_complete_job.
  - by apply fresh_keeps, kp_modify.
  - eapply hoare_bind; [by apply fresh_keeps, kp_modify|].
    intros ?. apply fresh_complete_job.
Qed.

Lemma fresh_start (target : string) (i : nat) :
  preserves (fresh_jobs c0) (start target i).
Proof.
  unfold preserves, start. apply hoare_read. intros s Hs.
  apply (hoare_at s (fresh_jobs c0)); [done|].
  destruct (targets (find_rule (st_rules s) target)) as [|t ts] eqn:Ht.
  - eapply hoare_bind; [by apply fresh_keeps, kp_modify|].
    intros ?. by apply hoare_ret.
  - eapply hoare_bind.
    { apply fresh_keeps, kp_modify. intros st. by apply (proj_foldl job_ids). }
    intros ?. apply hoare_bind with (Q := fun _ => fresh_jobs c0).
    + destruct (deps (find_rule (st_rules s) target)).
      * eapply hoare_bind; [apply fresh_run_script|]. intros ?. by apply hoare_ret.
      * apply hoare_bind with (Q := fun _ => fresh_jobs c0);
          [|intros ?; by apply hoare_ret].
        by apply fresh_keeps, kp_modify.
    + intros inserted. apply hoare_bind with (Q := fun _ => fresh_jobs c0);
        [|intros ?; by apply hoare_ret].
      apply hoare_modify. intros st [Hc Hk]. split; cbn; [lia|].
      intros k [Hk'|[_ Hv]]%lookup_insert_is_Some; [lia|].
      specialize (Hk k Hv). lia.
Qed.

Lemma fresh_complete_request (client : client_t) (success : bool) :
  preserves (fresh_jobs c0) (complete_request client success).
Proof.
  unfold preserves, complete_request.
  apply hoare_bind with (Q := fun _ => fresh_jobs c0).
  - destruct (delayed client) as [rule|].
    + eapply hoare_bind; [apply preserves_assert|].
      intros ?. destruct success; [apply fresh_run_script|apply fresh_complete_job].
    + destruct (0 <=? fd client); [by apply fresh_keeps, kp_modify|by apply hoare_ret].
  - intros ?. destruct (_ && _); [by apply fresh_keeps, kp_modify|by apply hoare_ret].
Qed.

Lemma fresh_client_at (i : nat) : preserves (fresh_jobs c0) (client_at i).
Proof. by apply fresh_keeps, kp_client_at. Qed.

Lemma fresh_update_client (i : nat) (g : client_t -> client_t) :
  preserves (fresh_jobs c0) (update_client i g).
Proof. by apply fresh_keeps, kp_update_client. Qed.

Lemma fresh_erase_client (i : nat) : preserves (fresh_jobs c0) (erase_client i).
Proof. by apply fresh_keeps, kp_erase_client. Qed.

Lemma fresh_get_status_m (target : string) :
  preserves (fresh_jobs c0) (get_status_m target).
Proof. by apply fresh_keeps, kp_get_status_m. Qed.

Lemma fresh_fail_client (i : nat) : preserves (fresh_jobs c0) (fail_client i).
Proof.
  unfold preserves, fail_client. eapply hoare_bind; [apply fresh_client_at|].
  intros c. eapply hoare_bind; [apply fresh_complete_request|].
  intros ?. apply fresh_erase_client.
Qed.

Lemma fresh_drain (fuel : nat) (i : nat) : preserves (fresh_jobs c0) (drain fuel i).
Proof.
  unfold preserves. revert i. induction fuel as [|n IH]; intros i.
  { by apply hoare_stop. }
  cbn [drain]. eapply hoare_bind; [apply fresh_client_at|].
  intros c. destruct (pending c) as [|target rest].
  { by apply hoare_ret. }
  eapply hoare_bind; [apply fresh_update_client|].
  intros ?. eapply hoare_bind; [apply fresh_get_status_m|].
  intros ts. destruct (status ts).
  - apply IH.
  - eapply hoare_bind; [apply fresh_start|]. intros [ok inserted].
    destruct ok; cbn [negb]; [|by apply hoare_ret].
    eapply hoare_bind; [apply fresh_update_client|].
    intros ?. apply hoare_read. intros s Hs.
    apply (hoare_at s (fresh_jobs c0)); [done|].
    destruct (has_free_slots s); cbn [negb]; [apply IH|by apply hoare_ret].
  - eapply hoare_bind; [apply fresh_update_client|]. intros ?. apply IH.
  - apply IH.
  - by apply hoare_ret.
Qed.

Lemma fresh_handle_client (fuel : nat) (i : nat) :
  preserves (fresh_jobs c0) (handle_client fuel i).
Proof.
  unfold preserves, handle_client. eapply hoare_bind; [apply fresh_client_at|].
  intros c. apply hoare_read. intros s Hs.
  apply (hoare_at s (fresh_jobs c0)); [done|].
  destruct (harvest _ _ _) as [r| |].
  - eapply hoare_bind; [apply fresh_update_client|].
    intros ?. eapply hoare_bind; [apply fresh_drain|]. intros d.
    destruct d.
    + eapply hoare_bind; [apply fresh_client_at|].
      intros c'. case_decide; [|by apply hoare_ret].
      eapply hoare_bind; [apply fresh_complete_request|]. intros ?.
      eapply hoare_bind; [apply fresh_erase_client|]. intros ?. by apply hoare_ret.
    + eapply hoare_bind; [apply fresh_fail_client|]. intros ?. by apply hoare_ret.
    + by apply hoare_ret.
  - eapply hoare_bind; [apply fresh_fail_client|]. intros ?. by apply hoare_ret.
  - by apply hoare_stop.
Qed.

Lemma fresh_update_clients_loop (fuel : nat) (i : nat) :
  preserves (fresh_jobs c0) (update_clients_loop fuel i).
Proof.
  unfold preserves. revert i. induction fuel as [|n IH]; intros i.
  { by apply hoare_stop. }
  cbn [update_clients_loop]. apply hoare_read. intros s Hs.
  apply (hoare_at s (fresh_jobs c0)); [done|].
  destruct (_ && _); [|by apply hoare_ret].
  eapply hoare_bind; [apply fresh_handle_client|]. intros [i'|].
  - apply IH.
  - by apply hoare_ret.
Qed.

Lemma fresh_reap (children : list (positive * wait_status)) :
  preserves (fresh_jobs c0) (reap children).
Proof.
  unfold preserves. induction children as [|[pid ws] children IH].
  { by apply hoare_ret. }
  cbn [reap]. apply hoare_read. intros s Hs.
  apply (hoare_at s (fresh_jobs c0)); [done|].
  destruct (st_job_pids s !! pid) as [job|]; [|by apply hoare_stop].
  eapply hoare_bind; [by apply fresh_keeps, kp_modify|].
  intros ?. eapply hoare_bind; [apply fresh_complete_job|].
  intros ?. apply IH.
Qed.

Lemma fresh_server_loop (fuel : nat) : preserves (fresh_jobs c0) (server_loop fuel).
Proof.
  unfold preserves. induction fuel as [|n IH].
  { by apply hoare_stop. }
  cbn [server_loop]. eapply hoare_bind; [apply fresh_update_clients_loop|].
  intros ?. apply hoare_read. intros s Hs.
  apply (hoare_at s (fresh_jobs c0)); [done|].
  destruct (st_running_jobs s =? 0); [apply preserves_assert|].
  destruct (st_events s) as [|ev events]; [by apply hoare_stop|].
  eapply hoare_bind; [by apply fresh_keeps, kp_modify|].
  intros ?. eapply hoare_bind.
  { destruct (ev_connection ev);
      [by apply fresh_keeps, kp_accept_client|by apply hoare_ret]. }
  intros ?. eapply hoare_bind.
  { destruct (ev_sigchld ev); [apply fresh_reap|by apply hoare_ret]. }
  intros ?. apply IH.
Qed.

End Fresh.

(** X24.  Job numbers are not used twice.  If every job of the job table
    has a number below the job counter, this still holds when
    [server_loop] stops, however it stops, and the job counter has not
    gone down: the number [start] gives to a new job is the number of no
    job of the table. *)
Theorem job_numbers_fresh (fuel : nat) (st : state) :
  (forall k, is_Some (st_job_targets st !! k) -> k < st_job_counter st) ->
  let st' := (server_loop fuel st).2 in
  st_job_counter st <= st_job_counter st' /\
  (forall k, is_Some (st_job_targets st' !! k) -> k < st_job_counter st') /\
  st_job_targets st' !! st_job_counter st' = None.
Proof.
  intros Hst st'.
  assert (H : fresh_jobs (st_job_counter st) st') .
  { apply (preserves_final _ _ _ (fresh_server_loop _ fuel)). by split. }
  destruct H as [H1 H2]. split; [done|]. split; [done|].
  destruct (st_job_targets st' !! st_job_counter st') eqn:E; [|done].
  specialize (H2 (st_job_counter st')). rewrite E in H2.
  specialize (H2 ltac:(eauto)). lia.
Qed.

Lemma job_numbers_fresh_witness :
  let st' := (server_mode 10 ["a"] example_state).2 in
  let st'' := (server_loop 10 example_state_waiting).2 in
  st_job_counter st' = 2 /\
  st_job_targets st'' !! st_job_counter st'' = None.
Proof.
  split; [by vm_compute|].
  apply (job_numbers_fresh 10 example_state_waiting).
  intros k [v Hv]. cbn in Hv.
  apply lookup_singleton_Some in Hv as [<- _]. cbn. lia.
Defined.

(** ** When the server loop returns *)

Lemma bind_Ret {A B : Type} (m : M A) (k : A -> M B) (st : state) (b : B)
    (st' : state) :
  bind m k st = (Ret b, st') ->
  exists a s1, m st = (Ret a, s1) /\ k a s1 = (Ret b, st').
Proof.
  unfold bind. destruct (m st) as [[a| | | |] s1]; try done. eauto.
Qed.

(** X25.  [server_loop] returns only when no job runs and no client is
    left in the queue. *)
Theorem server_loop_returns (fuel : nat) (st st' : state) :
  server_loop fuel st = (Ret tt, st') ->
  st_running_jobs st' = 0 /\ st_clients st' = [].
Proof.
  revert st. induction fuel as [|n IH]; intros st H; [done|].
  cbn [server_loop] in H.
  apply bind_Ret in H as (_ & s1 & _ & H).
  apply bind_Ret in H as (s & s2 & Hs & H).
  injection Hs as <- <-.
  destruct (Z.eqb_spec (st_running_jobs s1) 0) as [Hrun|_].
  - unfold assert in H. destruct (bool_decide _) eqn:Hc; [|done].
    injection H as <-. by apply bool_decide_eq_true in Hc.
  - destruct (st_events s1) as [|ev events]; [done|].
    apply bind_Ret in H as (_ & s3 & _ & H).
    apply bind_Ret in H as (_ & s4 & _ & H).
    apply bind_Ret in H as (_ & s5 & _ & H).
    by apply (IH s5).
Qed.

Lemma server_loop_returns_witness :
  exists st',
    server_loop 5 (set_clients [new_client] (initial_state ∅ [] [] true)) =
      (Ret tt, st') /\
    st_running_jobs st' = 0 /\ st_clients st' = [].
Proof.
  eexists. split; [by vm_compute|].
  eapply (server_loop_returns 5
            (set_clients [new_client] (initial_state ∅ [] [] true))).
  by vm_compute.
Defined.

(** ** Dependency clients *)

Lemma kp_forks_running_fail (ts : list string) (st : state) :
  (st_forks (foldl fail_target st ts), st_running_jobs (foldl fail_target st ts),
   st_build_failure (foldl fail_target st ts)) =
  (st_forks st, st_running_jobs st, st_build_failure st).
Proof.
  by apply (proj_foldl (fun s => (st_forks s, st_running_jobs s, st_build_failure s))).
Qed.

(** X26.  When the dependencies of a rule fail, its script is not run: for
    a dependency client of a job of the job table, [complete_request] with
    failure forks nothing, marks every target of the job [Failed], removes
    their files and takes the job off the job table. *)
Theorem dependency_failed (client : client_t) (rule : rule_t) (st : state)
    (ts : list string) :
  delayed client = Some rule -> fd client < 0 ->
  st_job_targets st !! job_id client = Some ts ->
  exists st',
    complete_request client false st = (Ret tt, st') /\
    (forall t, t ∈ ts ->
       status <$> st_status st' !! t = Some Failed /\
       st_files st' !! c_str t = None) /\
    st_job_targets st' = delete (job_id client) (st_job_targets st) /\
    st_forks st' = st_forks st /\
    st_running_jobs st' = st_running_jobs st.
Proof.
  intros Hd Hfd Hjob.
  assert (E : complete_job (job_id client) false st =
              (Ret tt, set_job_targets (delete (job_id client) (st_job_targets st))
                         (foldl fail_target st ts))).
  { unfold complete_job, bind, get_state, modify. cbv beta iota.
    rewrite Hjob. cbv beta iota. by rewrite fail_all_job_targets. }
  unfold complete_request. rewrite Hd.
  destruct (Z.ltb_spec (fd client) 0) as [_|?]; [|lia].
  unfold bind, assert, ret. cbv beta iota. rewrite E. cbv beta iota.
  pose proof (kp_forks_running_fail ts st) as Hk. injection Hk as Hk1 Hk2 _.
  assert (Hfacts : forall t, t ∈ ts ->
            status <$> st_status (foldl fail_target st ts) !! t = Some Failed /\
            st_files (foldl fail_target st ts) !! c_str t = None).
  { intros t Ht. rewrite fail_all_status, mark_all_lookup, decide_True by done.
    split; [done|].
    rewrite fail_all_files, remove_all_lookup, decide_True; [done|].
    by apply list_elem_of_fmap_2. }
  destruct ((job_id client <? 0) && negb false); eexists;
    (split; [reflexivity|]); cbn; done.
Qed.

Lemma dependency_failed_witness :
  exists st',
    complete_request
      (mk_client (-1) 0 [] ∅ (Some (mk_rule false ["a"] [] "touch a"))) false
      (set_job_targets {[ 0 := ["a"] ]}
         (initial_state {[ "a" := mk_file 1 "" ]} [Some 9%positive] [] true)) =
      (Ret tt, st') /\
    status <$> st_status st' !! "a" = Some Failed /\
    st_files st' !! "a" = None /\
    st_forks st' = [Some 9%positive].
Proof.
  destruct (dependency_failed
              (mk_client (-1) 0 [] ∅ (Some (mk_rule false ["a"] [] "touch a")))
              (mk_rule false ["a"] [] "touch a")
              (set_job_targets {[ 0 := ["a"] ]}
                 (initial_state {[ "a" := mk_file 1 "" ]} [Some 9%positive] [] true))
              ["a"]) as (st' & H1 & H2 & _ & H4 & _); try done.
  exists st'. split; [exact H1|].
  destruct (H2 "a") as [Ha Hb]; [by left|]. by rewrite H4.
Defined.

(** ** Requests that need no job *)

Lemma delete_alter {A : Type} (g : A -> A) (i : nat) (l : list A) :
  delete i (alter g i l) = delete i l.
Proof.
  revert i. induction l as [|x l IH]; intros [|i]; try done.
  cbn. f_equal. apply IH.
Qed.

Lemma set_clients_same (st : state) : set_clients (st_clients st) st = st.
Proof. by destruct st. Qed.

Lemma get_status_m_cached (p : string) (v : status_t) (st : state) :
  st_status st !! p = Some v -> get_status_m p st = (Ret v, st).
Proof.
  intros H. unfold get_status_m, get_status, get_status_bound.
  cbn [get_status_fuel]. by rewrite H.
Qed.

Lemma client_at_some (i : nat) (st : state) (c : client_t) :
  st_clients st !! i = Some c -> client_at i st = (Ret c, st).
Proof. intros H. unfold client_at, bind, get_state. cbv beta iota. by rewrite H. Qed.

Lemma set_elements_none : set_elements ∅ = [].
Proof. unfold set_elements. by rewrite elements_empty. Qed.

Lemma only_pending_id : only_pending (fun c => c).
Proof. by intros c. Qed.

Lemma only_pending_compose (g : client_t -> client_t) (rest : list string) :
  only_pending g -> only_pending (g ∘ set_pending rest).
Proof.
  intros Hg c. destruct (Hg (set_pending rest c)) as (H1 & H2 & H3 & H4).
  unfold compose. by rewrite H1, H2, H3, H4.
Qed.

(** The second inner loop of [update_clients] over targets that are
    done. *)
Lemma drain_done (i : nat) (ps : list string) (fuel : nat) (st : state)
    (c : client_t) :
  (length ps < fuel)%nat ->
  st_clients st !! i = Some c -> pending c = ps ->
  (forall p, p ∈ ps -> target_done st p) ->
  exists g,
    drain fuel i st = (Ret Drained, set_clients (alter g i (st_clients st)) st) /\
    only_pending g.
Proof.
  revert fuel st c. induction ps as [|p ps IH]; intros fuel st c Hfuel Hc Hp Hdone.
  - destruct fuel as [|n]; [cbn in Hfuel; lia|]. exists (fun c => c).
    split; [|apply only_pending_id]. cbn [drain].
    unfold bind. rewrite (client_at_some i st c Hc). cbv beta iota. rewrite Hp.
    by rewrite list_alter_id, set_clients_same.
  - destruct fuel as [|n]; [cbn in Hfuel; lia|].
    destruct (Hdone p) as (v & Hv & Hs); [by left|].
    set (st1 := set_clients (alter (set_pending ps) i (st_clients st)) st).
    destruct (IH n st1 (set_pending ps c)) as (g & Hg & Hog).
    + cbn in Hfuel. lia.
    + unfold st1. cbn. by rewrite list_lookup_alter_eq, Hc.
    + done.
    + intros q Hq. apply Hdone. by right.
    + exists (g ∘ set_pending ps). split; [|by apply only_pending_compose].
      cbn [drain]. unfold bind. rewrite (client_at_some i st c Hc).
      cbv beta iota. rewrite Hp.
      unfold update_client, modify. cbv beta iota. fold st1.
      rewrite (get_status_m_cached p v st1 Hv). cbv beta iota.
      assert (E : drain n i st1 =
                  (Ret Drained,
                   set_clients (alter (g ∘ set_pending ps) i (st_clients st)) st)).
      { rewrite Hg. unfold st1. cbn. by rewrite list_alter_alter_eq. }
      by destruct Hs as [-> | ->].
Qed.

(** X27.  A request for targets that are all up to date or remade is
    answered at once.  For a client with no delayed rule, no target
    running and only such targets pending, the round of [update_clients]
    for it starts no job and takes the client off the queue; a real
    client is sent the reply 1, the failure flag is not touched, and the
    loop goes on with the client that followed. *)
Theorem request_done (i : nat) (fuel : nat) (st : state) (c : client_t) :
  st_clients st !! i = Some c ->
  delayed c = None -> running c = ∅ ->
  (forall p, p ∈ pending c -> target_done st p) ->
  (length (pending c) < fuel)%nat ->
  exists st',
    handle_client fuel i st = (Ret (Some i), st') /\
    st_clients st' = delete i (st_clients st) /\
    st_sent st' =
      (st_sent st ++ if 0 <=? fd c then [(fd c, true)] else [])%list /\
    st_forks st' = st_forks st /\
    st_job_counter st' = st_job_counter st /\
    st_status st' = st_status st /\
    st_build_failure st' = st_build_failure st.
Proof.
  intros Hc Hd Hr Hdone Hfuel.
  set (st1 := set_clients (alter (set_running ∅) i (st_clients st)) st).
  destruct (drain_done i (pending c) fuel st1 (set_running ∅ c))
    as (g & Hg & Hog); try done.
  { unfold st1. cbn. by rewrite list_lookup_alter_eq, Hc. }
  destruct (Hog (set_running ∅ c)) as (Hfd & Hjob & Hrun & Hdel).
  assert (Hc1 : st_clients (set_clients (alter g i (st_clients st1)) st1) !! i
                = Some (g (set_running ∅ c))).
  { unfold st1. cbn. by rewrite !list_lookup_alter_eq, Hc. }
  unfold handle_client, bind. rewrite (client_at_some i st c Hc).
  unfold get_state. cbv beta iota. rewrite Hr, set_elements_none.
  cbn [harvest]. unfold update_client, modify. cbv beta iota. fold st1.
  rewrite Hg. cbv beta iota. rewrite (client_at_some _ _ _ Hc1).
  cbv beta iota. rewrite decide_True by done.
  unfold complete_request. rewrite Hdel, Hfd. cbn [delayed fd set_running].
  rewrite Hd. unfold erase_client, bind, modify, ret.
  destruct (0 <=? fd c); cbn; rewrite ?andb_false_r; cbn;
    eexists; (split; [reflexivity|]); cbn;
    rewrite !delete_alter, ?List.app_nil_r; done.
Qed.

Lemma request_done_witness :
  exists st',
    handle_client 3 0
      (set_status {[ "a" := mk_status Uptodate 5 ]}
         (set_clients [mk_client 5 0 ["a"] ∅ None]
            (initial_state ∅ [Some 1%positive] [] true))) = (Ret (Some 0%nat), st') /\
    st_clients st' = [] /\
    st_sent st' = [(5, true)] /\
    st_forks st' = [Some 1%positive].
Proof.
  destruct (request_done 0 3
              (set_status {[ "a" := mk_status Uptodate 5 ]}
                 (set_clients [mk_client 5 0 ["a"] ∅ None]
                    (initial_state ∅ [Some 1%positive] [] true)))
              (mk_client 5 0 ["a"] ∅ None))
    as (st' & H1 & H2 & H3 & H4 & _); try done.
  - intros p Hp. cbn in Hp. apply list_elem_of_singleton in Hp as ->.
    exists (mk_status Uptodate 5). split; [done|by left].
  - cbn. lia.
  - by exists st'.
Defined.

(** X28.  A request for a target that is known to have failed fails at
    once.  For a client with no delayed rule and no target running whose
    first pending target is cached as [Failed], the round of
    [update_clients] for it starts no job, drops the targets still pending
    and takes the client off the queue; a real client is sent the reply 0,
    and for a seed client the failure flag is set. *)
Theorem request_failed (i : nat) (fuel : nat) (st : state) (c : client_t)
    (p : string) (ps : list string) (v : status_t) :
  st_clients st !! i = Some c ->
  delayed c = None -> running c = ∅ -> pending c = p :: ps ->
  st_status st !! p = Some v -> status v = Failed ->
  exists st',
    handle_client (S fuel) i st = (Ret (Some i), st') /\
    st_clients st' = delete i (st_clients st) /\
    st_sent st' =
      (st_sent st ++ if 0 <=? fd c then [(fd c, false)] else [])%list /\
    st_forks st' = st_forks st /\
    st_job_counter st' = st_job_counter st /\
    st_build_failure st' = st_build_failure st || (job_id c <? 0).
Proof.
  intros Hc Hd Hr Hp Hv Hs.
  set (st1 := set_clients (alter (set_running ∅) i (st_clients st)) st).
  set (st2 := set_clients (alter (set_pending ps) i (st_clients st1)) st1).
  assert (Hc1 : st_clients st1 !! i = Some (set_running ∅ c)).
  { unfold st1. cbn. by rewrite list_lookup_alter_eq, Hc. }
  assert (Hc2 : st_clients st2 !! i = Some (set_pending ps (set_running ∅ c))).
  { unfold st2. cbn [st_clients set_clients]. by rewrite list_lookup_alter_eq, Hc1. }
  unfold handle_client, bind. rewrite (client_at_some i st c Hc).
  unfold get_state. cbv beta iota. rewrite Hr, set_elements_none.
  cbn [harvest]. unfold update_client, modify. cbv beta iota. fold st1.
  cbn [drain]. unfold bind. rewrite (client_at_some _ _ _ Hc1).
  cbv beta iota. cbn [pending set_running]. rewrite Hp.
  unfold update_client, modify. cbv beta iota. fold st2.
  rewrite (get_status_m_cached p v st2 Hv). cbv beta iota. rewrite Hs.
  unfold ret at 1. cbv beta iota.
  unfold fail_client, bind. rewrite (client_at_some _ _ _ Hc2).
  cbv beta iota.
  unfold complete_request. cbn [delayed fd job_id set_running set_pending].
  rewrite Hd. unfold erase_client, bind, modify, ret.
  destruct (0 <=? fd c); destruct (job_id c <? 0); cbn;
    eexists; (split; [reflexivity|]); cbn;
    rewrite !delete_alter, ?List.app_nil_r, ?orb_true_r, ?orb_false_r; done.
Qed.

Lemma request_failed_witness :
  exists st',
    handle_client 1 0
      (set_status {[ "a" := mk_status Failed 0 ]}
         (set_clients [mk_client (-1) (-1) ["a"; "b"] ∅ None]
            (initial_state ∅ [Some 1%positive] [] true))) = (Ret (Some 0%nat), st') /\
    st_clients st' = [] /\
    st_build_failure st' = true.
Proof.
  destruct (request_failed 0 0
              (set_status {[ "a" := mk_status Failed 0 ]}
                 (set_clients [mk_client (-1) (-1) ["a"; "b"] ∅ None]
                    (initial_state ∅ [Some 1%positive] [] true)))
              (mk_client (-1) (-1) ["a"; "b"] ∅ None) "a" ["b"]
              (mk_status Failed 0))
    as (st' & H1 & H2 & _ & _ & _ & H6); try done.
  by exists st'.
Defined.


(** ** The debugging log *)

Lemma indent_some (d : Z) :
  d < 2 ^ 30 -> indent d = Some (spaces (Z.to_nat (d * 2))).
Proof.
  intros H. unfold indent, INT_MAX.
  destruct (Z.ltb_spec 2147483647 (d * 2)) as [?|?]; [lia|done].
Qed.

(** One call on the log, the depth within bounds. *)
Lemma log_step_depth (c : log_call) (l : log) (cerr : string) :
  0 <= depth l -> depth l + 1 < 2 ^ 30 ->
  (0 <= depth l + call_depth c ->
   exists l' cerr',
     log_step c l cerr = Logged l' cerr' /\
     depth l' = depth l + call_depth c /\ active l' = active l) /\
  (depth l + call_depth c < 0 -> log_step c l cerr = Log_abort).
Proof.
  intros H0 Hb. destruct c as [|[|]]; cbn [log_step call_depth].
  - split; [|lia]. intros _. unfold log_plain.
    destruct (Z.ltb_spec (depth l) 0) as [?|_]; [lia|].
    rewrite indent_some by lia. eexists _, _. split; [reflexivity|].
    cbn. split; [lia|done].
  - split; [|lia]. intros _. unfold log_nest. cbn [negb andb orb].
    destruct (Z.ltb_spec (depth l) 0) as [?|_]; [lia|].
    rewrite indent_some by lia.
    destruct (Z.eqb_spec (depth l) INT_MAX) as [E|_];
      [unfold INT_MAX in E; lia|].
    eexists _, _. split; [reflexivity|]. cbn. done.
  - unfold log_nest. cbn [negb andb orb].
    destruct (Z.eqb_spec (depth l) INT_MIN) as [E|_];
      [unfold INT_MIN in E; lia|].
    split.
    + intros H. destruct (Z.ltb_spec (depth l - 1) 0) as [?|_]; [lia|].
      assert (exists s, (if negb (open l) then indent (depth l - 1) else Some "")
                        = Some s) as [s ->].
      { destruct (open l); cbn; [by eexists|].
        rewrite indent_some by lia. by eexists. }
      eexists _, _. split; [reflexivity|]. cbn. split; [lia|done].
    + intros H. by destruct (Z.ltb_spec (depth l - 1) 0) as [_|?]; [|lia].
Qed.

(** X29.  The assertion of the log fails exactly when a call closes more
    than is open.  From a log of depth at least 0, and as long as the depth
    stays below 2^30, a sequence of calls on the log goes through when no
    call of it takes the depth below 0, and then the depth has grown by the
    number of opening calls less the number of closing ones and [active] is
    as before; otherwise the sequence ends in a failed assertion. *)
Theorem log_nesting (cs : list log_call) (l : log) (cerr : string) :
  0 <= depth l -> depth l + Z.of_nat (length cs) < 2 ^ 30 ->
  (well_nested (depth l) cs = true ->
   exists l' cerr',
     log_run cs l cerr = Logged l' cerr' /\
     depth l' = depth l + balance cs /\ active l' = active l) /\
  (well_nested (depth l) cs = false -> log_run cs l cerr = Log_abort).
Proof.
  revert l cerr. induction cs as [|c cs IH]; intros l cerr H0 Hb.
  - split; [|done]. intros _. exists l, cerr. cbn. split; [done|].
    split; [lia|done].
  - cbn [length] in Hb.
    assert (Hcd : call_depth c <= 1) by (destruct c as [|[|]]; cbn; lia).
    destruct (log_step_depth c l cerr H0 ltac:(lia)) as [Hok Hko].
    cbn [well_nested log_run balance foldr].
    destruct (Z.leb_spec 0 (depth l + call_depth c)) as [Hc|Hc].
    + destruct (Hok Hc) as (l1 & cerr1 & -> & Hd & Ha).
      destruct (IH l1 cerr1) as [IH1 IH2]; [lia|lia|].
      rewrite <- Hd. cbn [andb]. split.
      * intros Hw. destruct (IH1 Hw) as (l' & cerr' & -> & Hd' & Ha').
        exists l', cerr'. split; [done|].
        fold (balance cs). split; [lia|congruence].
      * exact IH2.
    + cbn [andb]. split; [done|]. intros _. by rewrite (Hko Hc).
Qed.

Lemma log_nesting_witness :
  exists l' cerr',
    log_run [Call_nest true; Call_plain; Call_nest false] new_log "" =
      Logged l' cerr' /\
    depth l' = 0 /\ active l' = false.
Proof.
  destruct (log_nesting [Call_nest true; Call_plain; Call_nest false] new_log "")
    as [H _]; [cbn; lia|cbn; lia|].
  destruct (H eq_refl) as (l' & cerr' & H1 & H2 & H3).
  by exists l', cerr'.
Defined.

Lemma still_open_count_cons (b : bool) (a : list bool) :
  still_open_count (b :: a) = still_open_count a + (if b then 1 else 0).
Proof.
  unfold still_open_count. rewrite filter_cons. destruct b.
  - rewrite decide_True by done. cbn [length]. lia.
  - rewrite decide_False by done. lia.
Qed.

Lemma still_open_count_nonneg (a : list bool) : 0 <= still_open_count a.
Proof. unfold still_open_count. lia. Qed.

(** One event, the depth within bounds and at least the number of blocks
    that [DEBUG_close] has not closed. *)
Lemma debug_step_scoped (ev : debug_event) (autos : list bool) (debug : log)
    (cerr : string) :
  (if active debug then still_open_count autos else 0) <= depth debug ->
  depth debug + 1 < 2 ^ 30 ->
  match ev, autos with
  | Ev_close _, [] | Ev_close _, false :: _ | Ev_leave, [] => True
  | _, _ =>
      exists debug' cerr' autos',
        debug_step ev autos debug cerr = Ran debug' cerr' autos' /\
        active debug' = active debug /\
        autos' =
          match ev, autos with
          | Ev_debug _, _ => autos
          | Ev_open _, _ => true :: autos
          | Ev_close _, _ :: a => false :: a
          | Ev_leave, _ :: a => a
          | _, _ => autos
          end /\
        depth debug' - (if active debug then still_open_count autos' else 0)
        = depth debug - (if active debug then still_open_count autos else 0)
  end.
Proof.
  intros Hc Hb.
  assert (H0 := still_open_count_nonneg autos).
  assert (H0d : 0 <= depth debug) by (destruct (active debug); lia).
  assert (Hplain := log_step_depth Call_plain debug cerr ltac:(lia) Hb).
  assert (Hopen := log_step_depth (Call_nest true) debug cerr ltac:(lia) Hb).
  assert (Hclose := log_step_depth (Call_nest false) debug cerr ltac:(lia) Hb).
  cbn [log_step call_depth] in Hplain, Hopen, Hclose.
  destruct Hplain as [Hplain _], Hopen as [Hopen _], Hclose as [Hclose _].
  destruct ev as [text|text|text|].
  - assert (exists debug' cerr',
              DEBUG text debug cerr = Logged debug' cerr' /\
              depth debug' = depth debug /\ active debug' = active debug)
      as (d' & c' & E & Hd & Ha).
    { unfold DEBUG. destruct (active debug) eqn:Ea; [|by eexists _, _].
      destruct Hplain as (d' & c' & -> & Hd & Ha); [lia|].
      eexists _, _. cbn. split; [done|]. split; [lia|congruence]. }
    assert (exists debug' cerr' autos',
              debug_step (Ev_debug text) autos debug cerr = Ran debug' cerr' autos' /\
              active debug' = active debug /\ autos' = autos /\
              depth debug' - (if active debug then still_open_count autos' else 0)
              = depth debug - (if active debug then still_open_count autos else 0)).
    { exists d', c', autos. cbn [debug_step]. rewrite E. cbn.
      repeat split; try done. lia. }
    by destruct autos as [|[|] ?].
  - assert (exists debug' cerr',
              DEBUG_open text debug cerr = Logged debug' cerr' /\
              depth debug' = depth debug + (if active debug then 1 else 0) /\
              active debug' = active debug)
      as (d' & c' & E & Hd & Ha).
    { unfold DEBUG_open. destruct (active debug) eqn:Ea.
      - destruct Hopen as (d' & c' & -> & Hd & Ha); [lia|].
        eexists _, _. cbn. split; [done|]. split; [lia|congruence].
      - eexists _, _. split; [done|]. split; [lia|done]. }
    assert (exists debug' cerr' autos',
              debug_step (Ev_open text) autos debug cerr = Ran debug' cerr' autos' /\
              active debug' = active debug /\ autos' = true :: autos /\
              depth debug' - (if active debug then still_open_count autos' else 0)
              = depth debug - (if active debug then still_open_count autos else 0)).
    { exists d', c', (true :: autos). cbn [debug_step]. rewrite E. cbn [ran_of].
      repeat split; try done. rewrite still_open_count_cons.
      destruct (active debug); lia. }
    by destruct autos as [|[|] ?].
  - destruct autos as [|[|] a]; try done.
    assert (Hs := still_open_count_cons true a).
    assert (Hs' := still_open_count_cons false a).
    assert (H1 := still_open_count_nonneg a). cbv beta iota in Hs, Hs'.
    assert (exists debug' cerr',
              DEBUG_close text debug cerr = Logged debug' cerr' /\
              depth debug' = depth debug - (if active debug then 1 else 0) /\
              active debug' = active debug)
      as (d' & c' & E & Hd & Ha).
    { unfold DEBUG_close. destruct (active debug) eqn:Ea.
      - destruct Hclose as (d' & c' & -> & Hd & Ha); [lia|].
        eexists _, _. cbn. split; [done|]. split; [lia|congruence].
      - eexists _, _. split; [done|]. split; [lia|done]. }
    exists d', c', (false :: a). cbn [debug_step]. rewrite E. cbn [ran_of].
    repeat split; try done. rewrite Hs, Hs'. destruct (active debug); lia.
  - destruct autos as [|b a]; [done|].
    assert (Hs := still_open_count_cons b a).
    assert (H1 := still_open_count_nonneg a).
    assert (exists debug' cerr',
              log_auto_close_end b debug cerr = Logged debug' cerr' /\
              depth debug' = depth debug - (if active debug && b then 1 else 0) /\
              active debug' = active debug)
      as (d' & c' & E & Hd & Ha).
    { unfold log_auto_close_end. destruct (active debug) eqn:Ea, b; cbn [andb].
      - destruct Hclose as (d' & c' & -> & Hd & Ha); [lia|].
        eexists _, _. cbn. split; [done|]. split; [lia|congruence].
      - eexists _, _. split; [done|]. split; [lia|done].
      - eexists _, _. split; [done|]. split; [lia|done].
      - eexists _, _. split; [done|]. split; [lia|done]. }
    assert (exists debug' cerr' autos',
              debug_step Ev_leave (b :: a) debug cerr = Ran debug' cerr' autos' /\
              active debug' = active debug /\ autos' = a /\
              depth debug' - (if active debug then still_open_count autos' else 0)
              = depth debug - (if active debug then still_open_count (b :: a) else 0)).
    { exists d', c', a. cbn [debug_step]. rewrite E. cbn [ran_of].
      repeat split; try done. rewrite Hs. destruct (active debug), b; cbn in *; lia. }
    by destruct b.
Qed.

Lemma debug_run_scoped (evs : list debug_event) (autos : list bool)
    (debug : log) (cerr : string) :
  scoped autos evs = true ->
  (if active debug then still_open_count autos else 0) <= depth debug ->
  depth debug + Z.of_nat (length evs) < 2 ^ 30 ->
  exists debug' cerr',
    debug_run evs autos debug cerr = Ran debug' cerr' [] /\
    active debug' = active debug /\
    depth debug' =
      depth debug - (if active debug then still_open_count autos else 0).
Proof.
  revert autos debug cerr.
  induction evs as [|ev evs IH]; intros autos debug cerr Hs Hc Hb.
  - cbn in Hs. apply bool_decide_eq_true in Hs as ->. exists debug, cerr.
    cbn. split; [done|]. split; [done|].
    unfold still_open_count. cbn. destruct (active debug); lia.
  - cbn [length] in Hb.
    pose proof (debug_step_scoped ev autos debug cerr Hc ltac:(lia)) as Hstep.
    pose proof (still_open_count_nonneg autos) as Hn.
    assert (exists debug1 cerr1 autos1,
              debug_step ev autos debug cerr = Ran debug1 cerr1 autos1 /\
              active debug1 = active debug /\
              scoped autos1 evs = true /\
              still_open_count autos1 <= still_open_count autos + 1 /\
              depth debug1 - (if active debug then still_open_count autos1 else 0)
              = depth debug - (if active debug then still_open_count autos else 0))
      as (debug1 & cerr1 & autos1 & E & Ha & Hs1 & Hle & Hd).
    { destruct ev as [text|text|text|]; cbn [scoped] in Hs.
      - assert (Hstep' : exists d1 c1 a1,
                  debug_step (Ev_debug text) autos debug cerr = Ran d1 c1 a1 /\
                  active d1 = active debug /\ a1 = autos /\
                  depth d1 - (if active debug then still_open_count a1 else 0)
                  = depth debug - (if active debug then still_open_count autos else 0))
          by (by destruct autos as [|[|] a]).
        destruct Hstep' as (d1 & c1 & a1 & E & Ha & -> & Hd).
        exists d1, c1, autos. repeat split; try done. lia.
      - assert (Hstep' : exists d1 c1 a1,
                  debug_step (Ev_open text) autos debug cerr = Ran d1 c1 a1 /\
                  active d1 = active debug /\ a1 = true :: autos /\
                  depth d1 - (if active debug then still_open_count a1 else 0)
                  = depth debug - (if active debug then still_open_count autos else 0))
          by (by destruct autos as [|[|] a]).
        destruct Hstep' as (d1 & c1 & a1 & E & Ha & -> & Hd).
        exists d1, c1, (true :: autos). repeat split; try done.
        rewrite still_open_count_cons. lia.
      - destruct autos as [|[|] a]; try done.
        destruct Hstep as (d1 & c1 & a1 & E & Ha & -> & Hd).
        exists d1, c1, (false :: a). repeat split; try done.
        rewrite !still_open_count_cons. lia.
      - destruct autos as [|b a]; try done.
        destruct Hstep as (d1 & c1 & a1 & E & Ha & -> & Hd).
        exists d1, c1, a. repeat split; try done.
        rewrite still_open_count_cons. destruct b; lia. }
    pose proof (still_open_count_nonneg autos1) as Hn1.
    assert (Hd1 : depth debug1 <= depth debug + 1)
      by (destruct (active debug); lia).
    destruct (IH autos1 debug1 cerr1 Hs1) as (debug' & cerr' & E' & Ha' & Hd').
    + rewrite Ha. destruct (active debug); lia.
    + lia.
    + exists debug', cerr'. cbn [debug_run]. rewrite E.
      split; [done|]. split; [congruence|].
      rewrite Hd', Ha. destruct (active debug); lia.
Qed.

(** X30.  Code that uses the log through the macros never fails its
    assertion and leaves the depth as it found it.  For events of blocks
    that start with [DEBUG_open], are all left, and each see [DEBUG_close]
    at most once, from a log of depth at least 0 and with fewer events than
    2^30 less the depth: the events go through, every [auto_close] is
    gone, and [depth] and [active] are as before. *)
Theorem debug_scopes_balanced (evs : list debug_event) (debug : log)
    (cerr : string) :
  scoped [] evs = true ->
  0 <= depth debug -> depth debug + Z.of_nat (length evs) < 2 ^ 30 ->
  exists debug' cerr',
    debug_run evs [] debug cerr = Ran debug' cerr' [] /\
    depth debug' = depth debug /\ active debug' = active debug.
Proof.
  intros Hs H0 Hb.
  destruct (debug_run_scoped evs [] debug cerr Hs) as (d' & c' & E & Ha & Hd).
  - unfold still_open_count. cbn. destruct (active debug); lia.
  - done.
  - exists d', c'. split; [done|]. split; [|done].
    rewrite Hd. unfold still_open_count. cbn. destruct (active debug); lia.
Qed.

Lemma debug_scopes_balanced_witness :
  exists debug' cerr',
    debug_run
      [Ev_open "Completing job 0... "; Ev_close ("failed" +:+ endl); Ev_leave;
       Ev_open "Updating clients... "; Ev_debug "x"; Ev_leave]
      [] (mk_log true false 0) "" = Ran debug' cerr' [] /\
    depth debug' = 0 /\ active debug' = true.
Proof.
  apply (debug_scopes_balanced
           [Ev_open "Completing job 0... "; Ev_close ("failed" +:+ endl); Ev_leave;
            Ev_open "Updating clients... "; Ev_debug "x"; Ev_leave]
           (mk_log true false 0) ""); [reflexivity|cbn; lia|cbn; lia].
Defined.
